(** * Folder synchronization: the pass of [folder_sync.py], verified

    The program mirrors a source directory tree into a replica tree.  One
    pass ([sync_directories]) walks the source tree and creates or copies
    what the replica lacks or holds in another version, then walks the
    replica tree and deletes what the source does not have.  [main] repeats
    the pass, sleeping in between.

    The development is a shallow embedding: the file system is a finite map
    from paths to entries, the Python code is written in a small state and
    exception monad over it, and the library calls the code makes
    ([pathlib], [shutil], [hashlib]) are modelled next to it. *)

From Stdlib Require Import ZArith List Strings.Byte String Ascii Lia.
From stdpp Require Import base option list strings gmap fin_maps.

Open Scope Z_scope.

(** ** MD5 (RFC 1321), what [hashlib.md5] computes *)

Module MD5.

Definition wrap32 (x : Z) : Z := x mod 2 ^ 32.
Definition add32 (x y : Z) : Z := wrap32 (x + y).
Definition not32 (x : Z) : Z := Z.lxor x 0xffffffff.
Definition rotl32 (x : Z) (c : Z) : Z :=
  Z.lor (wrap32 (Z.shiftl x c)) (Z.shiftr x (32 - c)).

Definition shifts : list Z :=
  [7; 12; 17; 22; 7; 12; 17; 22; 7; 12; 17; 22; 7; 12; 17; 22;
   5; 9; 14; 20; 5; 9; 14; 20; 5; 9; 14; 20; 5; 9; 14; 20;
   4; 11; 16; 23; 4; 11; 16; 23; 4; 11; 16; 23; 4; 11; 16; 23;
   6; 10; 15; 21; 6; 10; 15; 21; 6; 10; 15; 21; 6; 10; 15; 21].

(** [floor (2^32 * abs (sin (i + 1)))] for [i] from 0 to 63 *)
Definition sines : list Z :=
  [0xd76aa478; 0xe8c7b756; 0x242070db; 0xc1bdceee;
   0xf57c0faf; 0x4787c62a; 0xa8304613; 0xfd469501;
   0x698098d8; 0x8b44f7af; 0xffff5bb1; 0x895cd7be;
   0x6b901122; 0xfd987193; 0xa679438e; 0x49b40821;
   0xf61e2562; 0xc040b340; 0x265e5a51; 0xe9b6c7aa;
   0xd62f105d; 0x02441453; 0xd8a1e681; 0xe7d3fbc8;
   0x21e1cde6; 0xc33707d6; 0xf4d50d87; 0x455a14ed;
   0xa9e3e905; 0xfcefa3f8; 0x676f02d9; 0x8d2a4c8a;
   0xfffa3942; 0x8771f681; 0x6d9d6122; 0xfde5380c;
   0xa4beea44; 0x4bdecfa9; 0xf6bb4b60; 0xbebfbc70;
   0x289b7ec6; 0xeaa127fa; 0xd4ef3085; 0x04881d05;
   0xd9d4d039; 0xe6db99e5; 0x1fa27cf8; 0xc4ac5665;
   0xf4292244; 0x432aff97; 0xab9423a7; 0xfc93a039;
   0x655b59c3; 0x8f0ccc92; 0xffeff47d; 0x85845dd1;
   0x6fa87e4f; 0xfe2ce6e0; 0xa3014314; 0x4e0811a1;
   0xf7537e82; 0xbd3af235; 0x2ad7d2bb; 0xeb86d391].

Record regs := Regs { rA : Z; rB : Z; rC : Z; rD : Z }.

Definition init : regs :=
  Regs 0x67452301 0xefcdab89 0x98badcfe 0x10325476.

Definition nthZ (l : list Z) (i : Z) : Z := nth (Z.to_nat i) l 0.

(** Operation [i] (0 to 63) of a block whose sixteen words are [M]. *)
Definition round (M : list Z) (r : regs) (i : Z) : regs :=
  let '(Regs a b c d) := r in
  let '(f, g) :=
    if i <? 16 then (Z.lor (Z.land b c) (Z.land (not32 b) d), i)
    else if i <? 32 then
      (Z.lor (Z.land d b) (Z.land (not32 d) c), (5 * i + 1) mod 16)
    else if i <? 48 then (Z.lxor (Z.lxor b c) d, (3 * i + 5) mod 16)
    else (Z.lxor c (Z.lor b (not32 d)), (7 * i) mod 16) in
  let f' := add32 (add32 (add32 f a) (nthZ sines i)) (nthZ M g) in
  Regs d (add32 b (rotl32 f' (nthZ shifts i))) b c.

Definition le_word (b0 b1 b2 b3 : Z) : Z :=
  b0 + 2 ^ 8 * b1 + 2 ^ 16 * b2 + 2 ^ 24 * b3.

Fixpoint words (bs : list Z) : list Z :=
  match bs with
  | b0 :: b1 :: b2 :: b3 :: rest => le_word b0 b1 b2 b3 :: words rest
  | _ => []
  end.

Definition block (r : regs) (bs : list Z) : regs :=
  let M := words bs in
  let r' := fold_left (round M) (map Z.of_nat (seq 0 64)) r in
  Regs (add32 (rA r) (rA r')) (add32 (rB r) (rB r'))
       (add32 (rC r) (rC r')) (add32 (rD r) (rD r')).

Definition le_bytes (n : nat) (x : Z) : list Z :=
  map (fun k => (x / 2 ^ (8 * Z.of_nat k)) mod 256) (seq 0 n).

Definition pad (msg : list Z) : list Z :=
  let len := Z.of_nat (length msg) in
  let zeros := Z.to_nat ((55 - len) mod 64) in
  msg ++ 0x80 :: repeat 0 zeros ++ le_bytes 8 ((8 * len) mod 2 ^ 64).

Fixpoint blocks (n : nat) (r : regs) (bs : list Z) : regs :=
  match n with
  | O => r
  | S n' => blocks n' (block r (firstn 64 bs)) (skipn 64 bs)
  end.

Definition digest (msg : list Z) : list Z :=
  let p := pad msg in
  let r := blocks (length p / 64) init p in
  le_bytes 4 (rA r) ++ le_bytes 4 (rB r) ++ le_bytes 4 (rC r)
    ++ le_bytes 4 (rD r).

Definition hex_digit (d : Z) : ascii :=
  nth (Z.to_nat d)
    ["0"; "1"; "2"; "3"; "4"; "5"; "6"; "7"; "8"; "9";
     "a"; "b"; "c"; "d"; "e"; "f"]%char
    "0"%char.

Fixpoint hex (bs : list Z) : string :=
  match bs with
  | [] => EmptyString
  | b :: rest =>
      String (hex_digit (b / 16)) (String (hex_digit (b mod 16)) (hex rest))
  end.

(** [hashlib.md5(data).hexdigest()] *)
Definition hexdigest (data : list byte) : string :=
  hex (digest (map (fun b => Z.of_N (Byte.to_N b)) data)).

End MD5.

Arguments MD5.hexdigest : simpl never.

(** Bytes written in hexadecimal, for the examples. *)
Definition hex_val (c : ascii) : N :=
  let n := N_of_ascii c in
  (if n <? 58 then n - 48 else if n <? 71 then n - 55 else n - 87)%N.

Fixpoint unhex (s : string) : list byte :=
  match s with
  | String h (String l rest) =>
      match Byte.of_N (16 * hex_val h + hex_val l) with
      | Some b => b :: unhex rest
      | None => unhex rest
      end
  | _ => []
  end.

(** ** The file system

    A path is the list of its components, innermost first: [name :: dir]
    is the entry [name] of the directory [dir], and [[]] is the root of the
    file system.  So [rel ++ root] is [root / rel], the parent of a path is
    its tail, and "below" is [suffix]. *)

Abbreviation path := (list string).

(** A regular file has its bytes and says whether it can be opened for
    reading; directories carry nothing. *)
Inductive entry :=
  | File (content : list byte) (readable : bool)
  | Dir.

Inductive kind := KFile | KDir.

Definition kind_of (e : entry) : kind :=
  match e with File _ _ => KFile | Dir => KDir end.

Abbreviation tree := (gmap path entry).

Inductive exn :=
  | FileNotFoundError
  | FileExistsError
  | NotADirectoryError
  | IsADirectoryError
  | PermissionError
  | SameFileError
  | ValueError
  | RecursionError
  | KeyboardInterrupt.

(** [IOError] is [OSError]; these are its subclasses among the above. *)
Definition is_OSError (e : exn) : bool :=
  match e with
  | FileNotFoundError | FileExistsError | NotADirectoryError
  | IsADirectoryError | PermissionError | SameFileError => true
  | ValueError | RecursionError | KeyboardInterrupt => false
  end.

(** [except Exception] catches everything but [KeyboardInterrupt]. *)
Definition is_Exception (e : exn) : bool :=
  match e with KeyboardInterrupt => false | _ => true end.

(** The calls to [logging], in order. *)
Inductive message :=
  | CreatedReplicaDirectory (p : path)
  | CreatedDirectory (p : path)
  | CopiedFile (p : path)
  | UpdatedFile (p : path)
  | UpdatedFileSizeChange (p : path)
  | DeletedDirectory (p : path)
  | DeletedFile (p : path)
  | ErrorCalculatingMD5 (p : path) (e : exn)
  | Starting (source replica : path)
  | Interval (seconds : Z)
  | SynchronizationComplete
  | InterruptedByUser
  | ErrorDuringSynchronization (e : exn)
  | ReplicaWillBeCreated (p : path).

(** The calls that reach the file system to read a file's bytes or to
    change the tree, in order: a counter of what a pass did. *)
Inductive operation :=
  | Mkdir (p : path)
  | Copy (src dst : path)
  | Hash (p : path)
  | Rmtree (p : path)
  | Unlink (p : path).

Definition mutation (o : operation) : bool :=
  match o with Hash _ => false | _ => true end.

(** What the program did, in order: its calls to [logging] and the calls
    counted above. *)
Inductive event :=
  | Logged (m : message)
  | Called (o : operation).

(** [dir_size p] is the [st_size] that [stat] reports for a directory at
    [p]; it depends on the file system, and nothing below fixes it. *)
Record state := State {
  files : tree;
  dir_size : path -> Z;
  trace : list event
}.

#[global] Instance byte_eq_dec : EqDecision byte := Byte.byte_eq_dec.
#[global] Instance entry_eq_dec : EqDecision entry.
Proof. solve_decision. Defined.
#[global] Instance kind_eq_dec : EqDecision kind.
Proof. solve_decision. Defined.
#[global] Instance exn_eq_dec : EqDecision exn.
Proof. solve_decision. Defined.

(** ** The monad of the Python code: state and exceptions *)

Inductive result (A : Type) :=
  | Done (a : A) (st : state)
  | Raised (e : exn) (st : state).
Arguments Done {A} a st.
Arguments Raised {A} e st.

Definition M (A : Type) : Type := state -> result A.

Definition ret {A} (a : A) : M A := fun st => Done a st.

Definition bind {A B} (m : M A) (k : A -> M B) : M B :=
  fun st =>
    match m st with
    | Done a st' => k a st'
    | Raised e st' => Raised e st'
    end.

Notation "'let*' x := m 'in' k" := (bind m (fun x => k))
  (at level 10, x name, m at level 100, k at level 200, only parsing).
Notation "m ;;; k" := (bind m (fun _ => k))
  (at level 100, k at level 200, right associativity, only parsing).

Definition raise {A} (e : exn) : M A := fun st => Raised e st.

(** [try: m  except <the exceptions h takes> as e: h e] *)
Definition try_except {A} (m : M A) (h : exn -> option (M A)) : M A :=
  fun st =>
    match m st with
    | Done a st' => Done a st'
    | Raised e st' =>
        match h e with
        | Some k => k st'
        | None => Raised e st'
        end
    end.

Definition gets {A} (f : tree -> A) : M A := fun st => Done (f (files st)) st.

Definition put_files (fs : tree) : M unit :=
  fun st => Done tt (State fs (dir_size st) (trace st)).

Definition record (ev : event) : M unit :=
  fun st => Done tt (State (files st) (dir_size st) (trace st ++ [ev])).

Definition logging (m : message) : M unit := record (Logged m).

Definition count (o : operation) : M unit := record (Called o).

(** [for x in l: body x] *)
Fixpoint for_each {A} (l : list A) (body : A -> M unit) : M unit :=
  match l with
  | [] => ret tt
  | x :: l' => body x ;;; for_each l' body
  end.

(** The state a computation stops in, however it stops. *)
Definition final {A} (r : result A) : state :=
  match r with Done _ st => st | Raised _ st => st end.

(** ** The library calls *)

(** [Path.exists] *)
Definition path_exists (p : path) : M bool :=
  gets (fun fs => bool_decide (is_Some (fs !! p))).

(** [Path.is_dir], [os.path.isdir] *)
Definition is_dir (p : path) : M bool :=
  gets (fun fs => bool_decide (fs !! p = Some Dir)).

(** [Path.stat().st_size] *)
Definition st_size (p : path) : M Z :=
  fun st =>
    match files st !! p with
    | Some (File content _) => Done (Z.of_nat (length content)) st
    | Some Dir => Done (dir_size st p) st
    | None => Raised FileNotFoundError st
    end.

(** The entries of the directory [p] in the tree: names, and whether each
    is a directory. *)
Definition children (fs : tree) (p : path) : list (string * bool) :=
  omap (fun qe : path * entry =>
          match fst qe with
          | name :: parent =>
              if decide (parent = p)
              then Some (name, bool_decide (snd qe = Dir))
              else None
          | [] => None
          end)
       (map_to_list fs).

(** [list(os.scandir(p))] *)
Definition scandir (p : path) : M (list (string * bool)) :=
  fun st =>
    match files st !! p with
    | Some Dir => Done (children (files st) p) st
    | Some (File _ _) => Raised NotADirectoryError st
    | None => Raised FileNotFoundError st
    end.

(** [os.mkdir] *)
Definition os_mkdir (p : path) : M unit :=
  count (Mkdir p) ;;;
  fun st =>
    match files st !! p with
    | Some _ => Raised FileExistsError st
    | None =>
        match p with
        | [] => put_files (<[p := Dir]> (files st)) st
        | _ :: parent =>
            match files st !! parent with
            | Some Dir => put_files (<[p := Dir]> (files st)) st
            | Some (File _ _) => Raised NotADirectoryError st
            | None => Raised FileNotFoundError st
            end
        end
    end.

(** [Path.mkdir(parents=False, exist_ok=exist_ok)]: [os.mkdir], and an
    [OSError] is let through unless the directory is there and [exist_ok]. *)
Definition mkdir_plain (exist_ok : bool) (p : path) : M unit :=
  try_except (os_mkdir p)
    (fun e =>
       match e with
       | FileNotFoundError => None
       | _ =>
           Some (let* d := is_dir p in
                 if negb exist_ok || negb d then raise e else ret tt)
       end).

(** [Path.mkdir(parents=True, exist_ok=exist_ok)]: when [os.mkdir] finds no
    parent, the parent is made first (with [exist_ok=True]) and the
    directory then. *)
Fixpoint mkdir_parents (exist_ok : bool) (p : path) : M unit :=
  try_except (os_mkdir p)
    (fun e =>
       match e with
       | FileNotFoundError =>
           match p with
           | [] => None
           | _ :: parent =>
               Some (mkdir_parents true parent ;;; mkdir_plain exist_ok p)
           end
       | _ =>
           Some (let* d := is_dir p in
                 if negb exist_ok || negb d then raise e else ret tt)
       end).

(** [open(p, "rb")] and reading: the bytes of the file. *)
Definition open_rb (p : path) : M (list byte) :=
  fun st =>
    match files st !! p with
    | Some (File content true) => Done content st
    | Some (File _ false) => Raised PermissionError st
    | Some Dir => Raised IsADirectoryError st
    | None => Raised FileNotFoundError st
    end.

(** [open(p, "wb")], writing [content] and closing; the mode bits are set
    with it, as [copystat] does right after. *)
Definition write_file (p : path) (content : list byte) (readable : bool)
  : M unit :=
  fun st =>
    match files st !! p with
    | Some Dir => Raised IsADirectoryError st
    | Some (File _ _) => put_files (<[p := File content readable]> (files st)) st
    | None =>
        match p with
        | [] => Raised FileNotFoundError st
        | _ :: parent =>
            match files st !! parent with
            | Some Dir =>
                put_files (<[p := File content readable]> (files st)) st
            | Some (File _ _) => Raised NotADirectoryError st
            | None => Raised FileNotFoundError st
            end
        end
    end.

Definition basename (p : path) : string :=
  match p with name :: _ => name | [] => EmptyString end.

(** [shutil.copy2(src, dst)]: a directory as [dst] means the file of the
    same name in it. *)
Definition copy2 (src dst : path) : M unit :=
  count (Copy src dst) ;;;
  let* d := is_dir dst in
  let dst := if d then basename src :: dst else dst in
  if decide (src = dst) then raise SameFileError
  else
    let* content := open_rb src in
    write_file dst content true.

(** [shutil.rmtree(p)] *)
Definition rmtree (p : path) : M unit :=
  count (Rmtree p) ;;;
  fun st =>
    match files st !! p with
    | Some Dir =>
        put_files
          (filter (fun qe : path * entry => ~ suffix p (fst qe)) (files st)) st
    | Some (File _ _) => Raised NotADirectoryError st
    | None => Raised FileNotFoundError st
    end.

(** [Path.unlink()] *)
Definition unlink (p : path) : M unit :=
  count (Unlink p) ;;;
  fun st =>
    match files st !! p with
    | Some (File _ _) => put_files (delete p (files st)) st
    | Some Dir => Raised IsADirectoryError st
    | None => Raised FileNotFoundError st
    end.

(** [Path.relative_to]: [item] without the [root] it ends in. *)
Definition relative_to (item root : path) : M path :=
  let n := (length item - length root)%nat in
  if decide (drop n item = root) then ret (take n item) else raise ValueError.

(** What [iter(lambda: f.read(4096), b"")] yields on a file holding [data]:
    its bytes, 4096 at a time.  [fuel] bounds the number of reads. *)
Fixpoint read_chunks (fuel : nat) (data : list byte) : list (list byte) :=
  match fuel with
  | O => []
  | S fuel' =>
      match data with
      | [] => []
      | _ => take 4096 data :: read_chunks fuel' (drop 4096 data)
      end
  end.

(** [hashlib.md5()], [update], [hexdigest]: the object holds what it was
    fed. *)
Definition md5_new : list byte := [].
Definition md5_update (h chunk : list byte) : list byte := h ++ chunk.
Definition md5_hexdigest (h : list byte) : string := MD5.hexdigest h.

(** What [Path.rglob("*")] does between the items it yields (pathlib's
    [_RecursiveWildcardSelector] over [_WildcardSelector]): a directory is
    scanned and each of its entries is yielded, which runs the body of the
    [for] loop on it; only then is the directory scanned again, for the
    sub-directories to go into.  The generator is lazy, so each scan sees
    what the bodies run so far have left.  [fuel] bounds the depth of the
    recursion; running out of it is Python's [RecursionError]. *)
Fixpoint iterate_directories (fuel : nat) (body : path -> M unit)
    (parent_path : path) : M unit :=
  match fuel with
  | O => raise RecursionError
  | S fuel' =>
      let* entries := scandir parent_path in
      for_each entries (fun entry => body (fst entry :: parent_path)) ;;;
      let* entries := scandir parent_path in
      for_each entries
        (fun entry =>
           if snd entry
           then iterate_directories fuel' body (fst entry :: parent_path)
           else ret tt)
  end.

(** [for item in root.rglob("*"): body item]; nothing is yielded when
    [root] is not a directory. *)
Definition rglob (fuel : nat) (root : path) (body : path -> M unit)
  : M unit :=
  let* d := is_dir root in
  if d then iterate_directories fuel body root else ret tt.

(** Fuel that is enough for any walk of the tree: one more than the length
    of its longest path. *)
Definition depth (fs : tree) : nat :=
  S (max_list ((fun qe : path * entry => length (fst qe)) <$> map_to_list fs)).

(** ** The program *)

Definition setup_logging (log_file_path : path) : M unit := ret tt.

Definition calculate_md5 (file_path : path) : M (option string) :=
  count (Hash file_path) ;;;
  let hash_md5 := md5_new in
  try_except
    (let* f := open_rb file_path in
     let hash_md5 :=
       fold_left md5_update (read_chunks (S (length f)) f) hash_md5 in
     ret (Some (md5_hexdigest hash_md5)))
    (fun e =>
       if is_OSError e
       then Some (logging (ErrorCalculatingMD5 file_path e) ;;; ret None)
       else None).

(** The body of the first loop of [sync_directories]. *)
Definition sync_item (source_path replica_path item : path) : M unit :=
  let* relative_path := relative_to item source_path in
  let replica_item := relative_path ++ replica_path in
  let* d := is_dir item in
  if d then
    let* e := path_exists replica_item in
    if negb e then
      mkdir_parents false replica_item ;;;
      logging (CreatedDirectory replica_item)
    else ret tt
  else
    let* e := path_exists replica_item in
    if negb e then
      copy2 item replica_item ;;;
      logging (CopiedFile replica_item)
    else
      let* source_size := st_size item in
      let* replica_size := st_size replica_item in
      if decide (source_size = replica_size) then
        let* source_md5 := calculate_md5 item in
        let* replica_md5 := calculate_md5 replica_item in
        if decide (source_md5 <> replica_md5) then
          copy2 item replica_item ;;;
          logging (UpdatedFile replica_item)
        else ret tt
      else
        copy2 item replica_item ;;;
        logging (UpdatedFileSizeChange replica_item).

(** The body of the second loop of [sync_directories]. *)
Definition remove_item (source_path replica_path item : path) : M unit :=
  let* relative_path := relative_to item replica_path in
  let source_item := relative_path ++ source_path in
  let* e := path_exists source_item in
  if negb e then
    let* d := is_dir item in
    if d then
      rmtree item ;;;
      logging (DeletedDirectory item)
    else
      unlink item ;;;
      logging (DeletedFile item)
  else ret tt.

Definition sync_directories (source_folder replica_folder : path) : M unit :=
  let source_path := source_folder in
  let replica_path := replica_folder in
  let* e := path_exists replica_path in
  (if negb e then
     mkdir_parents false replica_path ;;;
     logging (CreatedReplicaDirectory replica_folder)
   else ret tt) ;;;
  let* fuel := gets depth in
  rglob fuel source_path (sync_item source_path replica_path) ;;;
  let* fuel := gets depth in
  rglob fuel replica_path (remove_item source_path replica_path).

(** What happens during one [time.sleep]: the sleep ends, the rest of the
    world having edited the tree meanwhile, or the operator interrupts. *)
Inductive tick :=
  | Sleeps (edit : tree -> tree)
  | Interrupt.

Definition time_sleep (t : tick) : M unit :=
  match t with
  | Sleeps edit => fun st => put_files (edit (files st)) st
  | Interrupt => raise KeyboardInterrupt
  end.

(** [main] has returned, or is still in its loop when the schedule of
    ticks that is looked at ends. *)
Inductive status := Returned | Looping.

(** [while True: sync_directories(...); logging.info(...); time.sleep(...)] *)
Fixpoint while_true (schedule : list tick) (source_folder replica_folder : path)
  : M status :=
  sync_directories source_folder replica_folder ;;;
  logging SynchronizationComplete ;;;
  match schedule with
  | [] => ret Looping
  | t :: schedule' =>
      time_sleep t ;;;
      while_true schedule' source_folder replica_folder
  end.

Definition main (source_folder replica_folder : path) (sync_interval : Z)
    (log_file_path : path) (schedule : list tick) : M status :=
  setup_logging log_file_path ;;;
  logging (Starting source_folder replica_folder) ;;;
  logging (Interval sync_interval) ;;;
  try_except (while_true schedule source_folder replica_folder)
    (fun e =>
       match e with
       | KeyboardInterrupt => Some (logging InterruptedByUser ;;; ret Returned)
       | _ =>
           if is_Exception e
           then Some (logging (ErrorDuringSynchronization e) ;;; ret Returned)
           else None
       end).

(** The script under [if __name__ == "__main__"], after the arguments are
    parsed. *)
Definition __main__ (source_folder replica_folder : path) (sync_interval : Z)
    (log_file_path : path) (schedule : list tick) : M status :=
  let* d := is_dir source_folder in
  if negb d then raise ValueError
  else
    let* d := is_dir replica_folder in
    (if negb d then logging (ReplicaWillBeCreated replica_folder)
     else ret tt) ;;;
    main source_folder replica_folder sync_interval log_file_path schedule.

(** ** The vocabulary of the specification *)

(** In a well-formed tree every entry sits in a directory. *)
Definition wf (fs : tree) : Prop :=
  map_Forall
    (fun (q : path) (_ : entry) =>
       match q with
       | [] => True
       | _ :: parent => fs !! parent = Some Dir
       end)
    fs.

(** [x] is strictly below [p]. *)
Definition sbelow (p x : path) : Prop := suffix p x /\ x <> p.

(** Two roots of which neither is the other or inside the other. *)
Definition unrelated (a b : path) : Prop := ~ suffix a b /\ ~ suffix b a.

(** The path that corresponds, under the root [to], to [x] under the root
    [from]: what [to / x.relative_to(from)] is. *)
Definition twin (from to x : path) : path :=
  take (length x - length from) x ++ to.

(** No type mismatch: whatever exists on both sides at corresponding paths
    is a file on both or a directory on both. *)
Definition compatible (fs : tree) (source replica : path) : Prop :=
  map_Forall
    (fun (x : path) (e : entry) =>
       suffix source x ->
       match fs !! twin source replica x with
       | Some e' => kind_of e = kind_of e'
       | None => True
       end)
    fs.

(** What [calculate_md5] returns on a file: no digest when it cannot be
    read. *)
Definition digest_of (content : list byte) (readable : bool) : option string :=
  if readable then Some (MD5.hexdigest content) else None.

(** What the first loop leaves at a replica path where it finds [old], when
    the source has [e] at the corresponding path; [None] when the copy it
    makes fails.  (A file against a directory is a type mismatch.) *)
Definition settle (e : entry) (old : option entry) : option entry :=
  match e, old with
  | Dir, None => Some Dir
  | Dir, Some e' => Some e'
  | File c r, None => if r then Some (File c true) else None
  | File c r, Some (File c' r') =>
      if decide (length c = length c' /\ digest_of c r = digest_of c' r')
      then Some (File c' r')
      else if r then Some (File c true) else None
  | File c r, Some Dir => None
  end.

(** The events of [calculate_md5] on a file. *)
Definition hash_events (p : path) (readable : bool) : list event :=
  Called (Hash p) ::
  (if readable then [] else [Logged (ErrorCalculatingMD5 p PermissionError)]).

(** The events of a copy and the message logged after it, if it succeeds. *)
Definition copy_events (src dst : path) (readable : bool) (m : message)
  : list event :=
  Called (Copy src dst) :: (if readable then [Logged m] else []).

(** The events of the body of the first loop on [item], with [e] there and
    [old] at the replica path [dst]. *)
Definition item_events (item dst : path) (e : entry) (old : option entry)
  : list event :=
  match e, old with
  | Dir, None => [Called (Mkdir dst); Logged (CreatedDirectory dst)]
  | Dir, Some _ => []
  | File c r, None => copy_events item dst r (CopiedFile dst)
  | File c r, Some (File c' r') =>
      if decide (length c = length c') then
        hash_events item r ++ hash_events dst r' ++
        (if decide (digest_of c r = digest_of c' r') then []
         else copy_events item dst r (UpdatedFile dst))
      else copy_events item dst r (UpdatedFileSizeChange dst)
  | File c r, Some Dir => []
  end.

(** The events of the body of the second loop when it removes [item]. *)
Definition removal_events (item : path) (e : entry) : list event :=
  match e with
  | Dir => [Called (Rmtree item); Logged (DeletedDirectory item)]
  | File _ _ => [Called (Unlink item); Logged (DeletedFile item)]
  end.

(** The state with other files and more events. *)
Definition update (st : state) (fs : tree) (evs : list event) : state :=
  State fs (dir_size st) (trace st ++ evs).

(** The source has the entry that corresponds to the replica path [x]. *)
Definition kept (fs : tree) (source replica x : path) : Prop :=
  is_Some (fs !! twin replica source x).

(** An event of the second loop removing an entry of the tree [fs] that the
    source lacks, all directories above it (under the replica root) being
    ones the source has. *)
Definition removal (fs : tree) (source replica : path) (ev : event) : Prop :=
  exists x e,
    ev ∈ removal_events x e /\ fs !! x = Some e /\ sbelow replica x /\
    ~ kept fs source replica x /\
    forall y, sbelow replica y -> sbelow y x -> kept fs source replica y.

(** What the first loop leaves at the replica path [y] of the tree [fs]. *)
Definition settled (fs : tree) (source replica y : path) : option entry :=
  match fs !! twin replica source y with
  | Some e =>
      match settle e (fs !! y) with
      | Some e' => Some e'
      | None => fs !! y
      end
  | None => fs !! y
  end.

(** The copy that the first loop makes of the source entry [x], if it makes
    one, succeeds. *)
Definition copies (fs : tree) (source replica x : path) : Prop :=
  match fs !! x with
  | Some e => is_Some (settle e (fs !! twin source replica x))
  | None => True
  end.

(** An event of the body of the first loop on an entry of the source. *)
Definition produced (fs : tree) (source replica : path) (ev : event) : Prop :=
  exists x e,
    sbelow source x /\ fs !! x = Some e /\
    ev ∈ item_events x (twin source replica x) e
           (fs !! twin source replica x).

(** The three parts of [sync_directories], as its comments name them. *)
Definition ensure_replica (replica_path : path) : M unit :=
  let* e := path_exists replica_path in
  if negb e then
    mkdir_parents false replica_path ;;;
    logging (CreatedReplicaDirectory replica_path)
  else ret tt.

Definition sync_loop (source_path replica_path : path) : M unit :=
  let* fuel := gets depth in
  rglob fuel source_path (sync_item source_path replica_path).

Definition remove_loop (source_path replica_path : path) : M unit :=
  let* fuel := gets depth in
  rglob fuel replica_path (remove_item source_path replica_path).

(** The tree with the directory [p] and the directories above it that it
    lacks. *)
Fixpoint with_dirs (p : path) (fs : tree) : tree :=
  match fs !! p with
  | Some _ => fs
  | None =>
      <[p := Dir]> (match p with [] => fs | _ :: parent => with_dirs parent fs end)
  end.

(** Every path down to [p] that exists is a directory, so that [p] can be
    made with its parents. *)
Definition creatable (fs : tree) (p : path) : Prop :=
  forall q, suffix q p -> fs !! q = None \/ fs !! q = Some Dir.

(** [p] and the directories above it, up to the root of the file system. *)
Fixpoint upward (p : path) : list path :=
  p :: match p with [] => [] | _ :: parent => upward parent end.

(** Every file of the source that cannot be read has in the replica a file
    of its size that cannot be read either. *)
Definition unreadable_twins (fs : tree) (source replica : path) : Prop :=
  map_Forall
    (fun (x : path) (e : entry) =>
       sbelow source x ->
       match e with
       | File c false =>
           match fs !! twin source replica x with
           | Some (File c' false) => length c' = length c
           | _ => False
           end
       | _ => True
       end)
    fs.

(** A relation that every run of [m] is in, from the state it starts in to
    the state it stops in. *)
Definition steps {A} (rel : relation state) (m : M A) : Prop :=
  forall st, rel st (final (m st)).

(** The events of making the replica root: calls of [os.mkdir] on it and
    the directories above it, and the message. *)
Definition makes (p : path) (ev : event) : Prop :=
  exists q, ev = Called (Mkdir q) /\ suffix q p.

Definition mkdir_event (p : path) (ev : event) : Prop :=
  makes p ev \/ ev = Logged (CreatedReplicaDirectory p).

(** The events of a pass on the tree [fs]. *)
Definition pass_event (fs : tree) (source replica : path) (ev : event) : Prop :=
  (fs !! replica = None /\ mkdir_event replica ev) \/
  produced fs source replica ev \/ removal fs source replica ev.

(** An event of removing something. *)
Definition deletion (ev : event) : Prop :=
  match ev with
  | Called (Rmtree _) | Called (Unlink _)
  | Logged (DeletedDirectory _) | Logged (DeletedFile _) => True
  | _ => False
  end.

(** An event of removing something strictly below [root]. *)
Definition deletion_below (root : path) (ev : event) : Prop :=
  exists x, sbelow root x /\
    (ev = Called (Rmtree x) \/ ev = Called (Unlink x) \/
     ev = Logged (DeletedDirectory x) \/ ev = Logged (DeletedFile x)).

(** Every entry of the first state that is not strictly below [root] is in
    the second, as a file or as a directory as it was. *)
Definition keeps_outside (root : path) : relation state :=
  fun st st' =>
    forall x e, ~ sbelow root x -> files st !! x = Some e ->
      exists e', files st' !! x = Some e' /\ kind_of e' = kind_of e.

(** The second state has the events of the first and more, all in [ok]. *)
Definition appends (ok : event -> Prop) : relation state :=
  fun st st' => exists evs, trace st' = trace st ++ evs /\ Forall ok evs.

(** The source has the entries that correspond to [y] and to the
    directories above it under the replica root. *)
Definition guarded (source replica : path) (fs : tree) (y : path) : Prop :=
  forall q, suffix q y -> sbelow replica q ->
    is_Some (fs !! twin replica source q).

(** Every guarded entry of the first state is in the second, as a file or
    as a directory as it was. *)
Definition keeps_guarded (source replica : path) : relation state :=
  fun st st' =>
    forall y e, files st !! y = Some e ->
      guarded source replica (files st) y ->
      exists e', files st' !! y = Some e' /\ kind_of e' = kind_of e.

(** An event that, if it removes something, removes it strictly below
    [root]. *)
Definition removes_below (root : path) (ev : event) : Prop :=
  deletion ev -> deletion_below root ev.

(** Two entries at corresponding paths that the pass takes for the same:
    nothing on both sides, a directory on both, or files of the same size
    and the same MD5 digest. *)
Definition same_entry (a b : option entry) : Prop :=
  match a, b with
  | None, None => True
  | Some Dir, Some Dir => True
  | Some (File c _), Some (File c' _) =>
      length c = length c' /\ MD5.hexdigest c = MD5.hexdigest c'
  | _, _ => False
  end.

(** An event that changes nothing in the tree: reading a file for its
    digest, and the error logged when that fails. *)
Definition quiet (ev : event) : Prop :=
  match ev with
  | Called o => mutation o = false
  | Logged (ErrorCalculatingMD5 _ _) => True
  | Logged _ => False
  end.

(** ** More vocabulary: what the program does at a file, and in [main] *)


(** The state in which [main] enters its loop. *)
Definition started (S R : path) (interval : Z) (st : state) : state :=
  update st (files st) [Logged (Starting S R); Logged (Interval interval)].

(** What [main] logs when it catches [e]. *)
Definition last_words (e : exn) : message :=
  match e with
  | KeyboardInterrupt => InterruptedByUser
  | _ => ErrorDuringSynchronization e
  end.

(** ** More vocabulary, for what the code does besides *)

(** Every entry of the first state that is not strictly below [root] is in
    the second as it is. *)
Definition untouched_outside (root : path) : relation state :=
  fun st st' =>
    forall x e, ~ sbelow root x -> files st !! x = Some e ->
      files st' !! x = Some e.

(** Nothing is strictly below [root]: it is an empty directory, or no
    directory at all. *)
Definition bare (fs : tree) (root : path) : Prop :=
  map_Forall (fun (x : path) (_ : entry) => ~ sbelow root x) fs.

(** Every file strictly below [root] can be read. *)
Definition all_readable (fs : tree) (root : path) : Prop :=
  map_Forall
    (fun (x : path) (e : entry) =>
       sbelow root x ->
       match e with File _ r => r = true | Dir => True end)
    fs.

(** The replica holds below its root what the source holds below its own,
    entry by entry. *)
Definition mirrored (fs : tree) (source replica : path) : Prop :=
  map_Forall
    (fun (x : path) (e : entry) =>
       (sbelow source x -> fs !! twin source replica x = Some e) /\
       (sbelow replica x -> fs !! twin replica source x = Some e))
    fs.

(** The paths that [rglob] yields on a tree that the loop body leaves
    alone, in order: the entries of a directory, and then what is in each of
    its sub-directories.  [fuel] bounds the depth, as in
    [iterate_directories]. *)
Fixpoint listing (fs : tree) (fuel : nat) (p : path) : list path :=
  match fuel with
  | O => []
  | S fuel' =>
      let entries := children fs p in
      ((fun entry : string * bool => fst entry :: p) <$> entries) ++
      (entries ≫= fun entry : string * bool =>
         if snd entry then listing fs fuel' (fst entry :: p) else [])
  end.

(** [x] comes before [y] in the list [l]. *)
Definition before {A} (l : list A) (x y : A) : Prop :=
  exists l1 l2 l3, l = l1 ++ x :: l2 ++ y :: l3.

(** What the first loop does at [item] when the replica is the source
    itself: a file is read twice for its digest. *)
Definition self_events (fs : tree) (item : path) : list event :=
  match fs !! item with
  | Some (File _ r) => hash_events item r ++ hash_events item r
  | _ => []
  end.

(** ** What can be decided by evaluation *)

#[global] Instance wf_dec fs : Decision (wf fs).
Proof. unfold wf. apply map_Forall_dec. intros [|??] ?; apply _. Defined.
#[global] Instance sbelow_dec p x : Decision (sbelow p x).
Proof. unfold sbelow. apply _. Defined.
#[global] Instance unrelated_dec a b : Decision (unrelated a b).
Proof. unfold unrelated. apply _. Defined.
#[global] Instance compatible_dec fs s r : Decision (compatible fs s r).
Proof.
  unfold compatible. apply map_Forall_dec. intros x e.
  destruct (fs !! twin s r x); apply _.
Defined.

#[global] Instance unreadable_twins_dec fs s r : Decision (unreadable_twins fs s r).
Proof.
  unfold unreadable_twins. apply map_Forall_dec. intros x [c [|]|]; try apply _.
  destruct (fs !! twin s r x) as [[c' [|]|]|]; apply _.
Defined.

#[global] Instance copies_dec fs s r x : Decision (copies fs s r x).
Proof. unfold copies. destruct (fs !! x); apply _. Defined.

#[global] Instance bare_dec fs root : Decision (bare fs root).
Proof. unfold bare. apply map_Forall_dec. intros x e. apply _. Defined.

#[global] Instance all_readable_dec fs root : Decision (all_readable fs root).
Proof.
  unfold all_readable. apply map_Forall_dec. intros x [c r|]; apply _.
Defined.

#[global] Instance mirrored_dec fs s r : Decision (mirrored fs s r).
Proof. unfold mirrored. apply map_Forall_dec. intros x e. apply _. Defined.

(** ** Trees for the examples *)

(** A state with the entries [l], directories of 4096 bytes and nothing
    done yet. *)
Definition world (l : list (path * entry)) : state :=
  State (list_to_map l) (fun _ => 4096) [].

Definition text (s : string) : list byte := list_byte_of_string s.

Definition src : path := ["src"%string].
Definition rep : path := ["rep"%string].

(** Two messages of 128 bytes with the same MD5 digest (Wang and Yu,
    2005). *)
Definition collision_a : list byte :=
  unhex ("d131dd02c5e6eec4693d9a0698aff95c2fcab58712467eab4004583eb8fb7f89" ++
         "55ad340609f4b30283e488832571415a085125e8f7cdc99fd91dbdf280373c5b" ++
         "d8823e3156348f5bae6dacd436c919c6dd53e2b487da03fd02396306d248cda0" ++
         "e99f33420f577ee8ce54b67080a80d1ec69821bcb6a8839396f9652b6ff72a70").

Definition collision_b : list byte :=
  unhex ("d131dd02c5e6eec4693d9a0698aff95c2fcab50712467eab4004583eb8fb7f89" ++
         "55ad340609f4b30283e4888325f1415a085125e8f7cdc99fd91dbd7280373c5b" ++
         "d8823e3156348f5bae6dacd436c919c6dd53e23487da03fd02396306d248cda0" ++
         "e99f33420f577ee8ce54b67080280d1ec69821bcb6a8839396f965ab6ff72a70").

(** The source and the replica hold the two colliding messages under the
    same name. *)
Definition collision_world : state :=
  world [([], Dir); (src, Dir); (rep, Dir);
         ("f" :: src, File collision_a true);
         ("f" :: rep, File collision_b true)]%string.

(** A file of the source where the replica has a directory. *)
Definition file_over_directory : state :=
  world [([], Dir); (src, Dir); (rep, Dir);
         ("f" :: src, File (text "X") true);
         ("f" :: rep, Dir)]%string.

(** A directory of the source where the replica has a file. *)
Definition directory_over_file : state :=
  world [([], Dir); (src, Dir); (rep, Dir);
         ("d" :: src, Dir);
         ("d" :: rep, File (text "X") true)]%string.




(** A replica that is behind the source: a file changed in place, a
    directory and a file in it that are new, and entries that the source
    no longer has. *)
Definition behind : state :=
  world [([], Dir); (src, Dir); (rep, Dir);
         ("a" :: src, File (text "hello") true);
         ("a" :: rep, File (text "HELLO") true);
         ("c" :: src, File (text "longer now") true);
         ("c" :: rep, File (text "short") true);
         ("k" :: src, File (text "kept") true);
         ("k" :: rep, File (text "kept") true);
         ("d" :: src, Dir);
         ("b" :: "d" :: src, File (text "deep") true);
         ("old" :: rep, Dir);
         ("x" :: "old" :: rep, File (text "x") true);
         ("stale" :: rep, File [] true)]%string.

(** A source, and no replica nor the directory the replica is to be in. *)
Definition no_replica : state :=
  world [([], Dir); (src, Dir); ("a" :: src, File (text "hello") true)]%string.

Definition far_replica : path := ["rep"; "backups"; "mnt"]%string.

(** A source with nothing in it, and a replica that still has entries. *)
Definition empty_source : state :=
  world [([], Dir); (src, Dir); (rep, Dir);
         ("a" :: rep, File (text "hello") true);
         ("d" :: rep, Dir);
         ("b" :: "d" :: rep, File (text "deep") false)]%string.

(** A replica that holds what the source holds, a file that cannot be read
    included. *)
Definition in_sync : state :=
  world [([], Dir); (src, Dir); (rep, Dir);
         ("a" :: src, File (text "hello") true);
         ("a" :: rep, File (text "hello") true);
         ("s" :: src, File (text "secret") false);
         ("s" :: rep, File (text "secret") false);
         ("d" :: src, Dir); ("d" :: rep, Dir);
         ("b" :: "d" :: src, File (text "deep") true);
         ("b" :: "d" :: rep, File (text "deep") true)]%string.

(** A file where a directory above the replica root is to be. *)
Definition blocked : state :=
  world [([], Dir); (src, Dir); (["mnt"], File (text "x") true);
         ("a" :: src, File (text "hello") true)]%string.

(** A replica root that is a file. *)
Definition replica_is_file : state :=
  world [([], Dir); (src, Dir); (rep, File (text "x") true);
         ("a" :: src, File (text "hello") true)]%string.

(** * The proofs *)

Lemma suffix_cons_case {A} (x : list A) n p :
  suffix x (n :: p) -> x = n :: p \/ suffix x p.
Proof.
  destruct x as [|m x]; [right; apply suffix_nil|]. apply suffix_cons_inv.
Qed.

Lemma elem_of_upward (q p : path) : q ∈ upward p <-> suffix q p.
Proof.
  induction p as [|n p IH]; cbn [upward].
  - rewrite list_elem_of_singleton. split; [intros ->; done|].
    intros H. by apply suffix_nil_inv in H.
  - rewrite elem_of_cons, IH. split.
    + intros [->|H]; [done|]. by apply suffix_cons_r.
    + intros H. apply suffix_cons_case in H. tauto.
Qed.

Lemma creatable_upward (fs : tree) (p : path) :
  creatable fs p <->
  Forall (fun q => fs !! q = None \/ fs !! q = Some Dir) (upward p).
Proof.
  unfold creatable. rewrite Forall_forall.
  split; intros H q Hq; apply H; by apply elem_of_upward.
Qed.

#[global] Instance creatable_dec fs p : Decision (creatable fs p).
Proof.
  refine (cast_if (decide (Forall (fun q => fs !! q = None \/ fs !! q = Some Dir)
                             (upward p))));
    by rewrite creatable_upward.
Defined.

(** *** Paths *)

Lemma wf_parent fs n p :
  wf fs -> is_Some (fs !! (n :: p)) -> fs !! p = Some Dir.
Proof. intros Hwf [e He]. exact (Hwf _ _ He). Qed.

Lemma wf_below fs p x :
  wf fs -> suffix p x -> is_Some (fs !! x) -> is_Some (fs !! p).
Proof.
  intros Hwf [k ->]. induction k as [|n k IH]; simpl; [done|].
  intros H. apply IH. rewrite (wf_parent _ _ _ Hwf H). eauto.
Qed.

Lemma wf_sbelow_dir fs p x :
  wf fs -> sbelow p x -> is_Some (fs !! x) -> fs !! p = Some Dir.
Proof.
  intros Hwf [[k ->] Hne]. destruct k as [|n k] using rev_ind; [done|].
  rewrite <- app_assoc. simpl. intros H.
  eapply wf_parent; [done|]. eapply wf_below; [done| |exact H].
  by apply suffix_app_r.
Qed.

Lemma suffix_cons_same {A} (n m : A) (p x : list A) :
  suffix (n :: p) x -> suffix (m :: p) x -> n = m.
Proof.
  intros H1 H2.
  destruct (suffix_weak_total _ _ _ H1 H2) as [H|H];
    apply suffix_length_eq in H; simpl; try lia; congruence.
Qed.

Lemma sbelow_child {A} (p x : list A) :
  suffix p x -> x <> p -> exists n, suffix (n :: p) x.
Proof.
  intros [k ->] Hne. destruct k as [|n k] using rev_ind; [done|].
  exists n. rewrite <- app_assoc. by apply suffix_app_r.
Qed.

Lemma suffix_cons_sbelow (n : string) (p x : path) :
  suffix (n :: p) x -> sbelow p x.
Proof.
  intros H. split.
  - by eapply suffix_cons_l.
  - intros ->. by apply suffix_cons_not in H.
Qed.

Lemma not_suffix_cons_self {A} (n : A) (p q : list A) :
  suffix p q -> ~ suffix (n :: q) p.
Proof.
  intros H1 H2. apply suffix_length in H1, H2. simpl in *. lia.
Qed.

Lemma twin_app (from to rel : path) : twin from to (rel ++ from) = rel ++ to.
Proof.
  unfold twin. rewrite length_app.
  replace (length rel + length from - length from)%nat with (length rel) by lia.
  by rewrite take_app_length.
Qed.

Lemma twin_cons (from to : path) n x :
  suffix from x -> twin from to (n :: x) = n :: twin from to x.
Proof.
  intros [k ->]. change (n :: k ++ from) with ((n :: k) ++ from).
  by rewrite !twin_app.
Qed.

Lemma twin_self (from to : path) : twin from to from = to.
Proof. apply (twin_app from to []). Qed.

Lemma twin_twin (a b x : path) : suffix a x -> twin b a (twin a b x) = x.
Proof. intros [k ->]. by rewrite !twin_app. Qed.

Lemma twin_suffix (a b p x : path) :
  suffix a p -> suffix p x -> suffix (twin a b p) (twin a b x).
Proof.
  intros [k ->] [k' ->]. rewrite app_assoc, !twin_app, <- app_assoc.
  by apply suffix_app_r.
Qed.

Lemma suffix_twin (a b x : path) : suffix a x -> suffix b (twin a b x).
Proof. intros [k ->]. rewrite twin_app. by apply suffix_app_r. Qed.

Lemma sbelow_app_root (k root x : path) : sbelow (k ++ root) x -> sbelow root x.
Proof.
  intros [Hs Hne]. split.
  - etrans; [|exact Hs]. by apply suffix_app_r.
  - intros ->. apply Hne. apply (anti_symm suffix); [by apply suffix_app_r|done].
Qed.

Lemma sbelow_cons_app n k (root : path) : sbelow (k ++ root) ((n :: k) ++ root).
Proof.
  split; [by apply suffix_cons_r|]. intros H. apply (f_equal length) in H.
  rewrite !length_app in H. simpl in H. lia.
Qed.

Lemma sbelow_trans (p q x : path) : sbelow p q -> suffix q x -> sbelow p x.
Proof.
  intros [H1 H2] H3. split; [by etrans|]. intros ->. apply H2.
  by apply (anti_symm suffix).
Qed.

Lemma sbelow_length (p x : path) : sbelow p x -> (length p < length x)%nat.
Proof.
  intros [Hs Hne]. pose proof (suffix_length _ _ Hs).
  destruct (decide (length x <= length p)%nat); [|lia].
  destruct Hne. symmetry. by apply suffix_length_eq.
Qed.

Lemma sbelow_same_child n m (p x : path) :
  sbelow (n :: p) x -> sbelow (m :: p) x -> n = m.
Proof. intros [H1 _] [H2 _]. eapply suffix_cons_same; eauto. Qed.

Lemma twin_sbelow (a b p x : path) :
  suffix a p -> sbelow p x -> sbelow (twin a b p) (twin a b x).
Proof.
  intros [k ->] [[k' ->] Hne]. rewrite app_assoc, !twin_app, <- app_assoc.
  split; [by apply suffix_app_r|]. intros H. apply Hne.
  rewrite app_assoc in H. apply app_inv_tail in H.
  by rewrite app_assoc, H.
Qed.

Lemma wf_none_below (fs : tree) p x :
  wf fs -> sbelow p x -> fs !! p <> Some Dir -> fs !! x = None.
Proof.
  intros Hwf Hsb Hp. destruct (fs !! x) eqn:Hx; [|done].
  destruct Hp. eapply wf_sbelow_dir; eauto.
Qed.

Lemma unrelated_sym a b : unrelated a b -> unrelated b a.
Proof. intros [??]; by split. Qed.

(** Nothing is below both of two unrelated roots. *)
Lemma unrelated_apart (a b x : path) :
  unrelated a b -> suffix a x -> suffix b x -> False.
Proof.
  intros [H1 H2] Ha Hb. destruct (suffix_weak_total _ _ _ Ha Hb); tauto.
Qed.

Lemma relative_to_app (rel root : path) st :
  relative_to (rel ++ root) root st = Done rel st.
Proof.
  unfold relative_to. rewrite length_app.
  replace (length rel + length root - length root)%nat with (length rel) by lia.
  rewrite drop_app_length, take_app_length. by rewrite decide_True.
Qed.

Lemma relative_to_suffix (x root : path) st :
  suffix root x ->
  relative_to x root st = Done (take (length x - length root) x) st.
Proof.
  intros [k ->]. rewrite relative_to_app, length_app.
  replace (length k + length root - length root)%nat with (length k) by lia.
  by rewrite take_app_length.
Qed.

(** *** Directory listings *)

Lemma elem_of_children fs p n b :
  (n, b) ∈ children fs p <->
  exists e, fs !! (n :: p) = Some e /\ b = bool_decide (e = Dir).
Proof.
  unfold children. rewrite list_elem_of_omap. split.
  - intros [[q e] [Hin Hf]]. apply elem_of_map_to_list in Hin. simpl in Hf.
    destruct q as [|m q]; [done|].
    destruct (decide (q = p)) as [->|]; [|done]. inversion Hf; subst. eauto.
  - intros (e & He & ->). exists (n :: p, e). split.
    + by apply elem_of_map_to_list.
    + simpl. by rewrite decide_True.
Qed.

Lemma children_functional fs p n b b' :
  (n, b) ∈ children fs p -> (n, b') ∈ children fs p -> b = b'.
Proof.
  rewrite !elem_of_children. intros (e & He & ->) (e' & He' & ->).
  rewrite He in He'. by injection He' as ->.
Qed.

Lemma NoDup_children fs p : NoDup (children fs p).
Proof.
  unfold children. generalize (NoDup_fst_map_to_list fs).
  induction (map_to_list fs) as [|[q e] l IH]; simpl; [constructor|].
  intros Hnd. apply NoDup_cons in Hnd as [Hq Hnd].
  destruct q as [|m q]; simpl; [by apply IH|].
  case_decide; [|by apply IH]. subst. apply NoDup_cons. split; [|by apply IH].
  intros Hin. apply list_elem_of_omap in Hin as [[q' e'] [Hin Hf]].
  simpl in Hf. destruct q' as [|m' q']; [done|].
  destruct (decide (q' = p)) as [->|]; [|done]. inversion Hf; subst.
  apply Hq. apply list_elem_of_fmap. by exists (m :: p, e').
Qed.

Lemma depth_gt (fs : tree) (x : path) :
  is_Some (fs !! x) -> (length x < depth fs)%nat.
Proof.
  intros [e He]. unfold depth. apply Nat.lt_succ_r, max_list_elem_of_le.
  apply list_elem_of_fmap. exists (x, e). split; [done|].
  by apply elem_of_map_to_list.
Qed.

(** *** Reading a file in chunks *)

Lemma read_chunks_concat (fuel : nat) (data h : list byte) :
  (length data < fuel)%nat ->
  fold_left md5_update (read_chunks fuel data) h = h ++ data.
Proof.
  revert data h. induction fuel as [|fuel IH]; intros data h Hlt; [lia|].
  destruct data as [|b data]; cbn [read_chunks fold_left].
  - by rewrite app_nil_r.
  - rewrite IH.
    + unfold md5_update. rewrite <- app_assoc. f_equal. apply take_drop.
    + rewrite length_drop. cbn [length] in *. lia.
Qed.

Lemma calculate_md5_file st p content readable :
  files st !! p = Some (File content readable) ->
  calculate_md5 p st =
  Done (digest_of content readable) (update st (files st) (hash_events p readable)).
Proof.
  intros Hp. unfold calculate_md5, bind, count, record, try_except, open_rb.
  cbn [files dir_size trace]. rewrite Hp. destruct readable.
  - unfold ret, md5_hexdigest. rewrite read_chunks_concat by lia. done.
  - cbn [is_OSError]. unfold logging, record, bind, ret.
    unfold update. cbn [files dir_size trace hash_events digest_of].
    by rewrite <- app_assoc.
Qed.

Lemma update_nil st : update st (files st) [] = st.
Proof. destruct st. unfold update. simpl. by rewrite app_nil_r. Qed.

Lemma update_update st fs evs fs' evs' :
  update (update st fs evs) fs' evs' = update st fs' (evs ++ evs').
Proof. unfold update. simpl. by rewrite app_assoc. Qed.

Ltac mstep :=
  unfold path_exists, is_dir, logging, count;
  unfold bind, ret, raise, gets, record, put_files;
  cbn [files dir_size trace].

Lemma os_mkdir_new st n p :
  files st !! (n :: p) = None -> files st !! p = Some Dir ->
  os_mkdir (n :: p) st =
  Done tt (update st (<[n :: p := Dir]> (files st)) [Called (Mkdir (n :: p))]).
Proof. intros H1 H2. unfold os_mkdir. mstep. by rewrite H1, H2. Qed.

Lemma mkdir_parents_new exist_ok st n p :
  files st !! (n :: p) = None -> files st !! p = Some Dir ->
  mkdir_parents exist_ok (n :: p) st =
  Done tt (update st (<[n :: p := Dir]> (files st)) [Called (Mkdir (n :: p))]).
Proof.
  intros H1 H2. cbn [mkdir_parents]. unfold try_except.
  by rewrite os_mkdir_new.
Qed.

Lemma copy2_file st src dst c r :
  src <> dst ->
  files st !! src = Some (File c r) ->
  match files st !! dst with
  | Some (File _ _) => True
  | Some Dir => False
  | None => exists n p, dst = n :: p /\ files st !! p = Some Dir
  end ->
  copy2 src dst st =
  if r then
    Done tt (update st (<[dst := File c true]> (files st)) [Called (Copy src dst)])
  else Raised PermissionError (update st (files st) [Called (Copy src dst)]).
Proof.
  intros Hne Hsrc Hdst. unfold copy2. mstep.
  assert (bool_decide (files st !! dst = Some Dir) = false) as ->.
  { apply bool_decide_eq_false. intros H. by rewrite H in Hdst. }
  rewrite decide_False by done. unfold open_rb, bind. cbn [files].
  rewrite Hsrc. destruct r; [|done].
  unfold write_file. mstep.
  destruct (files st !! dst) as [[]|]; [done|done|].
  destruct Hdst as (n & p & -> & Hp). by rewrite Hp.
Qed.

Lemma update_id st fs :
  fs = files st -> update st fs [] = st.
Proof. intros ->. apply update_nil. Qed.

(** *** One run of the body of the first loop *)

Lemma sync_item_step S R rel n st e :
  S <> R ->
  files st !! ((n :: rel) ++ S) = Some e ->
  files st !! (rel ++ R) = Some Dir ->
  match files st !! ((n :: rel) ++ R) with
  | Some e' => kind_of e = kind_of e'
  | None => True
  end ->
  sync_item S R ((n :: rel) ++ S) st =
  let old := files st !! ((n :: rel) ++ R) in
  let evs := item_events ((n :: rel) ++ S) ((n :: rel) ++ R) e old in
  match settle e old with
  | Some e' => Done tt (update st (<[(n :: rel) ++ R := e']> (files st)) evs)
  | None => Raised PermissionError (update st (files st) evs)
  end.
Proof.
  intros Hne He Hparent Hkind. unfold sync_item.
  unfold bind at 1. rewrite relative_to_app.
  set (item := (n :: rel) ++ S) in *. set (dst := (n :: rel) ++ R) in *.
  assert (item <> dst) as Hid.
  { unfold item, dst. intros H. by apply app_inv_head in H. }
  mstep. rewrite He. destruct e as [c r|].
  - rewrite bool_decide_eq_false_2 by done.
    destruct (files st !! dst) as [[c' r'|]|] eqn:Hdst; [| done |].
    + rewrite bool_decide_eq_true_2 by eauto. cbn [negb].
      unfold st_size. cbn [files]. rewrite He, Hdst. cbn [settle item_events].
      destruct (decide (length c = length c')) as [Hlen|Hlen].
      * rewrite decide_True by congruence.
        rewrite (calculate_md5_file _ _ _ _ He).
        rewrite (calculate_md5_file _ dst c' r') by done.
        rewrite update_update. cbn [files update].
        destruct (decide (digest_of c r = digest_of c' r')) as [Hd|Hd].
        -- rewrite decide_False by tauto. rewrite decide_True by tauto.
           unfold update. cbn [files dir_size trace].
           rewrite insert_id by done. by rewrite app_nil_r.
        -- rewrite decide_True by done. rewrite decide_False by tauto.
           erewrite copy2_file;
             [|done|unfold update; cbn [files]; exact He
              |unfold update; cbn [files]; by rewrite Hdst].
           cbn [files dir_size trace]. destruct r; unfold update; cbn [files dir_size trace copy_events];
             by rewrite <- ?app_assoc.
      * rewrite decide_False by lia. rewrite decide_False by tauto.
        erewrite copy2_file; [|done|exact He|by rewrite Hdst].
        destruct r; unfold update; cbn [files dir_size trace copy_events];
          by rewrite <- ?app_assoc.
    + rewrite bool_decide_eq_false_2 by (by intros [??]). cbn [negb settle item_events].
      erewrite copy2_file; [|done|exact He|].
      * destruct r; unfold update; cbn [files dir_size trace copy_events];
          by rewrite <- ?app_assoc.
      * rewrite Hdst. exists n, (rel ++ R). done.
  - rewrite bool_decide_eq_true_2 by done.
    destruct (files st !! dst) as [e'|] eqn:Hdst.
    + rewrite bool_decide_eq_true_2 by eauto. cbn [negb settle item_events].
      rewrite insert_id by done. by rewrite update_nil.
    + rewrite bool_decide_eq_false_2 by (by intros [??]). cbn [negb settle item_events].
      unfold dst in *. rewrite <- app_comm_cons in *.
      rewrite mkdir_parents_new by done. unfold update. cbn [files dir_size trace].
      by rewrite <- app_assoc.
Qed.

(** *** One run of the body of the second loop *)

Lemma lookup_without (fs : tree) (p x : path) :
  filter (fun qe : path * entry => ~ suffix p (fst qe)) fs !! x =
  if decide (suffix p x) then None else fs !! x.
Proof.
  destruct (decide (suffix p x)) as [H|H].
  - apply map_lookup_filter_None. right. intros e _. simpl. tauto.
  - destruct (fs !! x) as [e|] eqn:Hx.
    + by apply map_lookup_filter_Some.
    + apply map_lookup_filter_None. left. done.
Qed.

Lemma without_file (fs : tree) p c r :
  wf fs -> fs !! p = Some (File c r) ->
  filter (fun qe : path * entry => ~ suffix p (fst qe)) fs = delete p fs.
Proof.
  intros Hwf Hp. apply map_eq. intros x. rewrite lookup_without.
  destruct (decide (suffix p x)) as [H|H].
  - destruct (decide (x = p)) as [->|Hne]; [by rewrite lookup_delete_eq|].
    rewrite lookup_delete_ne by done.
    destruct (fs !! x) eqn:Hx; [|done].
    assert (fs !! p = Some Dir) by (eapply wf_sbelow_dir; [done|by split|eauto]).
    congruence.
  - rewrite lookup_delete_ne; [done|]. intros ->. by apply H.
Qed.

Lemma remove_item_step S R rel st e :
  wf (files st) ->
  files st !! (rel ++ R) = Some e ->
  remove_item S R (rel ++ R) st =
  Done tt
    (if decide (is_Some (files st !! (rel ++ S))) then st
     else update st
            (filter (fun qe : path * entry => ~ suffix (rel ++ R) (fst qe))
                    (files st))
            (removal_events (rel ++ R) e)).
Proof.
  intros Hwf He. unfold remove_item. unfold bind at 1.
  rewrite relative_to_app. mstep.
  destruct (decide (is_Some (files st !! (rel ++ S)))) as [Hs|Hs].
  - by rewrite bool_decide_eq_true_2.
  - rewrite bool_decide_eq_false_2 by done. cbn [negb]. rewrite He.
    destruct e as [c r|].
    + rewrite bool_decide_eq_false_2 by done. unfold unlink. mstep.
      rewrite He. unfold update. cbn [removal_events files dir_size trace].
      rewrite <- app_assoc. by erewrite without_file.
    + rewrite bool_decide_eq_true_2 by done. unfold rmtree. mstep.
      rewrite He. unfold update. cbn [removal_events files dir_size trace].
      by rewrite <- app_assoc.
Qed.

(** *** Loops *)

(** A property of the state that every run of the body keeps holds when the
    loop stops, however it stops. *)
Lemma for_each_final {A} (P : state -> Prop) (body : A -> M unit) l :
  (forall x st, x ∈ l -> P st -> P (final (body x st))) ->
  forall st, P st -> P (final (for_each l body st)).
Proof.
  induction l as [|x l IH]; intros Hbody st HP; [done|].
  cbn [for_each]. unfold bind.
  pose proof (Hbody x st ltac:(left) HP) as Hx.
  destruct (body x st) as [[] st'|e st']; [|done].
  apply IH; [|done]. intros y st'' Hy. apply Hbody. by right.
Qed.

(** Runs of the body that do not disturb one another: each [x] has a
    condition [Pre x] to run under and a result [Post x], and the run on
    [x] keeps those of the others.  [Good x] is what a run on [x] that
    returns shows, [Bad x] what one that raises shows. *)
Lemma for_each_rule {A} (Inv : state -> Prop) (Pre Post : A -> state -> Prop)
    (Good Bad : A -> Prop) (body : A -> M unit) (l : list A) :
  (forall x st, x ∈ l -> Inv st -> Pre x st ->
     match body x st with
     | Done _ st' =>
         Good x /\ Inv st' /\ Post x st' /\
         forall y, y ∈ l -> y <> x ->
           (Pre y st -> Pre y st') /\ (Post y st -> Post y st')
     | Raised _ _ => Bad x
     end) ->
  NoDup l ->
  forall st, Inv st -> (forall x, x ∈ l -> Pre x st) ->
    match for_each l body st with
    | Done _ st' => (forall x, x ∈ l -> Good x) /\ Inv st' /\
                    forall x, x ∈ l -> Post x st'
    | Raised _ _ => exists x, x ∈ l /\ Bad x
    end.
Proof.
  intros Hbody Hnd st HI HP.
  cut (forall l', NoDup l' -> l' ⊆ l -> forall st, Inv st ->
         (forall x, x ∈ l' -> Pre x st) ->
         match for_each l' body st with
         | Done _ st' =>
             (forall x, x ∈ l' -> Good x) /\ Inv st' /\
             (forall x, x ∈ l' -> Post x st') /\
             (forall z, z ∈ l -> z ∉ l' -> Post z st -> Post z st')
         | Raised _ _ => exists x, x ∈ l' /\ Bad x
         end).
  { intros H. specialize (H l Hnd ltac:(done) st HI HP).
    destruct (for_each l body st); [|done]. tauto. }
  clear st HI HP Hnd. induction l' as [|x l' IH]; intros Hnd Hsub st HI HP.
  { cbn. repeat split; try done; intros ? H; by apply elem_of_nil in H. }
  apply NoDup_cons in Hnd as [Hx Hnd].
  assert (x ∈ l) as Hxl by (apply Hsub; left).
  cbn [for_each]. unfold bind.
  pose proof (Hbody x st Hxl HI (HP x ltac:(left))) as Hstep.
  destruct (body x st) as [[] st'|e st'].
  - destruct Hstep as (Hg & HI' & HPost & Hstab).
    assert (forall y, y ∈ l' -> y <> x) as Hne by (intros y Hy ->; done).
    assert (l' ⊆ l) as Hsub' by (intros y Hy; apply Hsub; by right).
    assert (forall y, y ∈ l' -> Pre y st') as HP'.
    { intros y Hy. apply Hstab; [by apply Hsub'|by apply Hne|].
      apply HP. by right. }
    specialize (IH Hnd Hsub' st' HI' HP').
    destruct (for_each l' body st') as [[] st''|e st''].
    + destruct IH as (Hgs & HI'' & HPs & Hkeep). repeat split; [|done| |].
      * intros y [->|Hy]%elem_of_cons; auto.
      * intros y [->|Hy]%elem_of_cons; auto.
      * intros z Hz Hnz Hpz. apply not_elem_of_cons in Hnz as [Hzx Hzl].
        apply Hkeep; [done|done|]. by apply Hstab.
    + destruct IH as (y & Hy & Hby). exists y. split; [by right|done].
  - exists x. split; [left|done].
Qed.

Lemma scandir_dir st p :
  files st !! p = Some Dir -> scandir p st = Done (children (files st) p) st.
Proof. intros H. unfold scandir. by rewrite H. Qed.

Lemma wf_without (fs : tree) p :
  wf fs -> wf (filter (fun qe : path * entry => ~ suffix p (fst qe)) fs).
Proof.
  intros Hwf [|n q] e Hx; [done|]. rewrite lookup_without in *.
  case_decide as Hs; [done|]. rewrite decide_False.
  - eapply wf_parent; eauto.
  - intros H. apply Hs. by apply suffix_cons_r.
Qed.

Lemma sbelow_cons_inv (y : path) n p :
  sbelow y (n :: p) -> suffix y p.
Proof.
  intros [Hs Hne]. destruct y as [|m y]; [apply suffix_nil|].
  apply suffix_cons_inv in Hs as [?|?]; [congruence|done].
Qed.

Section Prune.
Variables (S R : path) (fs0 : tree).
Hypothesis Hun : unrelated S R.
Hypothesis Hwf0 : wf fs0.

Local Abbreviation keep := (kept fs0 S R).
Local Abbreviation removed := (removal fs0 S R).

Lemma kept_ancestor x y :
  suffix R y -> suffix y x -> keep x -> keep y.
Proof.
  unfold kept. intros HR Hy Hx.
  eapply wf_below; [done| |exact Hx]. by apply twin_suffix.
Qed.

Lemma source_not_sbelow x : suffix R x -> ~ sbelow R (twin R S x).
Proof.
  intros Hx [Hs _]. eapply unrelated_apart; [exact Hun| |exact Hs].
  by apply suffix_twin.
Qed.

Lemma source_apart k : ~ suffix R (k ++ S).
Proof.
  intros H. eapply unrelated_apart; [exact Hun| |exact H].
  by apply suffix_app_r.
Qed.

Lemma kept_app rel : keep (rel ++ R) <-> is_Some (fs0 !! (rel ++ S)).
Proof. unfold kept. by rewrite twin_app. Qed.

Lemma sbelow_root_app rel : rel <> [] -> sbelow R (rel ++ R).
Proof.
  intros Hne. split; [by apply suffix_app_r|].
  intros H. apply (f_equal length) in H. rewrite length_app in H.
  destruct rel; [done|simpl in H; lia].
Qed.

(** The first half of a directory's turn: the body on each entry. *)
Lemma prune_entries relp s :
  wf (files s) -> files s ⊆ fs0 ->
  (forall x, ~ sbelow R x -> files s !! x = fs0 !! x) ->
  (relp ++ R = R \/ keep (relp ++ R)) ->
  exists s',
    for_each (children (files s) (relp ++ R))
      (fun entry => remove_item S R (fst entry :: relp ++ R)) s
    = Done tt s' /\
    wf (files s') /\
    (forall x, ~ sbelow (relp ++ R) x -> files s' !! x = files s !! x) /\
    files s' ⊆ files s /\ dir_size s' = dir_size s /\
    (exists evs, trace s' = trace s ++ evs /\ Forall removed evs) /\
    (forall n x, is_Some (files s !! (n :: relp ++ R)) ->
       suffix (n :: relp ++ R) x ->
       files s' !! x =
       if decide (keep (n :: relp ++ R)) then files s !! x else None).
Proof.
  intros Hwf Hsub Hframe Hkp.
  pose proof (for_each_rule
    (fun t => wf (files t) /\
              (forall x, ~ sbelow (relp ++ R) x -> files t !! x = files s !! x) /\
              files t ⊆ files s /\ dir_size t = dir_size s /\
              exists evs, trace t = trace s ++ evs /\ Forall removed evs)
    (fun (nb : string * bool) t =>
       forall x, suffix (fst nb :: relp ++ R) x -> files t !! x = files s !! x)
    (fun (nb : string * bool) t =>
       forall x, suffix (fst nb :: relp ++ R) x ->
         files t !! x =
         if decide (keep (fst nb :: relp ++ R)) then files s !! x else None)
    (fun _ => True) (fun _ => False)
    (fun entry => remove_item S R (fst entry :: relp ++ R))
    (children (files s) (relp ++ R))) as Hloop.
  match type of Hloop with ?A -> _ => assert A as Hbody end.
  { clear Hloop.
    intros [n b] t Hin (Hwft & Hfrt & Hsubt & Hdst & evs & Htr & Hevs) Hpre.
    cbn [fst] in *. pose proof Hin as (e & He & _)%elem_of_children.
    change (n :: relp ++ R) with ((n :: relp) ++ R) in *.
    assert (files t !! ((n :: relp) ++ R) = Some e) as Het
      by (rewrite Hpre; done).
    rewrite (remove_item_step S R (n :: relp) t e Hwft Het).
    assert (files t !! ((n :: relp) ++ S) = fs0 !! ((n :: relp) ++ S)) as Hsrc.
    { rewrite Hfrt, Hframe; [done| |]; intros [Hs _].
      - by apply source_apart in Hs.
      - apply suffix_app_l in Hs. by apply source_apart in Hs. }
    rewrite Hsrc.
    destruct (decide (is_Some (fs0 !! ((n :: relp) ++ S)))) as [Hk|Hk].
    - split; [done|]. split; [by eauto 10|]. split; [|done].
      intros x Hx. rewrite decide_True by (by apply kept_app). by apply Hpre.
    - assert (forall x, ~ suffix ((n :: relp) ++ R) x ->
                files (update t (filter (fun qe : path * entry =>
                         ~ suffix ((n :: relp) ++ R) (fst qe)) (files t))
                         (removal_events ((n :: relp) ++ R) e)) !! x
                = files t !! x) as Hout.
      { intros x Hx. cbn [update files]. rewrite lookup_without.
        by rewrite decide_False. }
      split; [done|]. split; [|split].
      + split; [by apply wf_without|]. split; [|split; [|split]].
        * intros x Hx. rewrite Hout; [by apply Hfrt|].
          intros Hs. apply Hx. by apply suffix_cons_sbelow in Hs.
        * cbn [update files]. etrans; [apply map_filter_subseteq|done].
        * done.
        * exists (evs ++ removal_events ((n :: relp) ++ R) e). split.
          { cbn [update trace]. by rewrite Htr, app_assoc. }
          apply Forall_app. split; [done|]. apply Forall_forall.
          intros ev Hev. exists ((n :: relp) ++ R), e.
          split; [done|]. split.
          { eapply lookup_weaken; [exact He|done]. }
          split; [by apply sbelow_root_app|]. split.
          { by rewrite kept_app. }
          intros y Hy Hyx. apply (sbelow_cons_inv y n (relp ++ R)) in Hyx.
          destruct Hkp as [Hkp|Hkp].
          { rewrite Hkp in Hyx. destruct Hy as [Hy1 Hy2].
            exfalso. apply Hy2. by apply (anti_symm suffix). }
          eapply kept_ancestor; [apply Hy|exact Hyx|done].
      + intros x Hx. cbn [update files]. rewrite lookup_without.
        rewrite decide_True by done.
        rewrite decide_False; [done|]. by rewrite kept_app.
      + intros [m b'] Hm Hne. cbn [fst].
        assert (m <> n) as Hmn.
        { intros ->. apply Hne. f_equal. eapply children_functional; eauto. }
        assert (forall x, suffix (m :: relp ++ R) x ->
                  ~ suffix ((n :: relp) ++ R) x) as Hdisj.
        { intros x H1 H2. apply Hmn. eapply suffix_cons_same; eauto. }
        split; intros H x Hx; (rewrite Hout; [by apply H|by apply Hdisj]). }
  specialize (Hloop Hbody (NoDup_children _ _) s).
  match type of Hloop with ?A -> ?B -> _ =>
    assert A as HI; [|assert B as HP; [|specialize (Hloop HI HP)]] end.
  { split; [done|]. split; [done|]. split; [done|]. split; [done|].
    exists []. by rewrite app_nil_r. }
  { done. }
  destruct (for_each _ _ s) as [[] s'|e s'].
  - destruct Hloop as (_ & (Hwf' & Hfr' & Hsub' & Hds' & Hev') & Hpost).
    exists s'. repeat split; try done.
    intros n x [e He] Hx.
    apply (Hpost (n, bool_decide (e = Dir))); [|done].
    apply elem_of_children. eauto.
  - by destruct Hloop as (? & _ & []).
Qed.

Lemma sbelow_trans_root relp x : sbelow (relp ++ R) x -> sbelow R x.
Proof.
  intros [Hs Hne]. split.
  - etrans; [|exact Hs]. by apply suffix_app_r.
  - intros ->. apply Hne. apply (anti_symm suffix); [by apply suffix_app_r|done].
Qed.

(** The walk of the replica tree from a directory on. *)
Lemma prune_walk fuel : forall relp s,
  wf (files s) -> files s ⊆ fs0 ->
  (forall x, ~ sbelow R x -> files s !! x = fs0 !! x) ->
  files s !! (relp ++ R) = Some Dir ->
  (relp ++ R = R \/ keep (relp ++ R)) ->
  (forall x, suffix (relp ++ R) x -> is_Some (files s !! x) ->
             (length x < length (relp ++ R) + fuel)%nat) ->
  exists s',
    iterate_directories fuel (remove_item S R) (relp ++ R) s = Done tt s' /\
    (forall x, files s' !! x =
               if decide (sbelow (relp ++ R) x /\ ~ keep x) then None
               else files s !! x) /\
    wf (files s') /\ files s' ⊆ files s /\
    dir_size s' = dir_size s /\
    exists evs, trace s' = trace s ++ evs /\ Forall removed evs.
Proof.
  induction fuel as [|fuel IH]; intros relp s Hwf Hsub Hframe Hp Hkp Hfuel.
  { specialize (Hfuel (relp ++ R) ltac:(done) ltac:(eauto)). lia. }
  cbn [iterate_directories]. unfold bind. rewrite scandir_dir by done.
  destruct (prune_entries relp s Hwf Hsub Hframe Hkp)
    as (s1 & -> & Hwf1 & Hfr1 & Hsub1 & Hds1 & (evs1 & Htr1 & Hevs1) & Hpost1).
  assert (files s1 !! (relp ++ R) = Some Dir) as Hp1.
  { rewrite Hfr1; [done|]. by intros [_ ?]. }
  rewrite scandir_dir by done.
  set (p := relp ++ R) in *.
  pose proof (for_each_rule
    (fun t => wf (files t) /\
              (forall x, ~ sbelow p x -> files t !! x = files s1 !! x) /\
              files t ⊆ files s1 /\ dir_size t = dir_size s1 /\
              exists evs, trace t = trace s1 ++ evs /\ Forall removed evs)
    (fun (nb : string * bool) t =>
       forall x, suffix (fst nb :: p) x -> files t !! x = files s1 !! x)
    (fun (nb : string * bool) t =>
       forall x, suffix (fst nb :: p) x ->
         files t !! x =
         if decide (sbelow (fst nb :: p) x /\ ~ keep x) then None
         else files s1 !! x)
    (fun _ => True) (fun _ => False)
    (fun entry =>
       if snd entry
       then iterate_directories fuel (remove_item S R) (fst entry :: p)
       else ret tt)
    (children (files s1) p)) as Hloop.
  match type of Hloop with ?A -> _ => assert A as Hbody end.
  { clear Hloop.
    intros [n b] t Hin (Hwft & Hfrt & Hsubt & Hdst & evs & Htr & Hevs) Hpre.
    cbn [fst snd] in *. pose proof Hin as (e & He & Hb)%elem_of_children.
    destruct b.
    - symmetry in Hb. apply bool_decide_eq_true in Hb. subst e.
      assert (keep (n :: p)) as Hkn.
      { specialize (Hpost1 n (n :: p)). rewrite He in Hpost1.
        case_decide; [done|]. discriminate Hpost1; [|done].
        eapply lookup_weaken_is_Some; [|exact Hsub1]. eauto. }
      destruct (IH (n :: relp) t) as (t' & Hrun & Hpt & Hwft' & Hsubt' & Hdst' & evs' & Htr' & Hevs').
      + done.
      + by repeat (etrans; [eassumption|]).
      + intros x Hx. rewrite Hfrt, Hfr1; [by apply Hframe| |];
          intros H; by apply sbelow_trans_root in H.
      + cbn. fold p. rewrite Hpre; done.
      + by right.
      + intros x Hx Hsome. cbn [app length]. fold p.
        assert (length x < length p + Datatypes.S fuel)%nat; [|lia].
        apply Hfuel; [by eapply suffix_cons_l|].
        eapply lookup_weaken_is_Some; [exact Hsome|]. by etrans.
      + cbn [app] in Hrun, Hpt. fold p in Hrun, Hpt. rewrite Hrun.
        assert (forall x, ~ suffix (n :: p) x -> files t' !! x = files t !! x)
          as Hout.
        { intros x Hx. rewrite Hpt. rewrite decide_False; [done|].
          intros [[? _] _]. done. }
        split; [done|]. split; [|split].
        * split; [done|]. split; [|split; [|split]].
          -- intros x Hx. rewrite Hout; [by apply Hfrt|].
             intros H. apply Hx. by eapply suffix_cons_sbelow.
          -- by etrans.
          -- congruence.
          -- exists (evs ++ evs'). split; [by rewrite Htr', Htr, app_assoc|].
             by apply Forall_app.
        * intros x Hx. rewrite Hpt. by rewrite Hpre.
        * intros [m b'] Hm Hne. cbn [fst].
          assert (m <> n) as Hmn.
          { intros ->. apply Hne. f_equal. eapply children_functional; eauto. }
          assert (forall x, suffix (m :: p) x -> ~ suffix (n :: p) x) as Hdisj.
          { intros x H1 H2. apply Hmn. eapply suffix_cons_same; eauto. }
          split; intros H x Hx; (rewrite Hout; [by apply H|by apply Hdisj]).
    - unfold ret. split; [done|]. split; [by eauto 10|]. split; [|done].
      intros x Hx. rewrite Hpre by done.
      assert (e <> Dir) as HeD
        by (intros ->; by rewrite bool_decide_eq_true_2 in Hb).
      clear Hb.
      destruct (decide (sbelow (n :: p) x /\ ~ keep x)) as [[Hsb _]|]; [|done].
      destruct (files s1 !! x) eqn:Hx1; [|done].
      assert (files s1 !! (n :: p) = Some Dir) as Hdir
        by (eapply wf_sbelow_dir; eauto).
      congruence. }
  specialize (Hloop Hbody (NoDup_children _ _) s1).
  match type of Hloop with ?A -> ?B -> _ =>
    assert A as HI; [|assert B as HP; [|specialize (Hloop HI HP)]] end.
  { split; [done|]. split; [done|]. split; [done|]. split; [done|].
    exists []. by rewrite app_nil_r. }
  { done. }
  destruct (for_each _ _ s1) as [[] s2|e s2].
  2: { by destruct Hloop as (? & _ & []). }
  destruct Hloop as (_ & (Hwf2 & Hfr2 & Hsub2 & Hds2 & evs2 & Htr2 & Hevs2) & Hpost2).
  exists s2. split; [done|]. split; [|split; [done|split; [by etrans|split; [congruence|]]]].
  2: { exists (evs1 ++ evs2). split; [by rewrite Htr2, Htr1, app_assoc|].
       by apply Forall_app. }
  intros x. destruct (decide (sbelow p x)) as [Hsb|Hsb].
  2: { rewrite decide_False by tauto. by rewrite Hfr2, Hfr1. }
  destruct (sbelow_child p x) as [n Hn]; [apply Hsb..|].
  destruct (files s !! (n :: p)) as [e|] eqn:He.
  - specialize (Hpost1 n x ltac:(eauto) Hn) as Hx1.
    specialize (Hpost1 n (n :: p) ltac:(eauto) ltac:(done)) as Hn1.
    destruct (decide (keep (n :: p))) as [Hkn|Hkn].
    + rewrite He in Hn1.
      rewrite (Hpost2 (n, bool_decide (e = Dir))); [|apply elem_of_children; eauto|done].
      cbn [fst]. rewrite Hx1.
      destruct (decide (keep x)) as [Hkx|Hkx].
      * rewrite !decide_False by tauto. done.
      * rewrite !decide_True; [done|done|]. split; [|done].
        split; [done|]. intros ->. done.
    + rewrite decide_True.
      * eapply lookup_weaken_None; [exact Hx1|done].
      * split; [done|]. intros Hkx. apply Hkn.
        eapply kept_ancestor; [|exact Hn|done].
        apply suffix_cons_r. by apply suffix_app_r.
  - assert (files s !! x = None) as Hx.
    { destruct (files s !! x) eqn:Hx; [|done].
      destruct (wf_below (files s) (n :: p) x) as [? Hc]; [done..|eauto|].
      congruence. }
    rewrite Hx. assert (files s2 !! x = None) as ->.
    { eapply lookup_weaken_None; [exact Hx|by etrans]. }
    by case_decide.
Qed.
End Prune.

Lemma compatible_at fs S R x e e' :
  compatible fs S R -> suffix S x ->
  fs !! x = Some e -> fs !! twin S R x = Some e' -> kind_of e = kind_of e'.
Proof.
  intros Hc Hs He He'. specialize (Hc x e He Hs). by rewrite He' in Hc.
Qed.

Section Propagate.
Variables (S R : path) (fs0 : tree).
Hypothesis Hun : unrelated S R.
Hypothesis Hwf0 : wf fs0.
Hypothesis Hcompat : compatible fs0 S R.

Local Abbreviation target := (settled fs0 S R).
Local Abbreviation good := (copies fs0 S R).
Local Abbreviation made := (produced fs0 S R).

Lemma roots_differ : S <> R.
Proof. intros ->. by destruct Hun as [[] _]. Qed.

Lemma replica_apart k : ~ suffix S (k ++ R).
Proof.
  intros H. eapply unrelated_apart; [exact Hun|exact H|].
  by apply suffix_app_r.
Qed.

Lemma source_not_replica k : ~ sbelow R (k ++ S).
Proof. intros [H _]. by apply (source_apart S R Hun) in H. Qed.

(** The first half of a directory's turn: the body on each entry. *)
Lemma propagate_entries relp s :
  (forall x, ~ sbelow R x -> files s !! x = fs0 !! x) ->
  (forall y, sbelow (relp ++ R) y -> files s !! y = fs0 !! y) ->
  files s !! (relp ++ R) = Some Dir ->
  match for_each (children (files s) (relp ++ S))
          (fun entry => sync_item S R (fst entry :: relp ++ S)) s with
  | Done _ s' =>
      (forall n, good ((n :: relp) ++ S)) /\
      (forall y, (forall n, is_Some (fs0 !! ((n :: relp) ++ S)) ->
                            y <> (n :: relp) ++ R) ->
                 files s' !! y = files s !! y) /\
      (forall n, is_Some (fs0 !! ((n :: relp) ++ S)) ->
                 files s' !! ((n :: relp) ++ R) = target ((n :: relp) ++ R)) /\
      dir_size s' = dir_size s /\
      (exists evs, trace s' = trace s ++ evs /\ Forall made evs) /\
      (forall n e ev, fs0 !! ((n :: relp) ++ S) = Some e ->
         ev ∈ item_events ((n :: relp) ++ S) ((n :: relp) ++ R) e
                (fs0 !! ((n :: relp) ++ R)) ->
         ev ∈ trace s')
  | Raised _ _ => exists n, ~ good ((n :: relp) ++ S)
  end.
Proof.
  intros Hframe Hreg Hp'.
  assert (forall n, files s !! ((n :: relp) ++ S) = fs0 !! ((n :: relp) ++ S))
    as Hsrc by (intros n; apply Hframe, source_not_replica).
  pose proof (for_each_rule
    (fun t => (forall y, (forall n, is_Some (fs0 !! ((n :: relp) ++ S)) ->
                                    y <> (n :: relp) ++ R) ->
                         files t !! y = files s !! y) /\
              dir_size t = dir_size s /\
              exists evs, trace t = trace s ++ evs /\ Forall made evs)
    (fun (nb : string * bool) t =>
       files t !! ((fst nb :: relp) ++ R) = fs0 !! ((fst nb :: relp) ++ R))
    (fun (nb : string * bool) t =>
       files t !! ((fst nb :: relp) ++ R) = target ((fst nb :: relp) ++ R) /\
       forall e ev, fs0 !! ((fst nb :: relp) ++ S) = Some e ->
         ev ∈ item_events ((fst nb :: relp) ++ S) ((fst nb :: relp) ++ R) e
                (fs0 !! ((fst nb :: relp) ++ R)) ->
         ev ∈ trace t)
    (fun nb => good ((fst nb :: relp) ++ S))
    (fun nb => ~ good ((fst nb :: relp) ++ S))
    (fun entry => sync_item S R (fst entry :: relp ++ S))
    (children (files s) (relp ++ S))) as Hloop.
  match type of Hloop with ?A -> _ => assert A as Hbody end.
  { clear Hloop.
    intros [n b] t Hin (Hfrt & Hdst & evs & Htr & Hevs) Hpre.
    cbn [fst] in *. pose proof Hin as (e & He & _)%elem_of_children.
    change (n :: relp ++ S) with ((n :: relp) ++ S) in *.
    rewrite Hsrc in He.
    assert (files t !! ((n :: relp) ++ S) = Some e) as Het.
    { rewrite Hfrt, Hsrc; [done|]. intros m _ H.
      eapply (replica_apart (m :: relp)). rewrite <- H. by apply suffix_app_r. }
    assert (files t !! (relp ++ R) = Some Dir) as Hpt.
    { rewrite Hfrt; [done|]. intros m _ H. apply (f_equal length) in H.
      rewrite !length_app in H. simpl in H. lia. }
    assert (match files t !! ((n :: relp) ++ R) with
            | Some e' => kind_of e = kind_of e' | None => True end) as Hk.
    { rewrite Hpre. destruct (fs0 !! ((n :: relp) ++ R)) eqn:Hr; [|done].
      eapply (compatible_at fs0 S R ((n :: relp) ++ S)); eauto.
      - by apply suffix_app_r.
      - by rewrite twin_app. }
    rewrite (sync_item_step S R relp n t e roots_differ Het Hpt Hk).
    cbn zeta. rewrite Hpre.
    assert (good ((n :: relp) ++ S) <->
            is_Some (settle e (fs0 !! ((n :: relp) ++ R)))) as Hgood.
    { unfold copies. by rewrite He, twin_app. }
    destruct (settle e (fs0 !! ((n :: relp) ++ R))) as [e'|] eqn:Hset.
    2: { rewrite Hgood. by intros [??]. }
    split; [apply Hgood; eauto|]. split; [|split].
    - split; [|split; [done|]].
      + intros y Hy. cbn [update files]. rewrite lookup_insert_ne; [by apply Hfrt|].
        intros <-. eapply Hy; [|done]. eauto.
      + eexists. split; [cbn [update trace]; by rewrite Htr, <- app_assoc|].
        apply Forall_app. split; [done|]. apply Forall_forall. intros ev Hev.
        exists ((n :: relp) ++ S), e. rewrite twin_app. split; [|done].
        split; [by apply suffix_app_r|]. intros H.
        apply (f_equal length) in H. rewrite length_app in H. simpl in H. lia.
    - split.
      + cbn [update files]. rewrite lookup_insert_eq. unfold settled.
        by rewrite twin_app, He, Hset.
      + intros e0 ev He0 Hev. assert (e0 = e) as -> by congruence.
        cbn [update trace]. apply elem_of_app. by right.
    - intros [m b'] Hm Hne. cbn [fst].
      assert (m <> n) as Hmn.
      { intros ->. apply Hne. f_equal. eapply children_functional; eauto. }
      assert (files (update t (<[(n :: relp) ++ R:=e']> (files t))
                (item_events ((n :: relp) ++ S) ((n :: relp) ++ R) e
                   (fs0 !! ((n :: relp) ++ R)))) !! ((m :: relp) ++ R)
              = files t !! ((m :: relp) ++ R)) as Hout.
      { cbn [update files]. rewrite lookup_insert_ne; [done|]. intros H.
        by injection H. }
      split; [by rewrite Hout|]. intros [H1 H2].
      split; [rewrite Hout; exact H1|].
      intros e0 ev He0 Hev. cbn [update trace]. apply elem_of_app. left. eauto. }
  specialize (Hloop Hbody (NoDup_children _ _) s).
  match type of Hloop with ?A -> ?B -> _ =>
    assert A as HI; [|assert B as HP; [|specialize (Hloop HI HP)]] end.
  { split; [done|]. split; [done|]. exists []. by rewrite app_nil_r. }
  { intros [n b] Hin. cbn [fst]. apply Hreg. split; [by apply suffix_cons_r|].
    intros H. apply (f_equal length) in H. rewrite !length_app in H.
    simpl in H. lia. }
  assert (forall n, is_Some (fs0 !! ((n :: relp) ++ S)) ->
            exists b, (n, b) ∈ children (files s) (relp ++ S)) as Hchild.
  { intros n [e He]. exists (bool_decide (e = Dir)). apply elem_of_children.
    exists e. split; [|done]. rewrite <- He. apply Hsrc. }
  destruct (for_each _ _ s) as [[] s'|e s'].
  - destruct Hloop as (Hg & (Hfr' & Hds' & Hev') & Hpost).
    split; [|split; [done|split; [|split; [done|split; [done|]]]]].
    + intros n. destruct (fs0 !! ((n :: relp) ++ S)) eqn:He.
      * destruct (Hchild n) as [b Hb]; [eauto|]. apply (Hg _ Hb).
      * unfold copies. by rewrite He.
    + intros n Hn. destruct (Hchild n Hn) as [b Hb]. apply (Hpost _ Hb).
    + intros n e ev He Hev. destruct (Hchild n) as [b Hb]; [eauto|].
      eapply (Hpost _ Hb); eauto.
  - destruct Hloop as ([n b] & Hin & Hng). by exists n.
Qed.

Lemma target_no_source y :
  fs0 !! twin R S y = None -> target y = fs0 !! y.
Proof. unfold settled. by intros ->. Qed.

(** The walk of the source tree from a directory on. *)
Lemma propagate_walk fuel : forall relp s,
  (forall x, ~ sbelow R x -> files s !! x = fs0 !! x) ->
  (forall y, sbelow (relp ++ R) y -> files s !! y = fs0 !! y) ->
  fs0 !! (relp ++ S) = Some Dir ->
  files s !! (relp ++ R) = Some Dir ->
  (forall x, suffix (relp ++ S) x -> is_Some (fs0 !! x) ->
             (length x < length (relp ++ S) + fuel)%nat) ->
  match iterate_directories fuel (sync_item S R) (relp ++ S) s with
  | Done _ s' =>
      (forall x, sbelow (relp ++ S) x -> good x) /\
      (forall y, files s' !! y =
                 if decide (sbelow (relp ++ R) y) then target y
                 else files s !! y) /\
      dir_size s' = dir_size s /\
      (exists evs, trace s' = trace s ++ evs /\ Forall made evs) /\
      (forall x e ev, sbelow (relp ++ S) x -> fs0 !! x = Some e ->
         ev ∈ item_events x (twin S R x) e (fs0 !! twin S R x) ->
         ev ∈ trace s')
  | Raised _ _ => exists x, sbelow (relp ++ S) x /\ ~ good x
  end.
Proof.
  induction fuel as [|fuel IH]; intros relp s Hframe Hreg Hp Hp' Hfuel.
  { specialize (Hfuel (relp ++ S) ltac:(done) ltac:(eauto)). lia. }
  assert (forall k, files s !! (k ++ S) = fs0 !! (k ++ S)) as Hsrc
    by (intros k; apply Hframe, source_not_replica).
  cbn [iterate_directories]. unfold bind.
  rewrite scandir_dir by (by rewrite Hsrc).
  pose proof (propagate_entries relp s Hframe Hreg Hp') as Hstep1.
  destruct (for_each _ _ s) as [[] s1|e1 s1].
  2: { destruct Hstep1 as [n Hn]. exists ((n :: relp) ++ S).
       split; [apply sbelow_cons_app|done]. }
  destruct Hstep1 as (Hg1 & Hfr1 & Hpost1 & Hds1 & (evs1 & Htr1 & Hevs1) & Hev1).
  assert (forall k, files s1 !! (k ++ S) = fs0 !! (k ++ S)) as Hsrc1.
  { intros k. rewrite Hfr1; [apply Hsrc|]. intros n _ H.
    apply (replica_apart (n :: relp)). rewrite <- H. by apply suffix_app_r. }
  rewrite scandir_dir by (by rewrite Hsrc1).
  pose proof (for_each_rule
    (fun t => (forall y, (forall n, fs0 !! ((n :: relp) ++ S) = Some Dir ->
                                    ~ sbelow ((n :: relp) ++ R) y) ->
                         files t !! y = files s1 !! y) /\
              dir_size t = dir_size s1 /\
              exists evs, trace t = trace s1 ++ evs /\ Forall made evs)
    (fun (nb : string * bool) t =>
       forall y, sbelow ((fst nb :: relp) ++ R) y -> files t !! y = fs0 !! y)
    (fun (nb : string * bool) t =>
       (forall y, sbelow ((fst nb :: relp) ++ R) y -> files t !! y = target y) /\
       forall x e ev, sbelow ((fst nb :: relp) ++ S) x -> fs0 !! x = Some e ->
         ev ∈ item_events x (twin S R x) e (fs0 !! twin S R x) ->
         ev ∈ trace t)
    (fun nb => forall x, sbelow ((fst nb :: relp) ++ S) x -> good x)
    (fun nb => exists x, sbelow ((fst nb :: relp) ++ S) x /\ ~ good x)
    (fun entry =>
       if snd entry
       then iterate_directories fuel (sync_item S R) (fst entry :: relp ++ S)
       else ret tt)
    (children (files s1) (relp ++ S))) as Hloop.
  match type of Hloop with ?A -> _ => assert A as Hbody end.
  { clear Hloop.
    intros [n b] t Hin (Hfrt & Hdst & evs & Htr & Hevs) Hpre.
    cbn [fst snd] in *. pose proof Hin as (e & He & Hb)%elem_of_children.
    change (n :: relp ++ S) with ((n :: relp) ++ S) in *.
    rewrite Hsrc1 in He.
    destruct b.
    - symmetry in Hb. apply bool_decide_eq_true in Hb. subst e.
      pose proof (IH (n :: relp) t) as Hrec.
      match type of Hrec with ?A -> ?B -> ?C -> ?D -> ?E -> _ =>
        assert A as H1; [|assert B as H2; [|assert C as H3; [|
        assert D as H4; [|assert E as H5; [|
          specialize (Hrec H1 H2 H3 H4 H5)]]]]] end.
      + intros x Hx. rewrite Hfrt, Hfr1; [by apply Hframe| |].
        * intros m _ ->. apply Hx. by apply sbelow_root_app.
        * intros m _ Hm. apply Hx. by eapply sbelow_app_root.
      + done.
      + done.
      + rewrite Hfrt.
        2: { intros m _ Hm. apply sbelow_length in Hm.
             rewrite !length_app in Hm. simpl in Hm. lia. }
        rewrite Hpost1 by eauto. unfold settled. rewrite twin_app, He.
        destruct (fs0 !! ((n :: relp) ++ R)) as [e'|] eqn:Hr; [|done].
        cbn [settle]. f_equal.
        assert (kind_of Dir = kind_of e') as Hk.
        { eapply (compatible_at fs0 S R ((n :: relp) ++ S)); eauto.
          - by apply suffix_app_r.
          - by rewrite twin_app. }
        by destruct e'.
      + intros x Hx Hsome. cbn [app length].
        assert (length x < length (relp ++ S) + Datatypes.S fuel)%nat; [|lia].
        apply Hfuel; [|done]. by eapply suffix_cons_l.
      + destruct (iterate_directories fuel (sync_item S R) ((n :: relp) ++ S) t)
          as [[] t'|e' t']; [|done].
        destruct Hrec as (HG & Hpt & Hds & (evs' & Htr' & Hevs') & Hev').
        split; [done|]. split; [|split].
        * split; [|split; [congruence|]].
          -- intros y Hy. rewrite Hpt. rewrite decide_False by (by apply Hy).
             by apply Hfrt.
          -- exists (evs ++ evs'). split; [by rewrite Htr', Htr, app_assoc|].
             by apply Forall_app.
        * split; [|done]. intros y Hy. rewrite Hpt. by rewrite decide_True.
        * intros [m b'] Hm Hne. cbn [fst].
          assert (m <> n) as Hmn.
          { intros ->. apply Hne. f_equal. eapply children_functional; eauto. }
          assert (forall y, sbelow ((m :: relp) ++ R) y ->
                    files t' !! y = files t !! y) as Hout.
          { intros y Hy. rewrite Hpt. rewrite decide_False; [done|].
            intros Hy'. apply Hmn. eapply sbelow_same_child; eauto. }
          split.
          -- intros H y Hy. rewrite Hout by done. by apply H.
          -- intros [Ha Hb]. split.
             ++ intros y Hy. rewrite Hout by done. by apply Ha.
             ++ intros x e ev Hx He' Hev. rewrite Htr'. apply elem_of_app.
                left. eauto.
    - assert (fs0 !! ((n :: relp) ++ S) <> Some Dir) as HnD.
      { rewrite He. intros [= ->]. by rewrite bool_decide_eq_true_2 in Hb. }
      clear Hb. unfold ret. split; [|split; [by eauto 10|split; [|done]]].
      + intros x Hx. unfold copies. by rewrite (wf_none_below fs0 _ x Hwf0 Hx HnD).
      + split.
        * intros y Hy. rewrite Hpre by done. symmetry. apply target_no_source.
          eapply wf_none_below; [done| |exact HnD].
          rewrite <- (twin_app R S (n :: relp)). apply twin_sbelow; [|done].
          by apply suffix_app_r.
        * intros x e' ev Hx He'.
          by rewrite (wf_none_below fs0 _ x Hwf0 Hx HnD) in He'. }
  specialize (Hloop Hbody (NoDup_children _ _) s1).
  match type of Hloop with ?A -> ?B -> _ =>
    assert A as HI; [|assert B as HP; [|specialize (Hloop HI HP)]] end.
  { split; [done|]. split; [done|]. exists []. by rewrite app_nil_r. }
  { intros [n b] Hin y Hy. cbn [fst] in Hy. rewrite Hfr1.
    - apply Hreg. eapply sbelow_trans; [apply sbelow_cons_app|apply Hy].
    - intros m _ ->. apply sbelow_length in Hy.
      rewrite !length_app in Hy. simpl in Hy. lia. }
  assert (forall n e, fs0 !! ((n :: relp) ++ S) = Some e ->
            (n, bool_decide (e = Dir)) ∈ children (files s1) (relp ++ S))
    as Hchild.
  { intros n e He. apply elem_of_children.
    exists e. split; [|done]. rewrite <- He. apply (Hsrc1 (n :: relp)). }
  destruct (for_each _ _ s1) as [[] s2|e2 s2].
  2: { destruct Hloop as ([n b] & Hin & x & Hx & Hbad). exists x.
       split; [|done]. eapply sbelow_trans; [apply sbelow_cons_app|apply Hx]. }
  destruct Hloop as (Hg2 & (Hfr2 & Hds2 & evs2 & Htr2 & Hevs2) & Hpost2).
  split; [|split; [|split; [congruence|split]]].
  - intros x Hx. destruct (fs0 !! x) as [e|] eqn:He.
    2: { unfold copies. by rewrite He. }
    destruct (sbelow_child (relp ++ S) x) as [n Hn]; [apply Hx..|].
    destruct (decide (x = (n :: relp) ++ S)) as [->|Hne]; [apply Hg1|].
    assert (fs0 !! ((n :: relp) ++ S) = Some Dir) as Hd.
    { eapply wf_sbelow_dir; [done| |eauto]. by split. }
    apply (Hg2 (n, true)); [|by split].
    rewrite <- (bool_decide_eq_true_2 (Dir = Dir)) by done. by apply Hchild.
  - intros y. destruct (decide (sbelow (relp ++ R) y)) as [Hsb|Hsb].
    2: { rewrite Hfr2, Hfr1; [done| |].
         - intros n _ ->. apply Hsb, sbelow_cons_app.
         - intros n _ Hn. apply Hsb.
           eapply sbelow_trans; [apply sbelow_cons_app|apply Hn]. }
    destruct (sbelow_child (relp ++ R) y) as [n Hn]; [apply Hsb..|].
    change (n :: relp ++ R) with ((n :: relp) ++ R) in Hn.
    destruct (decide (y = (n :: relp) ++ R)) as [->|Hne].
    + rewrite Hfr2.
      2: { intros m _ Hm. apply sbelow_length in Hm.
           rewrite !length_app in Hm. simpl in Hm. lia. }
      destruct (fs0 !! ((n :: relp) ++ S)) as [e|] eqn:He.
      * apply Hpost1. rewrite He. eauto.
      * rewrite Hfr1.
        -- rewrite Hreg by done. symmetry. apply target_no_source.
           by rewrite twin_app.
        -- intros m [e Hm] H. apply app_inv_tail in H. injection H as ->.
           congruence.
    + assert (sbelow ((n :: relp) ++ R) y) as Hy by done.
      destruct (fs0 !! ((n :: relp) ++ S)) as [e|] eqn:He.
      * by apply (Hpost2 _ (Hchild n e He)).
      * rewrite Hfr2, Hfr1.
        -- rewrite Hreg by done. symmetry. apply target_no_source.
           eapply (wf_none_below fs0 ((n :: relp) ++ S)); [done| |by rewrite He].
           rewrite <- (twin_app R S (n :: relp)). apply twin_sbelow; [|done].
           by apply suffix_app_r.
        -- intros m _ ->. apply sbelow_length in Hy.
           rewrite !length_app in Hy. simpl in Hy. lia.
        -- intros m Hm Hym.
           assert (n = m) as -> by (eapply sbelow_same_child; eauto).
           congruence.
  - exists (evs1 ++ evs2). split; [by rewrite Htr2, Htr1, app_assoc|].
    by apply Forall_app.
  - intros x e ev Hx He Hev.
    destruct (sbelow_child (relp ++ S) x) as [n Hn]; [apply Hx..|].
    destruct (decide (x = (n :: relp) ++ S)) as [->|Hne].
    + rewrite Htr2. apply elem_of_app. left.
      rewrite twin_app in Hev. eapply Hev1; eauto.
    + assert (fs0 !! ((n :: relp) ++ S) = Some Dir) as Hd.
      { eapply wf_sbelow_dir; [done| |eauto]. by split. }
      destruct (Hpost2 _ (Hchild n Dir Hd)) as [_ Hb]. cbn [fst] in Hb.
      apply (Hb x e ev); [by split|done|done].
Qed.
End Propagate.

Lemma sync_directories_parts S R :
  sync_directories S R =
  (ensure_replica R ;;; sync_loop S R ;;; remove_loop S R).
Proof. reflexivity. Qed.

(** *** Making the replica root *)

Lemma lookup_with_dirs (fs : tree) p x :
  wf fs ->
  with_dirs p fs !! x =
  if decide (suffix x p /\ fs !! x = None) then Some Dir else fs !! x.
Proof.
  intros Hwf. revert x. induction p as [|n p IH]; intros x; cbn [with_dirs].
  - destruct (fs !! []) eqn:H0.
    + rewrite decide_False; [done|]. intros [Hs Hx].
      apply suffix_nil_inv in Hs. congruence.
    + destruct (decide (x = [])) as [->|Hne].
      * rewrite lookup_insert_eq. by rewrite decide_True.
      * rewrite lookup_insert_ne by done. rewrite decide_False; [done|].
        intros [Hs _]. by apply suffix_nil_inv in Hs.
  - destruct (fs !! (n :: p)) eqn:Hp.
    + rewrite decide_False; [done|]. intros [Hs Hx].
      destruct (wf_below fs x (n :: p) Hwf Hs) as [? ?]; [eauto|congruence].
    + destruct (decide (x = n :: p)) as [->|Hne].
      * rewrite lookup_insert_eq. by rewrite decide_True.
      * rewrite lookup_insert_ne by done. rewrite IH.
        destruct (decide (suffix x p /\ fs !! x = None)) as [[Hs Hx]|Hn].
        -- rewrite decide_True; [done|]. split; [by apply suffix_cons_r|done].
        -- rewrite decide_False; [done|]. intros [Hs Hx]. apply Hn.
           split; [|done]. apply suffix_cons_case in Hs as [?|?]; done.
Qed.

Lemma with_dirs_exists (fs : tree) p e :
  fs !! p = Some e -> with_dirs p fs = fs.
Proof. intros H. destruct p; cbn [with_dirs]; by rewrite H. Qed.

Lemma os_mkdir_run st p :
  os_mkdir p st =
  let st1 := update st (files st) [Called (Mkdir p)] in
  match files st !! p with
  | Some _ => Raised FileExistsError st1
  | None =>
      match p with
      | [] => Done tt (update st (<[p := Dir]> (files st)) [Called (Mkdir p)])
      | _ :: parent =>
          match files st !! parent with
          | Some Dir =>
              Done tt (update st (<[p := Dir]> (files st)) [Called (Mkdir p)])
          | Some (File _ _) => Raised NotADirectoryError st1
          | None => Raised FileNotFoundError st1
          end
      end
  end.
Proof.
  unfold os_mkdir. mstep. cbn zeta. unfold update.
  destruct (files st !! p); [done|]. destruct p; [done|].
  by destruct (files st !! p) as [[]|].
Qed.

Lemma mkdir_parents_spec p : forall exist_ok st,
  wf (files st) -> files st !! p = None ->
  match mkdir_parents exist_ok p st with
  | Done _ st' =>
      creatable (files st) p /\
      files st' = with_dirs p (files st) /\ dir_size st' = dir_size st /\
      exists evs, trace st' = trace st ++ evs /\ Forall (makes p) evs
  | Raised _ st' => ~ creatable (files st) p
  end.
Proof.
  induction p as [|n p IH]; intros ok st Hwf Hp.
  - cbn [mkdir_parents]. unfold try_except. rewrite os_mkdir_run. cbn zeta.
    rewrite Hp. cbn [with_dirs]. rewrite Hp. split; [|split; [done|split; [done|]]].
    + intros q Hq%suffix_nil_inv. subst. by left.
    + eexists. split; [done|]. apply Forall_singleton. by exists [].
  - cbn [mkdir_parents]. unfold try_except. rewrite os_mkdir_run. cbn zeta.
    rewrite Hp. cbn [with_dirs]. rewrite Hp.
    destruct (files st !! p) as [[c r|]|] eqn:Hpar.
    + mstep. rewrite bool_decide_eq_false_2 by (cbn; congruence).
      rewrite orb_true_r. intros Hc. destruct (Hc p) as [?|?]; [|congruence..].
      by apply suffix_cons_r.
    + rewrite (with_dirs_exists _ p Dir) by done.
      split; [|split; [done|split; [done|]]].
      * intros q [->|Hq]%suffix_cons_case; [by left|]. right.
        destruct (wf_below (files st) q p Hwf Hq) as [e He]; [eauto|].
        destruct (decide (q = p)) as [->|Hne]; [done|].
        apply (wf_sbelow_dir (files st) q p); [done|split; congruence|eauto].
      * eexists. split; [done|]. apply Forall_singleton. by exists (n :: p).
    + unfold bind.
      specialize (IH true (update st (files st) [Called (Mkdir (n :: p))]) Hwf Hpar).
      destruct (mkdir_parents true p _) as [[] st2|e st2].
      2: { intros Hc. apply IH. intros q Hq. apply Hc. by apply suffix_cons_r. }
      destruct IH as (Hc & Hfs & Hds & evs & Htr & Hevs).
      cbn [update files dir_size trace] in *.
      unfold mkdir_plain, try_except. rewrite os_mkdir_run. cbn zeta.
      rewrite !Hfs. rewrite !lookup_with_dirs by done.
      rewrite decide_False.
      2: { intros [Hs _]. by apply suffix_cons_not in Hs. }
      rewrite Hp. rewrite decide_True by done.
      split; [|split; [|split]].
      * intros q [->|Hq]%suffix_cons_case; [by left|by apply Hc].
      * done.
      * cbn [update dir_size]. done.
      * eexists. split; [cbn [update trace]; rewrite Htr, <- !app_assoc; done|].
        apply Forall_app. split; [by apply Forall_singleton; exists (n :: p)|].
        apply Forall_app. split.
        -- eapply Forall_impl; [exact Hevs|]. intros ev (q & -> & Hq).
           exists q. split; [done|by apply suffix_cons_r].
        -- apply Forall_singleton. by exists (n :: p).
Qed.

Lemma wf_with_dirs (fs : tree) p :
  wf fs -> creatable fs p -> wf (with_dirs p fs).
Proof.
  intros Hwf Hc [|m q] e Hx; [done|]. rewrite lookup_with_dirs in * by done.
  destruct (decide (suffix (m :: q) p /\ fs !! (m :: q) = None)) as [[Hs Hn]|Hd].
  - assert (suffix q p) as Hq by (by eapply suffix_cons_l).
    destruct (Hc q Hq) as [Hq'|Hq'].
    + by rewrite decide_True.
    + rewrite decide_False; [done|]. intros [_ ?]. congruence.
  - assert (fs !! q = Some Dir) as Hq by (eapply wf_parent; eauto).
    rewrite decide_False; [done|]. intros [_ ?]. congruence.
Qed.

(** *** The three parts of a pass *)

Lemma ensure_replica_spec R st :
  wf (files st) ->
  match ensure_replica R st with
  | Done _ st' =>
      (files st !! R = None -> creatable (files st) R) /\
      files st' = with_dirs R (files st) /\ dir_size st' = dir_size st /\
      exists evs, trace st' = trace st ++ evs /\
        Forall (fun ev => files st !! R = None /\ mkdir_event R ev) evs
  | Raised _ _ => files st !! R = None /\ ~ creatable (files st) R
  end.
Proof.
  intros Hwf. unfold ensure_replica. mstep.
  destruct (files st !! R) as [e|] eqn:HR.
  - rewrite bool_decide_eq_true_2 by eauto. cbn [negb].
    split; [done|]. split; [by erewrite with_dirs_exists|]. split; [done|].
    exists []. by rewrite app_nil_r.
  - rewrite bool_decide_eq_false_2 by (by intros [??]). cbn [negb].
    pose proof (mkdir_parents_spec R false st Hwf HR) as Hm.
    destruct (mkdir_parents false R st) as [[] st1|e st1]; [|done].
    destruct Hm as (Hc & Hfs & Hds & evs & Htr & Hevs).
    split; [done|]. split; [done|]. split; [done|].
    exists (evs ++ [Logged (CreatedReplicaDirectory R)]).
    split; [by rewrite Htr, app_assoc|]. apply Forall_app. split.
    + eapply Forall_impl; [exact Hevs|]. intros ev H. split; [done|by left].
    + apply Forall_singleton. split; [done|by right].
Qed.

Lemma sync_loop_spec S R s :
  unrelated S R -> wf (files s) ->
  (files s !! S = Some Dir ->
   compatible (files s) S R /\ files s !! R = Some Dir) ->
  match sync_loop S R s with
  | Done _ s' =>
      (forall x, sbelow S x -> copies (files s) S R x) /\
      (forall y, files s' !! y =
                 if decide (sbelow R y) then settled (files s) S R y
                 else files s !! y) /\
      dir_size s' = dir_size s /\
      (exists evs, trace s' = trace s ++ evs /\
                   Forall (produced (files s) S R) evs) /\
      (forall x e ev, sbelow S x -> files s !! x = Some e ->
         ev ∈ item_events x (twin S R x) e (files s !! twin S R x) ->
         ev ∈ trace s')
  | Raised _ _ => exists x, sbelow S x /\ ~ copies (files s) S R x
  end.
Proof.
  intros Hun Hwf Hdir. unfold sync_loop, rglob. mstep.
  destruct (decide (files s !! S = Some Dir)) as [HS|HS].
  - rewrite bool_decide_eq_true_2 by done. destruct (Hdir HS) as [Hc HR].
    apply (propagate_walk S R (files s) Hun Hwf Hc (depth (files s)) [] s);
      try done.
    intros x _ Hx. apply depth_gt in Hx. lia.
  - rewrite bool_decide_eq_false_2 by done.
    assert (forall x, sbelow S x -> files s !! x = None) as Hnone
      by (intros x Hx; by eapply wf_none_below).
    split; [|split; [|split; [done|split]]].
    + intros x Hx. unfold copies. by rewrite Hnone.
    + intros y. case_decide as Hy; [|done]. unfold settled.
      rewrite (Hnone (twin R S y)); [done|]. rewrite <- (twin_self R S) at 1.
      apply twin_sbelow; [done|done].
    + exists []. by rewrite app_nil_r.
    + intros x e ev Hx He. by rewrite Hnone in He.
Qed.

Lemma remove_loop_spec S R s :
  unrelated S R -> wf (files s) ->
  exists s',
    remove_loop S R s = Done tt s' /\
    (forall x, files s' !! x =
               if decide (sbelow R x /\ ~ kept (files s) S R x) then None
               else files s !! x) /\
    wf (files s') /\ dir_size s' = dir_size s /\
    exists evs, trace s' = trace s ++ evs /\
                Forall (removal (files s) S R) evs.
Proof.
  intros Hun Hwf. unfold remove_loop, rglob. mstep.
  destruct (decide (files s !! R = Some Dir)) as [HR|HR].
  - rewrite bool_decide_eq_true_2 by done.
    destruct (prune_walk S R (files s) Hun Hwf (depth (files s)) [] s)
      as (s' & Hrun & Hpt & Hwf' & _ & Hds & Hev); try done.
    + by left.
    + intros x _ Hx. apply depth_gt in Hx. cbn [app]. lia.
    + exists s'. done.
  - rewrite bool_decide_eq_false_2 by done. exists s.
    split; [done|]. split; [|split; [done|split; [done|]]].
    + intros x. case_decide as Hx; [|done]. destruct Hx as [Hx _].
      by eapply wf_none_below.
    + exists []. by rewrite app_nil_r.
Qed.

(** *** A pass *)

Lemma with_dirs_other (fs : tree) R x :
  wf fs -> ~ suffix x R -> with_dirs R fs !! x = fs !! x.
Proof.
  intros Hwf Hx. rewrite lookup_with_dirs by done.
  rewrite decide_False; [done|]. by intros [? _].
Qed.

Lemma sbelow_not_above (R y : path) : sbelow R y -> ~ suffix y R.
Proof. intros [H1 H2] H3. apply H2. by apply (anti_symm suffix). Qed.

Lemma settled_dir (fs : tree) S R q :
  compatible fs S R -> suffix R q ->
  fs !! q = Some Dir \/ fs !! twin R S q = Some Dir ->
  settled fs S R q = Some Dir.
Proof.
  intros Hc Hq Hd. unfold settled.
  destruct (fs !! twin R S q) as [e|] eqn:He.
  - destruct (fs !! q) as [e'|] eqn:He'.
    + assert (kind_of e = kind_of e') as Hk.
      { apply (compatible_at fs S R (twin R S q)); try done.
        - by apply suffix_twin.
        - by rewrite twin_twin. }
      assert (e = Dir /\ e' = Dir) as [-> ->].
      { destruct e, e'; try done; destruct Hd as [Hd|Hd]; discriminate. }
      done.
    + destruct Hd as [Hd|Hd]; [done|]. by injection Hd as ->.
  - by destruct Hd.
Qed.

Lemma wf_settled (fs : tree) (fs' : tree) S R :
  unrelated S R -> wf fs ->
  (fs !! S = Some Dir -> compatible fs S R /\ fs !! R = Some Dir) ->
  (forall y, fs' !! y =
             if decide (sbelow R y) then settled fs S R y else fs !! y) ->
  wf fs'.
Proof.
  intros Hun Hwf Hdir Hpt.
  destruct (decide (fs !! S = Some Dir)) as [HS|HS].
  2: { assert (fs' = fs) as ->; [|done]. apply map_eq. intros y. rewrite Hpt.
       case_decide as Hy; [|done]. unfold settled.
       rewrite (wf_none_below fs S (twin R S y)); [done|done| |done].
       rewrite <- (twin_self R S) at 1. by apply twin_sbelow. }
  destruct (Hdir HS) as [Hc HR].
  assert (forall q, suffix R q ->
            fs !! q = Some Dir \/ fs !! twin R S q = Some Dir ->
            fs' !! q = Some Dir) as Hq.
  { intros q Hq Hd. rewrite Hpt. case_decide as Hsb.
    - by apply settled_dir.
    - assert (q = R) as ->.
      { destruct (decide (q = R)); [done|]. destruct Hsb. by split. }
      done. }
  intros [|n q] e Hx; [done|]. rewrite Hpt in Hx.
  destruct (decide (sbelow R (n :: q))) as [Hsb|Hsb].
  - assert (suffix R q) as HRq by (by apply (sbelow_cons_inv R n q)).
    apply Hq; [done|]. unfold settled in Hx. rewrite twin_cons in Hx by done.
    destruct (fs !! (n :: twin R S q)) as [es|] eqn:Hs.
    + right. eapply wf_parent; eauto.
    + left. eapply wf_parent; eauto.
  - assert (fs !! q = Some Dir) as Hd by (eapply wf_parent; eauto).
    rewrite Hpt. rewrite decide_False; [done|]. intros Hq'. apply Hsb.
    eapply sbelow_trans; [exact Hq'|]. by apply suffix_cons_r.
Qed.

Section Pass.
Variables (S R : path) (fs : tree).
Hypothesis Hun : unrelated S R.
Hypothesis Hwf : wf fs.

Local Abbreviation fs1 := (with_dirs R fs).

Lemma source_same x : suffix S x -> fs1 !! x = fs !! x.
Proof.
  intros Hx. apply with_dirs_other; [done|]. intros H.
  destruct Hun as [Hn _]. apply Hn. by etrans.
Qed.

Lemma replica_same y : sbelow R y -> fs1 !! y = fs !! y.
Proof. intros Hy. apply with_dirs_other; [done|]. by apply sbelow_not_above. Qed.

Lemma twin_source y : sbelow R y -> sbelow S (twin R S y).
Proof.
  intros Hy. rewrite <- (twin_self R S) at 1. by apply twin_sbelow.
Qed.

Lemma twin_replica x : sbelow S x -> sbelow R (twin S R x).
Proof.
  intros Hx. rewrite <- (twin_self S R) at 1. by apply twin_sbelow.
Qed.

Lemma copies_same x : sbelow S x -> copies fs1 S R x <-> copies fs S R x.
Proof.
  intros Hx. unfold copies.
  rewrite source_same by apply Hx.
  by rewrite replica_same by (by apply twin_replica).
Qed.

Lemma settled_same y : sbelow R y -> settled fs1 S R y = settled fs S R y.
Proof.
  intros Hy. unfold settled. rewrite source_same by (by apply twin_source).
  by rewrite replica_same.
Qed.

Lemma produced_same ev : produced fs1 S R ev -> produced fs S R ev.
Proof.
  intros (x & e & Hx & He & Hev). exists x, e. split; [done|].
  rewrite source_same in He by apply Hx.
  by rewrite replica_same in Hev by (by apply twin_replica).
Qed.

Lemma wf_fs1 : (fs !! R = None -> creatable fs R) -> wf fs1.
Proof.
  intros Hc. destruct (fs !! R) eqn:HR.
  - by erewrite with_dirs_exists.
  - apply wf_with_dirs; auto.
Qed.

Lemma compatible_fs1 :
  compatible fs S R -> fs !! S = Some Dir ->
  compatible fs1 S R /\ fs1 !! R = Some Dir.
Proof.
  intros Hc HS.
  assert (fs1 !! R = Some Dir) as HR1.
  { rewrite lookup_with_dirs by done. destruct (fs !! R) as [e|] eqn:HR.
    - rewrite decide_False by (by intros [_ ?]).
      assert (kind_of Dir = kind_of e) as Hk.
      { apply (compatible_at fs S R S); try done. by rewrite twin_self. }
      by destruct e.
    - by rewrite decide_True. }
  split; [|done]. intros x e Hx Hs. rewrite source_same in Hx by done.
  destruct (decide (x = S)) as [->|Hne].
  - rewrite twin_self, HR1. congruence.
  - rewrite replica_same by (by apply twin_replica).
    destruct (fs !! twin S R x) eqn:Ht; [|done].
    by eapply compatible_at.
Qed.
End Pass.

(** What a pass without type mismatches does: it returns exactly when the
    replica root can be made and every copy succeeds, and then the replica
    holds, below its root, what the first loop settles for each entry of the
    source, and nothing else. *)
Theorem pass_spec S R st :
  unrelated S R -> wf (files st) ->
  (files st !! S = Some Dir -> compatible (files st) S R) ->
  match sync_directories S R st with
  | Done _ st' =>
      (files st !! R = None -> creatable (files st) R) /\
      (forall x, sbelow S x -> copies (files st) S R x) /\
      (forall y, files st' !! y =
         if decide (sbelow R y) then
           match files st !! twin R S y with
           | Some e => settle e (files st !! y)
           | None => None
           end
         else with_dirs R (files st) !! y) /\
      wf (files st') /\ dir_size st' = dir_size st /\
      (exists evs, trace st' = trace st ++ evs /\
                   Forall (pass_event (files st) S R) evs) /\
      (forall x e ev, sbelow S x -> files st !! x = Some e ->
         ev ∈ item_events x (twin S R x) e (files st !! twin S R x) ->
         ev ∈ trace st')
  | Raised _ _ =>
      (files st !! R = None /\ ~ creatable (files st) R) \/
      exists x, sbelow S x /\ ~ copies (files st) S R x
  end.
Proof.
  intros Hun Hwf Hc. rewrite sync_directories_parts. unfold bind.
  pose proof (ensure_replica_spec R st Hwf) as H1.
  destruct (ensure_replica R st) as [[] s1|e1 s1]; [|by left].
  destruct H1 as (Hcr & Hfs1 & Hds1 & evs1 & Htr1 & Hevs1).
  set (fs := files st) in *.
  assert (wf (files s1)) as Hwf1 by (rewrite Hfs1; by apply wf_fs1).
  pose proof (sync_loop_spec S R s1 Hun Hwf1) as H2.
  rewrite Hfs1 in H2.
  match type of H2 with ?A -> _ => assert A as Hdir end.
  { rewrite (source_same S R fs Hun Hwf S) by done.
    intros HS. apply compatible_fs1; auto. }
  specialize (H2 Hdir).
  destruct (sync_loop S R s1) as [[] s2|e2 s2].
  2: { right. destruct H2 as (x & Hx & Hbad). exists x. split; [done|].
       by rewrite <- (copies_same S R fs Hun Hwf). }
  destruct H2 as (Hgood & Hpt2 & Hds2 & (evs2 & Htr2 & Hevs2) & Hcomp2).
  assert (wf (files s2)) as Hwf2.
  { eapply (wf_settled (with_dirs R fs)); try done. by rewrite <- Hfs1. }
  destruct (remove_loop_spec S R s2 Hun Hwf2)
    as (s3 & -> & Hpt3 & Hwf3 & Hds3 & evs3 & Htr3 & Hevs3).
  assert (forall y, suffix R y ->
            kept (files s2) S R y <-> kept fs S R y) as Hkept.
  { intros y Hy. unfold kept. rewrite (Hpt2 (twin R S y)). rewrite decide_False.
    - by rewrite (source_same S R fs Hun Hwf) by (by apply suffix_twin).
    - intros [Hs _]. eapply unrelated_apart; [exact Hun| |exact Hs].
      by apply suffix_twin. }
  split; [done|]. split.
  { intros x Hx. rewrite <- (copies_same S R fs Hun Hwf) by done. by apply Hgood. }
  split; [|split; [done|split; [congruence|split]]].
  - intros y. rewrite (Hpt3 y), (Hpt2 y).
    destruct (decide (sbelow R y)) as [Hy|Hy].
    2: { rewrite decide_False by tauto. done. }
    rewrite (settled_same S R fs Hun Hwf) by done.
    destruct (fs !! twin R S y) as [e|] eqn:He.
    + rewrite decide_False.
      2: { intros [_ Hk]. apply Hk. apply (proj2 (Hkept y (proj1 Hy))).
           unfold kept. rewrite He. eauto. }
      unfold settled. rewrite He.
      assert (copies fs S R (twin R S y)) as Hcp.
      { rewrite <- (copies_same S R fs Hun Hwf) by (by apply twin_source).
        apply Hgood. by apply twin_source. }
      unfold copies in Hcp. rewrite He, twin_twin in Hcp by apply Hy.
      by destruct Hcp as [e' ->].
    + rewrite decide_True; [done|]. split; [done|]. rewrite Hkept by apply Hy.
      unfold kept. rewrite He. by intros [??].
  - exists (evs1 ++ evs2 ++ evs3).
    split; [by rewrite Htr3, Htr2, Htr1, <- !app_assoc|].
    apply Forall_app. split; [|apply Forall_app; split].
    + eapply Forall_impl; [exact Hevs1|]. intros ev H. by left.
    + eapply Forall_impl; [exact Hevs2|]. intros ev H. right. left.
      by apply (produced_same S R fs Hun Hwf).
    + eapply Forall_impl; [exact Hevs3|]. intros ev H. right. right.
      destruct H as (x & e & Hev & Hx & Hsb & Hnk & Hanc).
      exists x, e. split; [done|].
      assert (~ kept fs S R x) as Hnk' by (by rewrite <- Hkept by apply Hsb).
      split; [|split; [done|split; [done|]]].
      * rewrite (Hpt2 x), decide_True in Hx by done.
        rewrite (settled_same S R fs Hun Hwf) in Hx by done.
        unfold settled in Hx. unfold kept in Hnk'.
        destruct (fs !! twin R S x); [|done]. destruct Hnk'. eauto.
      * intros y Hy Hyx. rewrite <- Hkept by apply Hy. by apply Hanc.
  - intros x e ev Hx He Hev. rewrite Htr3. apply elem_of_app. left.
    apply (Hcomp2 x e ev Hx).
    + by rewrite (source_same S R fs Hun Hwf) by apply Hx.
    + by rewrite (replica_same R fs Hwf) by (by apply twin_replica).
Qed.

(** *** Relations that every step of a pass is in *)

Section Steps.
Context (rel : relation state) `{!PreOrder rel}.

Lemma steps_pure {A} (m : M A) :
  (forall st, final (m st) = st) -> steps rel m.
Proof. intros H st. by rewrite H. Qed.

Lemma steps_ret {A} (a : A) : steps rel (ret a).
Proof. by apply steps_pure. Qed.

Lemma steps_raise {A} e : steps rel (raise (A := A) e).
Proof. by apply steps_pure. Qed.

Lemma steps_gets {A} (f : tree -> A) : steps rel (gets f).
Proof. by apply steps_pure. Qed.

Lemma steps_bind {A B} (m : M A) (k : A -> M B) :
  steps rel m -> (forall a, steps rel (k a)) -> steps rel (bind m k).
Proof.
  intros Hm Hk st. unfold bind. specialize (Hm st).
  destruct (m st) as [a st'|e st']; [|done].
  etrans; [exact Hm|apply Hk].
Qed.

Lemma steps_try_except {A} (m : M A) h :
  steps rel m -> (forall e k, h e = Some k -> steps rel k) ->
  steps rel (try_except m h).
Proof.
  intros Hm Hh st. unfold try_except. specialize (Hm st).
  destruct (m st) as [a st'|e st']; [done|].
  destruct (h e) as [k|] eqn:He; [|done].
  etrans; [exact Hm|by eapply Hh].
Qed.

Lemma steps_for_each {A} (l : list A) body :
  (forall x, x ∈ l -> steps rel (body x)) -> steps rel (for_each l body).
Proof.
  induction l as [|x l IH]; intros Hb; [apply steps_ret|].
  cbn [for_each]. apply steps_bind; [apply Hb; left|].
  intros _. apply IH. intros y Hy. apply Hb. by right.
Qed.

Lemma steps_scandir p : steps rel (scandir p).
Proof.
  apply steps_pure. intros st. unfold scandir.
  by destruct (files st !! p) as [[]|].
Qed.

Lemma steps_iterate root body :
  (forall n q, suffix root q -> steps rel (body (n :: q))) ->
  forall fuel p, suffix root p ->
    steps rel (iterate_directories fuel body p).
Proof.
  intros Hb. induction fuel as [|fuel IH]; intros p Hp; [apply steps_raise|].
  cbn [iterate_directories].
  apply steps_bind; [apply steps_scandir|]. intros entries.
  apply steps_bind; [apply steps_for_each; intros; by apply Hb|]. intros _.
  apply steps_bind; [apply steps_scandir|]. intros entries'.
  apply steps_for_each. intros [n b] _. cbn [fst snd].
  destruct b; [|apply steps_ret]. apply IH. by apply suffix_cons_r.
Qed.

Lemma steps_rglob fuel root body :
  (forall n q, suffix root q -> steps rel (body (n :: q))) ->
  steps rel (rglob fuel root body).
Proof.
  intros Hb. unfold rglob. apply steps_bind; [apply steps_gets|].
  intros []; [|apply steps_ret]. by apply (steps_iterate root).
Qed.

Lemma steps_relative_to item root : steps rel (relative_to item root).
Proof.
  apply steps_pure. intros st. unfold relative_to. by case_decide.
Qed.

Lemma steps_st_size p : steps rel (st_size p).
Proof.
  apply steps_pure. intros st. unfold st_size.
  by destruct (files st !! p) as [[]|].
Qed.

Lemma steps_open_rb p : steps rel (open_rb p).
Proof.
  apply steps_pure. intros st. unfold open_rb.
  by destruct (files st !! p) as [[? []|]|].
Qed.

(** The first loop and what goes before it make directories where
    nothing is and write files where nothing or a file is, and record no
    removal. *)
Section Making.
Hypothesis Hrec : forall ev, ~ deletion ev -> steps rel (record ev).
Hypothesis Hdir : forall p st,
  files st !! p = None ->
  rel st (State (<[p := Dir]> (files st)) (dir_size st) (trace st)).
Hypothesis Hfile : forall p c r st,
  files st !! p <> Some Dir ->
  rel st (State (<[p := File c r]> (files st)) (dir_size st) (trace st)).

Lemma steps_os_mkdir p : steps rel (os_mkdir p).
Proof.
  unfold os_mkdir. apply steps_bind; [apply Hrec; cbn; tauto|]. intros _ st.
  destruct (files st !! p) eqn:Hp; [done|].
  destruct p as [|n p]; [by apply Hdir|].
  destruct (files st !! p) as [[]|]; try done. by apply Hdir.
Qed.

Lemma steps_handler (exist_ok : bool) p e :
  steps rel (let* d := is_dir p in
             if negb exist_ok || negb d then raise e else ret tt).
Proof.
  apply steps_bind; [apply steps_gets|]. intros d.
  destruct (negb exist_ok || negb d); [apply steps_raise|apply steps_ret].
Qed.

Lemma steps_mkdir_plain exist_ok p : steps rel (mkdir_plain exist_ok p).
Proof.
  unfold mkdir_plain. apply steps_try_except; [apply steps_os_mkdir|].
  intros e k Hk. destruct e; simplify_eq; apply steps_handler.
Qed.

Lemma steps_mkdir_parents p : forall exist_ok,
  steps rel (mkdir_parents exist_ok p).
Proof.
  induction p as [|n p IH]; intros ok; cbn [mkdir_parents];
    (apply steps_try_except; [apply steps_os_mkdir|]);
    intros e k Hk; destruct e; simplify_eq; try apply steps_handler.
  apply steps_bind; [apply IH|]. intros _. apply steps_mkdir_plain.
Qed.

Lemma steps_write_file p c r : steps rel (write_file p c r).
Proof.
  intros st. unfold write_file.
  destruct (files st !! p) as [[]|] eqn:Hp; try done.
  - apply Hfile. by rewrite Hp.
  - destruct p as [|n p]; [done|].
    destruct (files st !! p) as [[]|]; try done.
    apply Hfile. by rewrite Hp.
Qed.

Lemma steps_copy2 src dst : steps rel (copy2 src dst).
Proof.
  unfold copy2. apply steps_bind; [apply Hrec; cbn; tauto|]. intros _.
  apply steps_bind; [apply steps_gets|]. intros d.
  case_decide; [apply steps_raise|].
  apply steps_bind; [apply steps_open_rb|]. intros c.
  apply steps_write_file.
Qed.

Lemma steps_logging m : ~ deletion (Logged m) -> steps rel (logging m).
Proof. apply Hrec. Qed.

Lemma steps_calculate_md5 p : steps rel (calculate_md5 p).
Proof.
  unfold calculate_md5. apply steps_bind; [apply Hrec; cbn; tauto|]. intros _.
  apply steps_try_except.
  - apply steps_bind; [apply steps_open_rb|]. intros f. apply steps_ret.
  - intros e k Hk. destruct (is_OSError e); simplify_eq.
    apply steps_bind; [apply steps_logging; cbn; tauto|]. intros _. apply steps_ret.
Qed.

Lemma steps_sync_item S R item : steps rel (sync_item S R item).
Proof.
  unfold sync_item. apply steps_bind; [apply steps_relative_to|].
  intros rel_path. apply steps_bind; [apply steps_gets|]. intros d.
  destruct d.
  - apply steps_bind; [apply steps_gets|]. intros e.
    destruct (negb e); [|apply steps_ret].
    apply steps_bind; [apply steps_mkdir_parents|]. intros _.
    apply steps_logging; cbn; tauto.
  - apply steps_bind; [apply steps_gets|]. intros e.
    destruct (negb e).
    + apply steps_bind; [apply steps_copy2|]. intros _.
      apply steps_logging; cbn; tauto.
    + apply steps_bind; [apply steps_st_size|]. intros s1.
      apply steps_bind; [apply steps_st_size|]. intros s2.
      case_decide.
      * apply steps_bind; [apply steps_calculate_md5|]. intros d1.
        apply steps_bind; [apply steps_calculate_md5|]. intros d2.
        case_decide; [|apply steps_ret].
        apply steps_bind; [apply steps_copy2|]. intros _.
        apply steps_logging; cbn; tauto.
      * apply steps_bind; [apply steps_copy2|]. intros _.
        apply steps_logging; cbn; tauto.
Qed.

Lemma steps_ensure_replica R : steps rel (ensure_replica R).
Proof.
  unfold ensure_replica. apply steps_bind; [apply steps_gets|]. intros e.
  destruct (negb e); [|apply steps_ret].
  apply steps_bind; [apply steps_mkdir_parents|]. intros _.
  apply steps_logging; cbn; tauto.
Qed.

Lemma steps_sync_loop S R : steps rel (sync_loop S R).
Proof.
  unfold sync_loop. apply steps_bind; [apply steps_gets|]. intros fuel.
  apply steps_rglob. intros n q _. apply steps_sync_item.
Qed.
End Making.

(** The second loop removes entries strictly below the replica root that
    have nothing at the corresponding path of the source. *)
Section Removing.
Variables (S R : path).
Hypothesis Hrec : forall ev, deletion_below R ev -> steps rel (record ev).
Hypothesis Hrmtree : forall item st,
  sbelow R item -> files st !! twin R S item = None ->
  rel st (State (filter (fun qe : path * entry => ~ suffix item (fst qe))
                        (files st))
                (dir_size st) (trace st)).
Hypothesis Hunlink : forall item st,
  sbelow R item -> files st !! twin R S item = None ->
  rel st (State (delete item (files st)) (dir_size st) (trace st)).

Lemma steps_remove_item item :
  sbelow R item -> steps rel (remove_item S R item).
Proof.
  intros Hitem st. unfold remove_item, bind.
  rewrite relative_to_suffix by apply Hitem. mstep.
  fold (twin R S item).
  destruct (files st !! twin R S item) as [e|] eqn:Hsrc.
  { by rewrite bool_decide_eq_true_2 by eauto. }
  rewrite bool_decide_eq_false_2 by (by intros [??]). cbn [negb].
  assert (forall ev, deletion_below R ev ->
            rel st (State (files st) (dir_size st) (trace st ++ [ev])))
    as Hr by (intros ev Hev; apply (Hrec ev Hev st)).
  destruct (files st !! item) as [[c r|]|] eqn:Hi.
  - rewrite bool_decide_eq_false_2 by done. unfold unlink. mstep. rewrite Hi.
    etrans; [apply (Hr (Called (Unlink item))); exists item; tauto|].
    etrans; [apply (Hunlink item); [done|done]|].
    apply (Hrec (Logged (DeletedFile item))). exists item. tauto.
  - rewrite bool_decide_eq_true_2 by done. unfold rmtree. mstep. rewrite Hi.
    etrans; [apply (Hr (Called (Rmtree item))); exists item; tauto|].
    etrans; [apply (Hrmtree item); [done|done]|].
    apply (Hrec (Logged (DeletedDirectory item))). exists item. tauto.
  - rewrite bool_decide_eq_false_2 by done. unfold unlink. mstep. rewrite Hi.
    apply (Hr (Called (Unlink item))). exists item. tauto.
Qed.

Lemma steps_remove_loop : steps rel (remove_loop S R).
Proof.
  unfold remove_loop. apply steps_bind; [apply steps_gets|]. intros fuel.
  apply steps_rglob. intros n q Hq. apply steps_remove_item.
  split; [by apply suffix_cons_r|]. intros <-. by apply suffix_cons_not in Hq.
Qed.
End Removing.
End Steps.

#[global] Instance keeps_outside_preorder R : PreOrder (keeps_outside R).
Proof.
  split.
  - intros st x e _ Hx. eauto.
  - intros st1 st2 st3 H12 H23 x e Hx He.
    destruct (H12 x e Hx He) as (e' & He' & Hk).
    destruct (H23 x e' Hx He') as (e'' & He'' & Hk'). exists e''.
    split; [done|congruence].
Qed.

#[global] Instance appends_preorder ok : PreOrder (appends ok).
Proof.
  split.
  - intros st. exists []. by rewrite app_nil_r.
  - intros st1 st2 st3 (evs & H1 & Hf) (evs' & H2 & Hf'). exists (evs ++ evs').
    split; [by rewrite H2, H1, app_assoc|by apply Forall_app].
Qed.

Lemma guarded_source (S R : path) (fs : tree) (k : path) :
  unrelated S R -> guarded S R fs (k ++ S).
Proof.
  intros Hun q Hq [HR _]. exfalso.
  eapply unrelated_apart; [exact Hun| |etrans; [exact HR|exact Hq]].
  by apply suffix_app_r.
Qed.

Lemma keeps_guarded_preorder (S R : path) :
  unrelated S R -> PreOrder (keeps_guarded S R).
Proof.
  intros Hun. split.
  - intros st y e Hy _. eauto.
  - intros st1 st2 st3 H12 H23 y e Hy Hg.
    destruct (H12 y e Hy Hg) as (e' & He' & Hk).
    destruct (H23 y e' He') as (e'' & He'' & Hk'); [|exists e''; split; congruence].
    intros q Hq Hsb. destruct (Hg q Hq Hsb) as [et Het].
    destruct (H12 (twin R S q) et Het) as (et' & Het' & _); [|eauto].
    destruct Hsb as [[k ->] _]. rewrite twin_app. by apply guarded_source.
Qed.

(** *** The replica root after a pass *)

Lemma keeps_outside_record R ev : steps (keeps_outside R) (record ev).
Proof. intros st x e _ Hx. eauto. Qed.

Lemma keeps_all_dir (p : path) (st : state) :
  files st !! p = None ->
  forall x e, files st !! x = Some e ->
    exists e', <[p := Dir]> (files st) !! x = Some e' /\ kind_of e' = kind_of e.
Proof.
  intros Hp x e Hx. exists e. split; [|done].
  rewrite lookup_insert_ne; [done|]. intros ->. congruence.
Qed.

Lemma keeps_all_file (p : path) c r (st : state) :
  files st !! p <> Some Dir ->
  forall x e, files st !! x = Some e ->
    exists e', <[p := File c r]> (files st) !! x = Some e' /\
               kind_of e' = kind_of e.
Proof.
  intros Hp x e Hx. destruct (decide (x = p)) as [->|Hne].
  - rewrite lookup_insert_eq. eexists. split; [done|]. by destruct e.
  - rewrite lookup_insert_ne by done. eauto.
Qed.

Ltac outside_making :=
  first [ apply _
        | intros; apply keeps_outside_record
        | intros ? ? ? ? ? _; by apply keeps_all_dir
        | intros ? ? ? ? ? ? ? _; by apply keeps_all_file ].

Lemma steps_outside_remove S R : steps (keeps_outside R) (remove_loop S R).
Proof.
  apply steps_remove_loop; [apply _| | |].
  - intros. apply keeps_outside_record.
  - intros item st Hi _ x e Hx He. exists e. split; [|done]. cbn [files].
    rewrite lookup_without. rewrite decide_False; [done|]. intros Hs.
    apply Hx. by eapply sbelow_trans.
  - intros item st Hi _ x e Hx He. exists e. split; [|done]. cbn [files].
    rewrite lookup_delete_ne; [done|]. by intros ->.
Qed.

Lemma steps_outside_pass S R :
  steps (keeps_outside R) (sync_directories S R).
Proof.
  rewrite sync_directories_parts.
  apply steps_bind; [apply _| |intros _].
  - apply steps_ensure_replica; outside_making.
  - apply steps_bind; [apply _| |intros _; apply steps_outside_remove].
    apply steps_sync_loop; outside_making.
Qed.

Lemma appends_record (ok : event -> Prop) ev :
  ok ev -> steps (appends ok) (record ev).
Proof. intros H st. exists [ev]. split; [done|by apply Forall_singleton]. Qed.

Lemma appends_same (ok : event -> Prop) (st : state) (fs : tree) :
  appends ok st (State fs (dir_size st) (trace st)).
Proof. exists []. by rewrite app_nil_r. Qed.

Ltac appends_steps :=
  first [ apply _
        | intros ev Hev; apply appends_record; by intros ?
        | intros; apply appends_same ].

Lemma steps_appends_pass S R :
  steps (appends (removes_below R)) (sync_directories S R).
Proof.
  rewrite sync_directories_parts.
  apply steps_bind; [apply _| |intros _].
  - apply steps_ensure_replica; appends_steps.
  - apply steps_bind; [apply _| |intros _].
    + apply steps_sync_loop; appends_steps.
    + apply steps_remove_loop; appends_steps.
Qed.

Lemma mkdir_handler_done (ok : bool) p e st st' :
  (let* d := is_dir p in if negb ok || negb d then raise e else ret tt) st
  = Done tt st' ->
  files st' !! p = Some Dir.
Proof.
  mstep. destruct (decide (files st !! p = Some Dir)) as [H|H].
  - rewrite bool_decide_eq_true_2 by done. destruct (negb ok); cbn; [done|].
    by intros [= <-].
  - rewrite bool_decide_eq_false_2 by done. by rewrite orb_true_r.
Qed.

Lemma os_mkdir_done p st st' :
  os_mkdir p st = Done tt st' -> files st' !! p = Some Dir.
Proof.
  rewrite os_mkdir_run. cbn zeta. destruct (files st !! p); [done|].
  destruct p as [|n p].
  - intros [= <-]. cbn [update files]. by rewrite lookup_insert_eq.
  - destruct (files st !! p) as [[]|]; try done.
    intros [= <-]. cbn [update files]. by rewrite lookup_insert_eq.
Qed.

Lemma mkdir_plain_done ok p st st' :
  mkdir_plain ok p st = Done tt st' -> files st' !! p = Some Dir.
Proof.
  unfold mkdir_plain, try_except.
  destruct (os_mkdir p st) as [[] s1|e s1] eqn:Hos.
  - intros [= <-]. by eapply os_mkdir_done.
  - destruct e; try done; apply mkdir_handler_done.
Qed.

Lemma mkdir_parents_done ok p st st' :
  mkdir_parents ok p st = Done tt st' -> files st' !! p = Some Dir.
Proof.
  destruct p as [|n p]; cbn [mkdir_parents]; unfold try_except;
    (destruct (os_mkdir _ st) as [[] s1|e s1] eqn:Hos;
     [intros [= <-]; by eapply os_mkdir_done|]);
    destruct e; try done; try apply mkdir_handler_done.
  unfold bind. destruct (mkdir_parents true p s1) as [[] s2|]; [|done].
  apply mkdir_plain_done.
Qed.

Lemma ensure_replica_done R st st' :
  ensure_replica R st = Done tt st' ->
  exists e, files st' !! R = Some e /\
    match files st !! R with
    | Some e0 => e = e0
    | None => e = Dir
    end.
Proof.
  unfold ensure_replica. mstep. destruct (files st !! R) as [e|] eqn:HR.
  - rewrite bool_decide_eq_true_2 by eauto. cbn [negb]. intros [= <-]. eauto.
  - rewrite bool_decide_eq_false_2 by (by intros [??]). cbn [negb].
    destruct (mkdir_parents false R st) as [[] s1|] eqn:Hm; [|done].
    intros [= <-]. cbn [files]. exists Dir. split; [|done].
    by eapply mkdir_parents_done.
Qed.

Lemma steps_outside_loops S R :
  steps (keeps_outside R) (sync_loop S R ;;; remove_loop S R).
Proof.
  apply steps_bind; [apply _| |intros _; apply steps_outside_remove].
  apply steps_sync_loop; outside_making.
Qed.

Lemma kind_dir e : kind_of e = KDir -> e = Dir.
Proof. by destruct e. Qed.

(** C10.  A pass that returns leaves the replica root in place: a directory
    if the pass made it, what it was otherwise; and whatever the pass
    removed was strictly below the root. *)
Theorem replica_root_survives S R st st' :
  sync_directories S R st = Done tt st' ->
  (exists e, files st' !! R = Some e /\
     match files st !! R with
     | Some e0 => kind_of e = kind_of e0
     | None => e = Dir
     end) /\
  exists evs, trace st' = trace st ++ evs /\ Forall (removes_below R) evs.
Proof.
  intros Hrun. split.
  - rewrite sync_directories_parts in Hrun. unfold bind at 1 in Hrun.
    destruct (ensure_replica R st) as [[] s1|] eqn:He; [|done].
    destruct (ensure_replica_done R st s1 He) as (e1 & He1 & Hm).
    pose proof (steps_outside_loops S R s1 R e1) as Hk. rewrite Hrun in Hk.
    destruct Hk as (e' & He' & Hkind); [by intros [_ ?]|done|].
    exists e'. split; [done|]. destruct (files st !! R).
    + by subst.
    + subst. by apply kind_dir.
  - pose proof (steps_appends_pass S R st) as H. by rewrite Hrun in H.
Qed.

Lemma creatable_dirs (fs : tree) R q :
  wf fs -> creatable fs R -> suffix q R -> with_dirs R fs !! q = Some Dir.
Proof.
  intros Hwf Hc Hq. rewrite lookup_with_dirs by done.
  destruct (Hc q Hq) as [H|H].
  - by rewrite decide_True.
  - rewrite decide_False; [done|]. intros [_ ?]. congruence.
Qed.

(** C9.  The script stops with [ValueError], having done nothing, when the
    source is not a directory.  When it is, and the replica root is not
    there, the script warns and goes on to [main]; the pass then makes the
    root and the directories above it that are missing, and they are there
    when the pass stops. *)
Theorem entry_checks S R interval log schedule st :
  (files st !! S <> Some Dir ->
   __main__ S R interval log schedule st = Raised ValueError st) /\
  (files st !! S = Some Dir -> wf (files st) -> files st !! R = None ->
   creatable (files st) R ->
   __main__ S R interval log schedule st =
   main S R interval log schedule
     (update st (files st) [Logged (ReplicaWillBeCreated R)]) /\
   forall st0, files st0 = files st ->
     (exists s1, ensure_replica R st0 = Done tt s1) /\
     forall q, suffix q R ->
       files (final (sync_directories S R st0)) !! q = Some Dir).
Proof.
  split.
  - intros HS. unfold __main__. mstep. by rewrite bool_decide_eq_false_2.
  - intros HS Hwf HR Hc. split.
    + unfold __main__. mstep. rewrite bool_decide_eq_true_2 by done.
      cbn [negb]. rewrite bool_decide_eq_false_2 by congruence. done.
    + intros st0 Hfs. rewrite <- Hfs in *.
      pose proof (ensure_replica_spec R st0 Hwf) as He.
      destruct (ensure_replica R st0) as [[] s1|e s1] eqn:Hrun.
      2: { by destruct He as [_ []]. }
      split; [eauto|]. intros q Hq.
      destruct He as (_ & Hfs1 & _).
      rewrite sync_directories_parts. unfold bind at 1. rewrite Hrun.
      destruct (steps_outside_loops S R s1 q Dir) as (e' & He' & Hk).
      * intros Hsb. by apply sbelow_not_above in Hsb.
      * rewrite Hfs1. by apply creatable_dirs.
      * rewrite He'. f_equal. by apply kind_dir.
Qed.

(** *** Entries that the source has too *)

Section Guarded.
Variables (S R : path).
Hypothesis Hun : unrelated S R.

Local Instance guarded_preorder : PreOrder (keeps_guarded S R).
Proof. by apply keeps_guarded_preorder. Qed.

Lemma guarded_record ev : steps (keeps_guarded S R) (record ev).
Proof. intros st y e Hy _. eauto. Qed.

Lemma steps_guarded_pass : steps (keeps_guarded S R) (sync_directories S R).
Proof.
  assert (forall ev, steps (keeps_guarded S R) (record ev)) as Hrec
    by apply guarded_record.
  assert (forall (p : path) (st : state), files st !! p = None ->
            keeps_guarded S R st
              (State (<[p := Dir]> (files st)) (dir_size st) (trace st)))
    as Hdir by (intros p st Hp y e Hy _; by apply keeps_all_dir).
  assert (forall (p : path) c r (st : state), files st !! p <> Some Dir ->
            keeps_guarded S R st
              (State (<[p := File c r]> (files st)) (dir_size st) (trace st)))
    as Hfile by (intros p c r st Hp y e Hy _; by apply keeps_all_file).
  rewrite sync_directories_parts.
  apply steps_bind; [apply _| |intros _].
  { apply steps_ensure_replica; auto. apply _. }
  apply steps_bind; [apply _| |intros _].
  { apply steps_sync_loop; auto. apply _. }
  apply steps_remove_loop; [apply _|auto| |].
  - intros item st Hi Hsrc y e Hy Hg. exists e. split; [|done]. cbn [files].
    rewrite lookup_without. rewrite decide_False; [done|]. intros Hs.
    destruct (Hg item Hs Hi) as [? ?]. congruence.
  - intros item st Hi Hsrc y e Hy Hg. exists e. split; [|done]. cbn [files].
    rewrite lookup_delete_ne; [done|]. intros <-.
    destruct (Hg item ltac:(done) Hi) as [? ?]. congruence.
Qed.
End Guarded.

(** C6, as the code has it.  Nothing reconciles a type mismatch: an entry
    of the replica whose path the source has too is not removed by the pass,
    and is a file or a directory afterwards as it was before, whatever the
    source has there and however the pass ends. *)
Theorem mismatch_stays S R st rel e1 e2 :
  unrelated S R -> wf (files st) ->
  files st !! (rel ++ S) = Some e1 -> files st !! (rel ++ R) = Some e2 ->
  exists e',
    files (final (sync_directories S R st)) !! (rel ++ R) = Some e' /\
    kind_of e' = kind_of e2.
Proof.
  intros Hun Hwf H1 H2.
  apply (steps_guarded_pass S R Hun st (rel ++ R) e2 H2).
  intros q Hq [[k ->] _]. rewrite twin_app.
  apply suffix_app_inv in Hq.
  eapply (wf_below (files st) (k ++ S) (rel ++ S)); [done| |eauto].
  by apply suffix_app.
Qed.

(** C7.  The second loop always returns.  It leaves nothing below the
    replica root that the source lacks, nor anything below such an entry;
    what the source has stays as it is, and so does everything outside the
    replica.  What it removes, it removes by one [rmtree] on a directory or
    one [unlink] on a file, and only on entries whose directories above are
    all in the source: nothing that went with a directory is visited. *)
Theorem pruning S R st :
  unrelated S R -> wf (files st) ->
  exists st',
    remove_loop S R st = Done tt st' /\
    (forall y, sbelow R y -> ~ kept (files st) S R y -> files st' !! y = None) /\
    (forall q y, sbelow R q -> ~ kept (files st) S R q -> suffix q y ->
                 files st' !! y = None) /\
    (forall y, sbelow R y -> kept (files st) S R y ->
               files st' !! y = files st !! y) /\
    (forall y, ~ sbelow R y -> files st' !! y = files st !! y) /\
    exists evs, trace st' = trace st ++ evs /\
                Forall (removal (files st) S R) evs.
Proof.
  intros Hun Hwf.
  destruct (remove_loop_spec S R st Hun Hwf)
    as (st' & Hrun & Hpt & _ & _ & Hev).
  exists st'. split; [done|].
  assert (forall y, sbelow R y -> ~ kept (files st) S R y ->
            files st' !! y = None) as Hgone.
  { intros y Hy Hk. rewrite (Hpt y). by rewrite decide_True. }
  split; [done|]. split; [|split; [|split; [|done]]].
  - intros q y Hq Hk Hy. apply Hgone; [by eapply sbelow_trans|].
    intros Hky. apply Hk. eapply kept_ancestor; eauto. apply Hq.
  - intros y Hy Hk. rewrite (Hpt y). rewrite decide_False; [done|]. tauto.
  - intros y Hy. rewrite (Hpt y). rewrite decide_False; [done|]. tauto.
Qed.

Lemma settle_idem e old e' :
  settle e old = Some e' -> settle e (Some e') = Some e'.
Proof.
  destruct e as [c r|], old as [[c' r'|]|]; cbn [settle]; try done.
  - destruct (decide _) as [Hd|Hd].
    + intros [= <-]. cbn [settle]. by rewrite decide_True.
    + destruct r; [|done]. intros [= <-]. cbn [settle]. by rewrite decide_True.
  - destruct r; [|done]. intros [= <-]. cbn [settle]. by rewrite decide_True.
Qed.

Lemma settle_kind e old e' :
  settle e old = Some e' ->
  match old with Some eo => kind_of e = kind_of eo | None => True end ->
  kind_of e' = kind_of e.
Proof.
  destruct e as [c r|], old as [[c' r'|]|]; cbn [settle]; try done;
    try (by intros [= <-]).
  - destruct (decide _); [by intros [= <-]|]. destruct r; [|done]. by intros [= <-].
  - destruct r; [|done]. by intros [= <-].
Qed.

Lemma settle_same_entry e old e' x dst :
  settle e old = Some e' ->
  match old with Some eo => kind_of e = kind_of eo | None => True end ->
  (forall p ex, Logged (ErrorCalculatingMD5 p ex) ∉ item_events x dst e old) ->
  same_entry (Some e) (Some e').
Proof.
  destruct e as [c r|], old as [[c' r'|]|]; cbn [settle item_events]; try done.
  - intros Hs _ Hlog. destruct (decide (length c = length c')) as [Hl|Hl].
    + destruct (decide (digest_of c r = digest_of c' r')) as [Hd|Hd].
      * rewrite decide_True in Hs by done. injection Hs as <-.
        destruct r, r'; try done.
        -- cbn in Hd. split; [done|congruence].
        -- destruct (Hlog x PermissionError). cbn. set_solver.
      * rewrite decide_False in Hs by tauto. destruct r; [|done].
        by injection Hs as <-.
    + rewrite decide_False in Hs by tauto. destruct r; [|done].
      by injection Hs as <-.
  - destruct r; [|done]. by intros [= <-].
  - by intros [= <-].
  - by intros [= <-].
Qed.

(** C1, as the code has it.  After a pass that returns, with no type
    mismatch before it and no digest failure logged, the source is as it
    was, and the replica has at every path what the source has there up to
    what the pass compares: nothing, a directory, or a file of the same size
    and the same MD5 digest. *)
Theorem mirror_up_to_digest S R st st' :
  unrelated S R -> wf (files st) -> compatible (files st) S R ->
  sync_directories S R st = Done tt st' ->
  (forall p e, Logged (ErrorCalculatingMD5 p e) ∉ trace st') ->
  forall rel, rel <> [] ->
    files st' !! (rel ++ S) = files st !! (rel ++ S) /\
    same_entry (files st' !! (rel ++ S)) (files st' !! (rel ++ R)).
Proof.
  intros Hun Hwf Hc Hrun Hlog rel Hrel.
  pose proof (pass_spec S R st Hun Hwf (fun _ => Hc)) as Hp.
  rewrite Hrun in Hp. destruct Hp as (_ & Hgood & Hpt & _ & _ & _ & Hcomp).
  assert (sbelow S (rel ++ S)) as HxS by (by apply sbelow_root_app).
  assert (sbelow R (rel ++ R)) as HyR by (by apply sbelow_root_app).
  assert (files st' !! (rel ++ S) = files st !! (rel ++ S)) as Hsrc.
  { rewrite (Hpt (rel ++ S)). rewrite decide_False.
    - apply (source_same S R); [done|done|by apply suffix_app_r].
    - intros [H _]. by apply (source_apart S R Hun) in H. }
  split; [done|]. rewrite Hsrc, (Hpt (rel ++ R)), decide_True, twin_app by done.
  specialize (Hgood _ HxS). unfold copies in Hgood. rewrite twin_app in Hgood.
  destruct (files st !! (rel ++ S)) as [e|] eqn:He; [|done].
  destruct Hgood as [e' He']. rewrite He'.
  eapply (settle_same_entry e _ e' (rel ++ S) (rel ++ R)); [done| |].
  - destruct (files st !! (rel ++ R)) eqn:Hr; [|done].
    apply (compatible_at (files st) S R (rel ++ S)); try done.
    + by apply suffix_app_r.
    + by rewrite twin_app.
  - intros p ex Hin. apply (Hlog p ex).
    apply (Hcomp (rel ++ S) e); [done|done|]. by rewrite twin_app.
Qed.

Lemma settled_events_quiet e e' x dst ev :
  settle e (Some e') = Some e' ->
  ev ∈ item_events x dst e (Some e') -> quiet ev.
Proof.
  destruct e as [c r|], e' as [c' r'|]; cbn [settle item_events]; try done.
  - destruct (decide (length c = length c' /\ _)) as [[Hl Hd]|Hn].
    + intros _. rewrite decide_True by done. rewrite decide_True by done.
      rewrite app_nil_r. unfold hash_events.
      intros Hin. apply elem_of_app in Hin as [Hin|Hin];
        [destruct r|destruct r'];
        repeat (apply elem_of_cons in Hin as [->|Hin]; [done|]);
        by apply elem_of_nil in Hin.
    + destruct r; [|done]. intros [= <- <-]. destruct Hn. done.
  - intros _ Hin. by apply elem_of_nil in Hin.
  - intros _ Hin. by apply elem_of_nil in Hin.
Qed.

Section Again.
Variables (S R : path) (st st1 : state).
Hypothesis Hun : unrelated S R.
Hypothesis Hwf : wf (files st).
Hypothesis Hc : compatible (files st) S R.
Hypothesis Hrun : sync_directories S R st = Done tt st1.

Local Abbreviation fs := (files st).

Lemma first_pass :
  (forall x, sbelow S x -> copies fs S R x) /\
  (forall y, files st1 !! y =
     if decide (sbelow R y) then
       match fs !! twin R S y with
       | Some e => settle e (fs !! y)
       | None => None
       end
     else with_dirs R fs !! y) /\
  wf (files st1).
Proof.
  pose proof (pass_spec S R st Hun Hwf (fun _ => Hc)) as Hp.
  rewrite Hrun in Hp. tauto.
Qed.

Lemma again_source x : suffix S x -> files st1 !! x = fs !! x.
Proof.
  intros Hx. destruct first_pass as (_ & Hpt & _). rewrite (Hpt x).
  rewrite decide_False.
  - by apply (source_same S R).
  - intros [H _]. eapply unrelated_apart; eauto.
Qed.

Lemma again_root : is_Some (files st1 !! R).
Proof.
  destruct first_pass as (_ & Hpt & _). rewrite (Hpt R).
  rewrite decide_False by (by intros [_ ?]).
  rewrite lookup_with_dirs by done. case_decide as Hd; [eauto|].
  destruct (fs !! R) eqn:HR; [eauto|]. destruct Hd. done.
Qed.

Lemma again_settled x e :
  sbelow S x -> fs !! x = Some e ->
  exists e', files st1 !! twin S R x = Some e' /\
             settle e (fs !! twin S R x) = Some e'.
Proof.
  intros Hx He. destruct first_pass as (Hgood & Hpt & _).
  specialize (Hgood x Hx). unfold copies in Hgood. rewrite He in Hgood.
  destruct Hgood as [e' He']. exists e'. split; [|done].
  rewrite (Hpt (twin S R x)). rewrite decide_True by (by apply twin_replica).
  rewrite twin_twin by apply Hx. by rewrite He.
Qed.

Lemma again_compatible :
  fs !! S = Some Dir -> compatible (files st1) S R.
Proof.
  intros HS x e Hx Hs. rewrite again_source in Hx by done.
  destruct (decide (x = S)) as [->|Hne].
  - rewrite twin_self. destruct first_pass as (_ & Hpt & _). rewrite (Hpt R).
    rewrite decide_False by (by intros [_ ?]).
    rewrite lookup_with_dirs by done.
    destruct (fs !! R) as [er|] eqn:HR.
    + rewrite decide_False by (by intros [_ ?]).
      apply (compatible_at fs S R S); try done. by rewrite twin_self.
    + rewrite decide_True by done. congruence.
  - destruct (again_settled x e) as (e' & -> & Hset); [by split|done|].
    symmetry. eapply settle_kind; [exact Hset|].
    destruct (fs !! twin S R x) eqn:Ht; [|done].
    by eapply compatible_at.
Qed.

Lemma again_copies x : sbelow S x -> copies (files st1) S R x.
Proof.
  intros Hx. unfold copies. rewrite again_source by apply Hx.
  destruct (fs !! x) as [e|] eqn:He; [|done].
  destruct (again_settled x e Hx He) as (e' & -> & Hset).
  rewrite (settle_idem _ _ _ Hset). eauto.
Qed.

Lemma again_same st2 :
  (forall y, files st2 !! y =
     if decide (sbelow R y) then
       match files st1 !! twin R S y with
       | Some e => settle e (files st1 !! y)
       | None => None
       end
     else with_dirs R (files st1) !! y) ->
  files st2 = files st1.
Proof.
  intros Hpt2. apply map_eq. intros y. rewrite (Hpt2 y).
  destruct (decide (sbelow R y)) as [Hy|Hy].
  - rewrite again_source by (by apply suffix_twin; apply Hy).
    destruct first_pass as (_ & Hpt & _).
    destruct (fs !! twin R S y) as [e|] eqn:He.
    + destruct (again_settled (twin R S y) e) as (e' & He' & Hset);
        [by apply twin_source|done|].
      rewrite twin_twin in He', Hset by apply Hy. rewrite He'.
      by eapply settle_idem.
    + rewrite (Hpt y), decide_True by done. by rewrite He.
  - destruct again_root as [e He]. by erewrite with_dirs_exists.
Qed.

Lemma again_quiet ev : pass_event (files st1) S R ev -> quiet ev.
Proof.
  intros [[HR _]|[Hev|Hev]].
  - destruct again_root as [e He]. congruence.
  - destruct Hev as (x & e & Hx & He & Hin).
    rewrite again_source in He by apply Hx.
    destruct (again_settled x e Hx He) as (e' & He' & Hset).
    rewrite He' in Hin. eapply settled_events_quiet; [|exact Hin].
    by eapply settle_idem.
  - destruct Hev as (x & e & _ & He & Hx & Hnk & _). exfalso. apply Hnk.
    unfold kept. rewrite again_source by (by apply suffix_twin; apply Hx).
    destruct first_pass as (_ & Hpt & _).
    rewrite (Hpt x), decide_True in He by done.
    destruct (fs !! twin R S x); [eauto|done].
Qed.
End Again.

(** C2, as the code has it.  When there was no type mismatch before a pass
    that returns, the next pass on the same source returns too, leaves the
    tree as it is, and does nothing but read files for their digests. *)
Theorem second_pass_quiet S R st st1 :
  unrelated S R -> wf (files st) -> compatible (files st) S R ->
  sync_directories S R st = Done tt st1 ->
  exists st2,
    sync_directories S R st1 = Done tt st2 /\
    files st2 = files st1 /\
    exists evs, trace st2 = trace st1 ++ evs /\ Forall quiet evs.
Proof.
  intros Hun Hwf Hc Hrun.
  destruct (first_pass S R st st1 Hun Hwf Hc Hrun) as (_ & _ & Hwf1).
  pose proof (pass_spec S R st1 Hun Hwf1) as Hp.
  match type of Hp with ?A -> _ => assert A as Hc1 end.
  { intros HS. apply (again_compatible S R st st1); try done.
    by rewrite <- (again_source S R st st1). }
  specialize (Hp Hc1).
  destruct (sync_directories S R st1) as [[] st2|e st2].
  - destruct Hp as (_ & _ & Hpt2 & _ & _ & (evs & Htr & Hevs) & _).
    exists st2. split; [done|]. split.
    + by apply (again_same S R st st1).
    + exists evs. split; [done|]. eapply Forall_impl; [exact Hevs|].
      intros ev. by apply (again_quiet S R st st1).
  - exfalso. destruct Hp as [[HR _]|(x & Hx & Hbad)].
    + destruct (again_root S R st st1) as [? ?]; try done. congruence.
    + apply Hbad. by apply (again_copies S R st st1).
Qed.





(** *** The loop of [main] *)

Lemma main_run S R interval log schedule st :
  main S R interval log schedule st =
  match while_true schedule S R (started S R interval st) with
  | Done status st' => Done status st'
  | Raised e st' => Done Returned (update st' (files st') [Logged (last_words e)])
  end.
Proof.
  unfold main, setup_logging. mstep. unfold try_except.
  replace (State (files st) (dir_size st)
             ((trace st ++ [Logged (Starting S R)]) ++ [Logged (Interval interval)]))
    with (started S R interval st)
    by (unfold started, update; by rewrite <- app_assoc).
  destruct (while_true schedule S R _) as [s st'|e st']; [done|].
  by destruct e.
Qed.



(** ** More of what the code does *)

(** *** [calculate_md5] *)


(** *** What is outside the replica *)

#[global] Instance untouched_outside_preorder R : PreOrder (untouched_outside R).
Proof.
  split.
  - by intros st x e _ Hx.
  - intros st1 st2 st3 H12 H23 x e Hx He. apply H23; [done|]. by apply H12.
Qed.

(** The first loop writes files strictly below the replica root only. *)
Section Within.
Context (rel : relation state) `{!PreOrder rel}.
Variable R : path.
Hypothesis Hrec : forall ev, steps rel (record ev).
Hypothesis Hdir : forall p st,
  files st !! p = None ->
  rel st (State (<[p := Dir]> (files st)) (dir_size st) (trace st)).
Hypothesis Hfile : forall p c r st,
  sbelow R p -> files st !! p <> Some Dir ->
  rel st (State (<[p := File c r]> (files st)) (dir_size st) (trace st)).

Lemma within_write_file p c r : sbelow R p -> steps rel (write_file p c r).
Proof.
  intros HR st. unfold write_file.
  destruct (files st !! p) as [[]|] eqn:Hp; try done.
  - apply Hfile; [done|]. by rewrite Hp.
  - destruct p as [|n p]; [done|].
    destruct (files st !! p) as [[]|]; try done.
    apply Hfile; [done|]. by rewrite Hp.
Qed.

Lemma within_copy2 src dst : sbelow R dst -> steps rel (copy2 src dst).
Proof.
  intros HR. unfold copy2. apply steps_bind; [done|apply Hrec|]. intros _.
  apply steps_bind; [done|by apply steps_gets|]. intros d.
  case_decide; [by apply steps_raise|].
  apply steps_bind; [done|by apply steps_open_rb|]. intros c.
  apply within_write_file. destruct d; [|done].
  eapply sbelow_trans; [exact HR|]. by apply suffix_cons_r.
Qed.

Lemma within_sync_item S item :
  sbelow S item -> steps rel (sync_item S R item).
Proof.
  intros Hi st. unfold sync_item. unfold bind at 1.
  rewrite relative_to_suffix by apply Hi. cbn beta iota.
  fold (twin S R item).
  assert (sbelow R (twin S R item)) as HR.
  { rewrite <- (twin_self S R) at 1. by apply twin_sbelow. }
  assert (forall ev, ~ deletion ev -> steps rel (record ev)) as Hrec'
    by (intros ev _; apply Hrec).
  revert st. refine (_ : steps rel _).
  apply steps_bind; [done|by apply steps_gets|]. intros d.
  assert (forall m, steps rel (copy2 item (twin S R item) ;;; logging m))
    as Hcopy.
  { intros m. apply steps_bind; [done|by apply within_copy2|]. intros _.
    apply Hrec. }
  destruct d.
  - apply steps_bind; [done|by apply steps_gets|]. intros e.
    destruct (negb e); [|by apply steps_ret].
    apply steps_bind; [done|by apply steps_mkdir_parents|]. intros _.
    apply Hrec.
  - apply steps_bind; [done|by apply steps_gets|]. intros e.
    destruct (negb e); [apply Hcopy|].
    apply steps_bind; [done|by apply steps_st_size|]. intros s1.
    apply steps_bind; [done|by apply steps_st_size|]. intros s2.
    case_decide; [|apply Hcopy].
    apply steps_bind; [done|by apply steps_calculate_md5|]. intros d1.
    apply steps_bind; [done|by apply steps_calculate_md5|]. intros d2.
    case_decide; [apply Hcopy|by apply steps_ret].
Qed.

Lemma within_sync_loop S : steps rel (sync_loop S R).
Proof.
  unfold sync_loop. apply steps_bind; [done|by apply steps_gets|]. intros fuel.
  apply steps_rglob; [done|]. intros n q Hq. apply within_sync_item.
  split; [by apply suffix_cons_r|]. intros <-. by apply suffix_cons_not in Hq.
Qed.
End Within.

Lemma untouched_record R ev : steps (untouched_outside R) (record ev).
Proof. by intros st x e _ Hx. Qed.

(** X2.  However a pass ends, whatever is not strictly below the replica
    root is afterwards as it was: the pass writes and removes nothing
    outside the replica, whatever the source and the replica are. *)
Theorem outside_replica_untouched S R st x e :
  ~ sbelow R x -> files st !! x = Some e ->
  files (final (sync_directories S R st)) !! x = Some e.
Proof.
  revert x e. change (untouched_outside R st (final (sync_directories S R st))).
  revert st. change (steps (untouched_outside R) (sync_directories S R)).
  assert (forall (p : path) (st : state), files st !! p = None ->
            untouched_outside R st
              (State (<[p := Dir]> (files st)) (dir_size st) (trace st)))
    as Hdir.
  { intros p st Hp x e _ Hx. cbn [files]. rewrite lookup_insert_ne; [done|].
    intros ->. congruence. }
  rewrite sync_directories_parts.
  apply steps_bind; [apply _| |intros _].
  { apply steps_ensure_replica; [apply _| |done]. intros ev _.
    apply untouched_record. }
  apply steps_bind; [apply _| |intros _].
  { apply within_sync_loop; [apply _|apply untouched_record|done|].
    intros p c r st Hp _ x e Hx He. cbn [files].
    rewrite lookup_insert_ne; [done|]. by intros ->. }
  apply steps_remove_loop; [apply _| | |].
  - intros ev _. apply untouched_record.
  - intros item st Hi _ x e Hx He. cbn [files]. rewrite lookup_without.
    rewrite decide_False; [done|]. intros Hs. apply Hx. by eapply sbelow_trans.
  - intros item st Hi _ x e Hx He. cbn [files].
    rewrite lookup_delete_ne; [done|]. by intros ->.
Qed.

(** *** The order of what a pass does *)

(** X3.  However a pass ends, what it did is first making and copying, with
    no removal, and then removals only, all strictly below the replica root:
    nothing is made or copied once something was removed. *)
Theorem making_before_removing S R st :
  exists made removed,
    trace (final (sync_directories S R st)) = trace st ++ made ++ removed /\
    Forall (fun ev => ~ deletion ev) made /\
    Forall (deletion_below R) removed.
Proof.
  set (making := fun ev : event => ~ deletion ev).
  assert (forall ev, ~ deletion ev -> steps (appends making) (record ev))
    as Hrec by (intros ev Hev; by apply appends_record).
  assert (steps (appends making) (ensure_replica R)) as H1.
  { apply steps_ensure_replica; [apply _|done|]. intros. apply appends_same. }
  assert (steps (appends making) (sync_loop S R)) as H2.
  { apply steps_sync_loop; [apply _|done|..]; intros; apply appends_same. }
  assert (steps (appends (deletion_below R)) (remove_loop S R)) as H3.
  { apply steps_remove_loop; [apply _|..].
    - intros ev Hev. by apply appends_record.
    - intros. apply appends_same.
    - intros. apply appends_same. }
  rewrite sync_directories_parts. unfold bind.
  specialize (H1 st). destruct (ensure_replica R st) as [[] s1|e s1].
  2: { destruct H1 as (evs & Htr & Hevs). exists evs, [].
       by rewrite app_nil_r. }
  specialize (H2 s1). cbn [final] in H1.
  assert (appends making st (final (sync_loop S R s1))) as H12
    by (etrans; [exact H1|exact H2]).
  destruct (sync_loop S R s1) as [[] s2|e s2].
  2: { destruct H12 as (evs & Htr & Hevs). exists evs, [].
       by rewrite app_nil_r. }
  cbn [final] in H12. destruct H12 as (made & Htr & Hmade).
  destruct (H3 s2) as (removed & Htr' & Hremoved).
  exists made, removed. by rewrite Htr', Htr, app_assoc.
Qed.

(** *** How [main] stops *)

(** The loop never ends by itself: when the ticks looked at are over it is
    still in it, nobody has interrupted, and the last thing logged is the
    end of a pass. *)
Lemma while_true_outcome S R schedule : forall st status st',
  while_true schedule S R st = Done status st' ->
  status = Looping /\ Forall (fun t => t <> Interrupt) schedule /\
  last (trace st') = Some (Logged SynchronizationComplete).
Proof.
  induction schedule as [|t schedule IH]; intros st status st';
    cbn [while_true]; unfold bind;
    destruct (sync_directories S R st) as [[] s1|e s1]; try done.
  - mstep. intros [= <- <-]. cbn [trace]. by rewrite last_snoc.
  - mstep. destruct t as [edit|]; cbn [time_sleep]; [|done].
    cbn [files dir_size trace]. intros Hrun.
    destruct (IH _ _ _ Hrun) as (-> & Hs & Hl).
    split; [done|]. split; [|done]. by constructor.
Qed.

(** X4.  [main] returns only upon an error or an interrupt, and the last
    thing it logs then is that; a run that is not over has had no interrupt
    and has just ended a pass. *)
Theorem main_stops_on_error_or_interrupt S R interval log schedule st
    status st' :
  main S R interval log schedule st = Done status st' ->
  match status with
  | Returned => exists e, last (trace st') = Some (Logged (last_words e))
  | Looping =>
      Forall (fun t => t <> Interrupt) schedule /\
      last (trace st') = Some (Logged SynchronizationComplete)
  end.
Proof.
  rewrite main_run.
  destruct (while_true schedule S R (started S R interval st))
    as [s s1|e s1] eqn:Hrun.
  - intros [= <- <-]. by destruct (while_true_outcome _ _ _ _ _ _ Hrun) as (-> & ? & ?).
  - intros [= <- <-]. exists e. unfold update. cbn [trace]. by rewrite last_snoc.
Qed.

(** *** Passes on particular trees *)

Lemma bare_none (fs : tree) (root x : path) :
  bare fs root -> sbelow root x -> fs !! x = None.
Proof.
  intros Hb Hx. destruct (fs !! x) as [e|] eqn:He; [|done].
  by destruct (Hb x e He).
Qed.

(** X5.  A source with nothing in it, or that is not there at all, empties
    the replica: the pass returns, and has left the replica root and nothing
    below it. *)
Theorem empty_source_empties_replica S R st :
  unrelated S R -> wf (files st) -> files st !! R = Some Dir ->
  bare (files st) S ->
  exists st',
    sync_directories S R st = Done tt st' /\
    files st' !! R = Some Dir /\
    forall y, sbelow R y -> files st' !! y = None.
Proof.
  intros Hun Hwf HR Hbare.
  assert (files st !! S = Some Dir -> compatible (files st) S R) as Hc.
  { intros HS x e He Hs. destruct (decide (x = S)) as [->|Hne].
    - rewrite twin_self, HR. congruence.
    - rewrite (bare_none (files st) S x) in He; done. }
  pose proof (pass_spec S R st Hun Hwf Hc) as Hp.
  destruct (sync_directories S R st) as [[] st'|e st'].
  - destruct Hp as (_ & _ & Hpt & _). exists st'. split; [done|]. split.
    + rewrite (Hpt R), decide_False by (by intros [_ ?]).
      by rewrite (with_dirs_exists _ _ Dir).
    + intros y Hy. rewrite (Hpt y), decide_True by done.
      rewrite (bare_none (files st) S (twin R S y)); [done..|].
      rewrite <- (twin_self R S) at 1. by apply twin_sbelow.
  - exfalso. destruct Hp as [[HR' _]|(x & Hx & Hbad)]; [congruence|].
    apply Hbad. unfold copies. by rewrite (bare_none (files st) S x).
Qed.

(** X6.  The first pass to a replica that is not there yet, when every file
    of the source can be read: the pass returns, and the replica holds below
    its root exactly what the source holds, contents and all. *)
Theorem first_pass_copies_all S R st :
  unrelated S R -> wf (files st) ->
  files st !! R = None -> creatable (files st) R ->
  all_readable (files st) S ->
  exists st',
    sync_directories S R st = Done tt st' /\
    files st' !! R = Some Dir /\
    forall rel, rel <> [] ->
      files st' !! (rel ++ R) = files st !! (rel ++ S).
Proof.
  intros Hun Hwf HR Hcr Hread.
  assert (forall y, suffix R y -> files st !! y = None) as Hnone.
  { intros y Hy. destruct (decide (y = R)) as [->|Hne]; [done|].
    apply (wf_none_below (files st) R y); [done|done|congruence]. }
  assert (compatible (files st) S R) as Hc.
  { intros x e He Hs. by rewrite Hnone by (by apply suffix_twin). }
  assert (forall x e, sbelow S x -> files st !! x = Some e ->
            settle e None = Some e) as Hsettle.
  { intros x e Hx He. specialize (Hread x e He Hx). cbn beta in Hread.
    destruct e as [c r|]; cbn [settle]; [|done]. by subst. }
  pose proof (pass_spec S R st Hun Hwf (fun _ => Hc)) as Hp.
  destruct (sync_directories S R st) as [[] st'|e st'].
  - destruct Hp as (_ & _ & Hpt & _). exists st'. split; [done|]. split.
    + rewrite (Hpt R), decide_False by (by intros [_ ?]).
      rewrite lookup_with_dirs by done. by rewrite decide_True.
    + intros rel Hrel. rewrite (Hpt (rel ++ R)).
      rewrite decide_True by (by apply sbelow_root_app). rewrite twin_app.
      rewrite (Hnone (rel ++ R)) by (by apply suffix_app_r).
      destruct (files st !! (rel ++ S)) as [e|] eqn:He; [|done].
      apply (Hsettle (rel ++ S)); [by apply sbelow_root_app|done].
  - exfalso. destruct Hp as [[_ Hn]|(x & Hx & Hbad)]; [done|].
    apply Hbad. unfold copies. destruct (files st !! x) as [e0|] eqn:He; [|done].
    rewrite Hnone by (apply suffix_twin, Hx). rewrite (Hsettle x e0 Hx He). eauto.
Qed.

(** X7.  A replica that already holds what the source holds is left alone:
    the pass returns, the tree is as it was, and all the pass did was
    reading files for their digests. *)
Theorem up_to_date_replica_left_alone S R st :
  unrelated S R -> wf (files st) -> files st !! R = Some Dir ->
  mirrored (files st) S R ->
  exists st',
    sync_directories S R st = Done tt st' /\
    files st' = files st /\
    exists evs, trace st' = trace st ++ evs /\ Forall quiet evs.
Proof.
  intros Hun Hwf HR Hm.
  assert (forall x e, sbelow S x -> files st !! x = Some e ->
            files st !! twin S R x = Some e) as Hto
    by (intros x e Hx He; by apply (Hm x e He)).
  assert (forall y e, sbelow R y -> files st !! y = Some e ->
            files st !! twin R S y = Some e) as Hfrom
    by (intros y e Hy He; by apply (Hm y e He)).
  assert (forall e, settle e (Some e) = Some e) as Hsame.
  { intros [c r|]; cbn [settle]; [|done]. by rewrite decide_True. }
  assert (files st !! S = Some Dir -> compatible (files st) S R) as Hc.
  { intros HS x e He Hs. destruct (decide (x = S)) as [->|Hne].
    - rewrite twin_self, HR. congruence.
    - by rewrite (Hto x e). }
  pose proof (pass_spec S R st Hun Hwf Hc) as Hp.
  destruct (sync_directories S R st) as [[] st'|e st'].
  - destruct Hp as (_ & _ & Hpt & _ & _ & (evs & Htr & Hevs) & _).
    exists st'. split; [done|]. split.
    + apply map_eq. intros y. rewrite (Hpt y).
      destruct (decide (sbelow R y)) as [Hy|Hy].
      * destruct (files st !! y) as [e|] eqn:He.
        -- by rewrite (Hfrom y e Hy He).
        -- destruct (files st !! twin R S y) as [e|] eqn:Ht; [|done].
           assert (sbelow S (twin R S y)) as Hx.
           { rewrite <- (twin_self R S) at 1. by apply twin_sbelow. }
           pose proof (Hto _ e Hx Ht) as Hback.
           rewrite twin_twin in Hback by apply Hy. congruence.
      * by rewrite (with_dirs_exists _ _ Dir).
    + exists evs. split; [done|]. eapply Forall_impl; [exact Hevs|].
      intros ev [[Hn _]|[(x & e & Hx & He & Hin)|(x & e & _ & He & Hx & Hk & _)]].
      * congruence.
      * rewrite (Hto x e Hx He) in Hin.
        by apply (settled_events_quiet e e x (twin S R x)).
      * destruct Hk. unfold kept. rewrite (Hfrom x e Hx He). eauto.
  - exfalso. destruct Hp as [[HR' _]|(x & Hx & Hbad)]; [congruence|].
    apply Hbad. unfold copies. destruct (files st !! x) as [e0|] eqn:He; [|done].
    rewrite (Hto x e0 Hx He), Hsame. eauto.
Qed.

(** *** A replica root that cannot be made *)

(** Where a directory cannot be made with its parents, because something
    above it is a file, [mkdir(parents=True)] raises [NotADirectoryError]
    and has made nothing. *)
Lemma mkdir_parents_fails p : forall exist_ok st,
  wf (files st) -> files st !! p = None -> ~ creatable (files st) p ->
  exists st',
    mkdir_parents exist_ok p st = Raised NotADirectoryError st' /\
    files st' = files st.
Proof.
  induction p as [|n p IH]; intros ok st Hwf Hp Hn.
  - destruct Hn. intros q Hq%suffix_nil_inv. subst. by left.
  - cbn [mkdir_parents]. unfold try_except. rewrite os_mkdir_run. cbn zeta.
    rewrite Hp. destruct (files st !! p) as [[c r|]|] eqn:Hpar.
    + mstep. rewrite bool_decide_eq_false_2 by (cbn; congruence).
      rewrite orb_true_r. eauto.
    + destruct Hn. intros q [->|Hq]%suffix_cons_case; [by left|]. right.
      destruct (decide (q = p)) as [->|Hne]; [done|].
      destruct (wf_below (files st) q p Hwf Hq) as [e He]; [eauto|].
      apply (wf_sbelow_dir (files st) q p); [done|split; congruence|eauto].
    + unfold bind.
      destruct (IH true (update st (files st) [Called (Mkdir (n :: p))]))
        as (st' & -> & Hfs); try done.
      * intros Hc. apply Hn.
        intros q [->|Hq]%suffix_cons_case; [by left|by apply Hc].
      * eauto.
Qed.

(** X8.  When the replica root is not there and cannot be made, because
    something above it is a file, the pass raises [NotADirectoryError]
    before it has looked at the source, and the tree is as it was. *)
Theorem replica_root_under_a_file S R st :
  wf (files st) -> files st !! R = None -> ~ creatable (files st) R ->
  exists st',
    sync_directories S R st = Raised NotADirectoryError st' /\
    files st' = files st.
Proof.
  intros Hwf HR Hn.
  destruct (mkdir_parents_fails R false st Hwf HR Hn) as (st' & Hrun & Hfs).
  exists st'. split; [|done].
  rewrite sync_directories_parts. unfold bind at 1. unfold ensure_replica.
  mstep. rewrite HR. rewrite bool_decide_eq_false_2 by (by intros [??]).
  cbn [negb]. by rewrite Hrun.
Qed.

(** *** The walk of [rglob] on a tree that stays as it is *)

Lemma list_bind_bind {A B C} (f : A -> list B) (g : B -> list C) (l : list A) :
  (l ≫= f) ≫= g = l ≫= (fun x => f x ≫= g).
Proof.
  induction l as [|x l IH]; [done|]. rewrite !bind_cons, bind_app. by f_equal.
Qed.

Lemma update_same st : update st (files st) [] = st.
Proof. destruct st. unfold update. cbn. by rewrite app_nil_r. Qed.

Section Still.
Variable fs : tree.
Hypothesis Hwf : wf fs.

(** A loop whose body leaves the tree alone. *)
Lemma for_each_still {A} (l : list A) (f : A -> M unit)
    (outs : A -> list event) :
  (forall x st, x ∈ l -> files st = fs ->
     f x st = Done tt (update st fs (outs x))) ->
  forall st, files st = fs ->
    for_each l f st = Done tt (update st fs (l ≫= outs)).
Proof.
  induction l as [|x l IH]; intros Hf st Hst.
  - cbn. unfold ret. by rewrite <- Hst, update_same.
  - cbn [for_each]. unfold bind. rewrite Hf by (done || left).
    rewrite IH; [|intros; apply Hf; [by right|done]|done].
    by rewrite update_update.
Qed.

Variables (root : path) (body : path -> M unit) (out : path -> list event).
Hypothesis Hbody : forall item st,
  files st = fs -> sbelow root item -> is_Some (fs !! item) ->
  body item st = Done tt (update st fs (out item)).

Lemma walk_still : forall fuel p st,
  files st = fs -> suffix root p -> fs !! p = Some Dir ->
  (depth fs <= fuel + length p)%nat ->
  iterate_directories fuel body p st =
  Done tt (update st fs (listing fs fuel p ≫= out)).
Proof.
  induction fuel as [|fuel IH]; intros p st Hst Hp Hdir Hfuel.
  { pose proof (depth_gt fs p ltac:(eauto)). simpl in Hfuel. lia. }
  cbn [iterate_directories listing]. unfold bind.
  rewrite scandir_dir by (by rewrite Hst). rewrite Hst.
  rewrite (for_each_still _ _ (fun entry : string * bool => out (fst entry :: p))); [|
    |done].
  2: { intros [n b] st' Hin Hst'. cbn [fst].
       apply elem_of_children in Hin as (e & He & _).
       apply Hbody; [done| |eauto].
       split; [by apply suffix_cons_r|]. intros <-.
       by apply suffix_cons_not in Hp. }
  rewrite scandir_dir by done. cbn [files].
  rewrite (for_each_still _ _
             (fun entry : string * bool => if snd entry
                           then listing fs fuel (fst entry :: p) ≫= out
                           else [])); [| |done].
  2: { intros [n b] st' Hin Hst'. cbn [fst snd].
       apply elem_of_children in Hin as (e & He & ->).
       case_bool_decide as Hd; [|unfold ret; by rewrite <- Hst', update_same].
       subst e. apply IH; [done|by apply suffix_cons_r|done|simpl; lia]. }
  rewrite update_update. do 2 f_equal.
  rewrite bind_app, list_fmap_bind, list_bind_bind. f_equal.
  apply list_bind_ext; [|done]. intros [n []]; by cbn.
Qed.
End Still.

(** What the walk yields on a well-formed tree, with fuel enough: the
    entries strictly below the directory it starts in. *)
Lemma elem_of_listing (fs : tree) : wf fs -> forall fuel p x,
  fs !! p = Some Dir -> (depth fs <= fuel + length p)%nat ->
  x ∈ listing fs fuel p <-> sbelow p x /\ is_Some (fs !! x).
Proof.
  intros Hwf. induction fuel as [|fuel IH]; intros p x Hdir Hfuel.
  { pose proof (depth_gt fs p ltac:(eauto)). simpl in Hfuel. lia. }
  cbn [listing]. rewrite elem_of_app, list_elem_of_fmap, list_elem_of_bind.
  split.
  - intros [([n b] & -> & Hin)|([n b] & Hx & Hin)]; cbn [fst snd] in *;
      apply elem_of_children in Hin as (e & He & ->).
    + split; [|eauto]. split; [by apply suffix_cons_r|].
      intros H. apply (f_equal length) in H. simpl in H. lia.
    + case_bool_decide as Hd; [|by apply elem_of_nil in Hx]. subst e.
      apply IH in Hx as [Hsb Hx]; [|done|simpl; lia]. split; [|done].
      destruct Hsb as [Hs Hne]. split; [by eapply suffix_cons_l|].
      intros ->. by apply suffix_cons_not in Hs.
  - intros [[Hs Hne] Hx]. destruct (sbelow_child p x Hs Hne) as [n Hn].
    destruct (decide (x = n :: p)) as [->|Hne'].
    + left. destruct Hx as [e He]. exists (n, bool_decide (e = Dir)).
      split; [done|]. apply elem_of_children. eauto.
    + right. assert (fs !! (n :: p) = Some Dir) as Hnd.
      { apply (wf_sbelow_dir fs (n :: p) x); [done|by split|done]. }
      exists (n, true). cbn [fst snd]. split.
      * apply IH; [done|simpl; lia|]. by split.
      * apply elem_of_children. exists Dir. by rewrite bool_decide_eq_true_2.
Qed.

Lemma NoDup_listing (fs : tree) : wf fs -> forall fuel p,
  fs !! p = Some Dir -> (depth fs <= fuel + length p)%nat ->
  NoDup (listing fs fuel p).
Proof.
  intros Hwf. induction fuel as [|fuel IH]; intros p Hdir Hfuel; [constructor|].
  cbn [listing]. apply NoDup_app. split; [|split].
  - apply NoDup_fmap_2_strong; [|apply NoDup_children].
    intros [n b] [m b'] Hn Hm [= ->]. f_equal.
    by apply (children_functional fs p m).
  - intros x ([n b] & -> & Hin)%list_elem_of_fmap
             ([m b'] & Hx & Hm)%list_elem_of_bind.
    cbn [fst snd] in *. destruct b'; [|by apply elem_of_nil in Hx].
    apply elem_of_children in Hm as (e & He & Hd).
    symmetry in Hd. apply bool_decide_eq_true in Hd. subst e.
    apply elem_of_listing in Hx as [Hsb _]; [|done|done|simpl; lia].
    apply sbelow_length in Hsb. simpl in Hsb. lia.
  - apply NoDup_bind; [| |apply NoDup_children].
    + intros [n b] [m b'] x Hn Hm Hx Hx'. cbn [fst snd] in *.
      destruct b; [|by apply elem_of_nil in Hx].
      destruct b'; [|by apply elem_of_nil in Hx'].
      apply elem_of_children in Hn as (e & He & Hd).
      symmetry in Hd. apply bool_decide_eq_true in Hd. subst e.
      apply elem_of_children in Hm as (e' & He' & Hd').
      symmetry in Hd'. apply bool_decide_eq_true in Hd'. subst e'.
      apply elem_of_listing in Hx as [Hsb _]; [|done|done|simpl; lia].
      apply elem_of_listing in Hx' as [Hsb' _]; [|done|done|simpl; lia].
      f_equal. by apply (sbelow_same_child n m p x).
    + intros [n b] Hn. cbn [fst snd]. destruct b; [|constructor].
      apply elem_of_children in Hn as (e & He & Hd).
      symmetry in Hd. apply bool_decide_eq_true in Hd. subst e.
      apply IH; [done|simpl; lia].
Qed.

Lemma before_app_l {A} (l k : list A) x y : before l x y -> before (l ++ k) x y.
Proof.
  intros (l1 & l2 & l3 & ->). exists l1, l2, (l3 ++ k).
  rewrite <- app_assoc. f_equal. cbn. f_equal. by rewrite <- app_assoc.
Qed.

Lemma before_app_r {A} (l k : list A) x y : before k x y -> before (l ++ k) x y.
Proof.
  intros (l1 & l2 & l3 & ->). exists (l ++ l1), l2, l3. by rewrite <- app_assoc.
Qed.

Lemma before_app {A} (l k : list A) x y : x ∈ l -> y ∈ k -> before (l ++ k) x y.
Proof.
  intros (l1 & l2 & ->)%list_elem_of_split (k1 & k2 & ->)%list_elem_of_split.
  exists l1, (l2 ++ k1), k2. rewrite <- app_assoc. f_equal. cbn. f_equal.
  by rewrite <- app_assoc.
Qed.

Lemma before_bind {A B} (f : A -> list B) (l : list A) a x y :
  a ∈ l -> before (f a) x y -> before (l ≫= f) x y.
Proof.
  intros (l1 & l2 & ->)%list_elem_of_split H.
  rewrite bind_app, bind_cons. by apply before_app_r, before_app_l.
Qed.

(** The walk yields a directory before what is in it. *)
Lemma listing_order (fs : tree) : wf fs -> forall fuel p x y,
  fs !! p = Some Dir -> (depth fs <= fuel + length p)%nat ->
  x ∈ listing fs fuel p -> y ∈ listing fs fuel p -> sbelow x y ->
  before (listing fs fuel p) x y.
Proof.
  intros Hwf. induction fuel as [|fuel IH]; intros p x y Hdir Hfuel Hx Hy Hxy.
  { by apply elem_of_nil in Hx. }
  cbn [listing] in *.
  assert (forall z n, (n, true) ∈ children fs p ->
            z ∈ listing fs fuel (n :: p) -> sbelow (n :: p) z) as Hsub.
  { intros z n Hn Hz. apply elem_of_children in Hn as (e & He & Hd).
    symmetry in Hd. apply bool_decide_eq_true in Hd. subst e.
    apply elem_of_listing in Hz as [? _]; [done..|simpl; lia]. }
  apply elem_of_app in Hx as [Hx|Hx], Hy as [Hy|Hy].
  - apply list_elem_of_fmap in Hx as ([n b] & -> & _).
    apply list_elem_of_fmap in Hy as ([m b'] & -> & _).
    apply sbelow_length in Hxy. cbn in Hxy. lia.
  - by apply before_app.
  - apply list_elem_of_bind in Hx as ([n b] & Hx & Hn). cbn [fst snd] in *.
    destruct b; [|by apply elem_of_nil in Hx].
    apply list_elem_of_fmap in Hy as ([m b'] & -> & _).
    apply Hsub in Hx; [|done]. apply sbelow_length in Hx, Hxy.
    cbn in Hx, Hxy. lia.
  - apply before_app_r.
    apply list_elem_of_bind in Hx as ([n b] & Hx & Hn).
    apply list_elem_of_bind in Hy as ([m b'] & Hy & Hm). cbn [fst snd] in *.
    destruct b; [|by apply elem_of_nil in Hx].
    destruct b'; [|by apply elem_of_nil in Hy].
    assert (n = m) as <-.
    { apply (sbelow_same_child n m p y); [|by apply Hsub].
      apply (sbelow_trans _ x); [by apply Hsub|apply Hxy]. }
    apply (before_bind _ _ (n, true)); [done|]. cbn [fst snd].
    apply elem_of_children in Hn as (e & He & Hd).
    symmetry in Hd. apply bool_decide_eq_true in Hd. subst e.
    apply IH; [done|simpl; lia|done..].
Qed.

(** X9.  The loop [for item in root.rglob("*")], when its body leaves the
    tree alone and returns: the loop returns, and has run the body once on
    every entry strictly below the root, on a directory before what is in
    it, and on nothing else. *)
Theorem rglob_visits_each_entry_once root body out st :
  wf (files st) -> files st !! root = Some Dir ->
  (forall item s, files s = files st ->
     body item s = Done tt (update s (files st) (out item))) ->
  exists visited,
    rglob (depth (files st)) root body st =
    Done tt (update st (files st) (visited ≫= out)) /\
    NoDup visited /\
    (forall x, x ∈ visited <-> sbelow root x /\ is_Some (files st !! x)) /\
    (forall x y, x ∈ visited -> y ∈ visited -> sbelow x y ->
       before visited x y).
Proof.
  intros Hwf Hroot Hbody.
  exists (listing (files st) (depth (files st)) root). split; [|split; [|split]].
  - unfold rglob. mstep. rewrite bool_decide_eq_true_2 by done.
    apply (walk_still (files st) root); try done; [auto|lia].
  - apply NoDup_listing; [done|done|lia].
  - intros x. apply elem_of_listing; [done|done|lia].
  - intros x y. apply listing_order; [done|done|lia].
Qed.

(** *** A folder synchronized with itself *)

Lemma twin_same (root x : path) : suffix root x -> twin root root x = x.
Proof. intros [k ->]. by rewrite twin_app. Qed.

Lemma sync_item_itself S item st :
  sbelow S item -> is_Some (files st !! item) ->
  sync_item S S item st =
  Done tt (update st (files st) (self_events (files st) item)).
Proof.
  intros [Hs _] [e He]. unfold sync_item. unfold bind at 1.
  rewrite relative_to_suffix by done. cbn beta iota.
  fold (twin S S item). rewrite twin_same by done. unfold self_events.
  mstep. rewrite He. destruct e as [c r|].
  - rewrite bool_decide_eq_false_2 by done.
    rewrite bool_decide_eq_true_2 by eauto. cbn [negb].
    unfold st_size. rewrite He. cbn beta iota. rewrite He. cbn beta iota.
    rewrite decide_True by done.
    rewrite (calculate_md5_file st item c r He).
    rewrite (calculate_md5_file _ item c r) by done.
    rewrite decide_False by (intros H; by apply H).
    by rewrite update_update.
  - rewrite bool_decide_eq_true_2 by done.
    rewrite bool_decide_eq_true_2 by eauto. cbn [negb].
    by rewrite update_same.
Qed.

Lemma remove_item_itself S item st :
  sbelow S item -> is_Some (files st !! item) ->
  remove_item S S item st = Done tt (update st (files st) []).
Proof.
  intros [Hs _] He. unfold remove_item. unfold bind at 1.
  rewrite relative_to_suffix by done. cbn beta iota.
  fold (twin S S item). rewrite twin_same by done.
  mstep. rewrite bool_decide_eq_true_2 by done. cbn [negb].
  by rewrite update_same.
Qed.

Lemma self_events_quiet (fs : tree) (l : list path) :
  Forall quiet (l ≫= self_events fs).
Proof.
  apply Forall_bind, Forall_forall. intros x _. unfold compose, self_events.
  destruct (fs !! x) as [[c r|]|]; [|done..].
  apply Forall_app. split; unfold hash_events; destruct r;
    repeat constructor.
Qed.

(** X10.  A folder given as its own replica is left alone: the pass returns,
    the tree is as it was, and all the pass did was reading each file twice
    for its digest. *)
Theorem sync_onto_itself S st :
  wf (files st) -> is_Some (files st !! S) ->
  exists st',
    sync_directories S S st = Done tt st' /\
    files st' = files st /\
    exists evs, trace st' = trace st ++ evs /\ Forall quiet evs.
Proof.
  intros Hwf [e HS]. rewrite sync_directories_parts. unfold bind at 1.
  unfold ensure_replica. mstep. rewrite bool_decide_eq_true_2 by eauto.
  cbn [negb].
  unfold sync_loop, remove_loop, rglob. mstep.
  destruct (decide (e = Dir)) as [->|Hne].
  - rewrite bool_decide_eq_true_2 by done.
    rewrite (walk_still (files st) S (sync_item S S) (self_events (files st)));
      [|by intros item s <- ? ?; apply sync_item_itself|done|done|done|apply Nat.le_add_r].
    cbn [files]. rewrite bool_decide_eq_true_2 by done.
    rewrite (walk_still (files st) S (remove_item S S) (fun _ => []));
      [|by intros item s <- ? ?; apply remove_item_itself|done|done|done|apply Nat.le_add_r].
    rewrite update_update. eexists. split; [reflexivity|]. split; [reflexivity|].
    eexists. split; [reflexivity|]. apply Forall_app. split.
    + apply self_events_quiet.
    + apply Forall_bind, Forall_forall. intros x _. constructor.
  - rewrite bool_decide_eq_false_2 by congruence.
    cbn [files]. rewrite bool_decide_eq_false_2 by congruence.
    exists st. split; [by destruct st|]. split; [done|].
    exists []. by rewrite app_nil_r.
Qed.

(** *** A replica root that is a file *)

(** Under a replica root that is a file nothing can be made: the body of
    the first loop raises on whatever the source has, and leaves the tree
    as it is. *)
Lemma sync_item_under_file S R n st c r e :
  S <> R -> wf (files st) ->
  files st !! R = Some (File c r) -> files st !! (n :: S) = Some e ->
  exists ex st',
    sync_item S R (n :: S) st = Raised ex st' /\ files st' = files st.
Proof.
  intros Hne Hwf HR He.
  assert (files st !! (n :: R) = None) as Hdst.
  { apply (wf_none_below (files st) R); [done| |congruence].
    split; [by apply suffix_cons_r|]. intros H.
    apply (f_equal length) in H. simpl in H. lia. }
  unfold sync_item. unfold bind at 1.
  change (n :: S) with ([n] ++ S) at 1. rewrite relative_to_app.
  cbn beta iota. change ([n] ++ R) with (n :: R).
  mstep. rewrite He. destruct e as [c' r'|].
  - rewrite bool_decide_eq_false_2 by done. cbn beta iota. rewrite Hdst.
    rewrite bool_decide_eq_false_2 by (by intros [??]). cbn [negb].
    unfold copy2. mstep. rewrite Hdst.
    rewrite bool_decide_eq_false_2 by done.
    rewrite decide_False by congruence.
    unfold open_rb. cbn [files]. rewrite He.
    destruct r'; [|eauto].
    unfold write_file. cbn [files]. rewrite Hdst, HR. eauto.
  - rewrite bool_decide_eq_true_2 by done. cbn beta iota. rewrite Hdst.
    rewrite bool_decide_eq_false_2 by (by intros [??]). cbn [negb].
    destruct (mkdir_parents_fails (n :: R) false st Hwf Hdst)
      as (st' & -> & Hfs); [|eauto].
    intros Hc. destruct (Hc R) as [?|?]; [by apply suffix_cons_r|congruence..].
Qed.

(** X11.  A replica root that is a regular file is never replaced, nor is
    anything else changed: the pass raises on the first entry of the source
    that it comes to, and returns only when the source has no entry. *)
Theorem replica_root_a_file S R st c r :
  unrelated S R -> wf (files st) ->
  files st !! S = Some Dir -> files st !! R = Some (File c r) ->
  files (final (sync_directories S R st)) = files st /\
  ((exists st', sync_directories S R st = Done tt st') <->
   bare (files st) S).
Proof.
  intros Hun Hwf HS HR.
  assert (S <> R) as Hne by (intros ->; by destruct Hun as [[] _]).
  assert (forall n, sbelow S (n :: S)) as Hchild.
  { intros n. split; [by apply suffix_cons_r|]. intros H.
    apply (f_equal length) in H. simpl in H. lia. }
  assert ((bare (files st) S /\ sync_directories S R st = Done tt st) \/
          (~ bare (files st) S /\
           exists ex st', sync_directories S R st = Raised ex st' /\
                          files st' = files st)) as [[Hb ->]|[Hb Hr]].
  { assert (sync_directories S R st =
            match for_each (children (files st) S)
                    (fun child => sync_item S R (fst child :: S)) st with
            | Done _ s1 =>
                (let* entries := scandir S in
                 for_each entries
                   (fun child =>
                      if snd child
                      then iterate_directories
                             (max_list
                                ((fun qe : path * entry => length (fst qe))
                                   <$> map_to_list (files st)))
                             (sync_item S R) (fst child :: S)
                      else ret tt) ;;;
                 remove_loop S R) s1
            | Raised ex s1 => Raised ex s1
            end) as ->.
    { rewrite sync_directories_parts. unfold bind at 1.
      unfold ensure_replica. mstep. rewrite bool_decide_eq_true_2 by eauto.
      cbn [negb]. unfold sync_loop, rglob. mstep.
      rewrite bool_decide_eq_true_2 by done.
      unfold depth at 1. cbn [iterate_directories]. unfold bind.
      rewrite scandir_dir by done.
      unfold ret. destruct (for_each _ _ st) as [[] s1|ex s1]; [|done].
      by destruct (scandir S s1). }
    destruct (children (files st) S) as [|[n b] l] eqn:Hch.
    - left. cbn [for_each]. unfold ret, bind. rewrite scandir_dir by done.
      rewrite Hch. cbn [for_each]. unfold ret, remove_loop, rglob. mstep.
      rewrite bool_decide_eq_false_2 by congruence. split; [|done].
      intros x e He [Hs Hx].
      destruct (sbelow_child S x Hs Hx) as [m Hm].
      destruct (wf_below (files st) (m :: S) x Hwf Hm) as [e' He']; [eauto|].
      assert ((m, bool_decide (e' = Dir)) ∈ children (files st) S) as Hin
        by (apply elem_of_children; eauto).
      rewrite Hch in Hin. by apply elem_of_nil in Hin.
    - right.
      assert ((n, b) ∈ children (files st) S) as Hin by (rewrite Hch; left).
      apply elem_of_children in Hin as (e & He & _).
      split; [intros Hb; by apply (Hb (n :: S) e He)|].
      cbn [for_each fst]. unfold bind.
      destruct (sync_item_under_file S R n st c r e Hne Hwf HR He)
        as (ex & st' & -> & Hfs). eauto. }
  - split; [done|]. split; eauto.
  - destruct Hr as (ex & st' & -> & Hfs). split; [done|].
    split; [by intros [? ?]|done].
Qed.

(** *** What a file of the replica is after a pass *)

(** X12.  After a pass that returns, with no type mismatch before it, a file
    of the source has in the replica either its copy, content for content,
    or the file that was there before, of the same size and the same digest
    (or none that could be computed on either side). *)
Theorem replica_file_copied_or_kept S R st st' rel c r :
  unrelated S R -> wf (files st) -> compatible (files st) S R ->
  sync_directories S R st = Done tt st' ->
  rel <> [] -> files st !! (rel ++ S) = Some (File c r) ->
  files st' !! (rel ++ R) = Some (File c true) \/
  exists c' r',
    files st !! (rel ++ R) = Some (File c' r') /\
    files st' !! (rel ++ R) = Some (File c' r') /\
    length c = length c' /\ digest_of c r = digest_of c' r'.
Proof.
  intros Hun Hwf Hc Hrun Hrel Hsrc.
  pose proof (pass_spec S R st Hun Hwf (fun _ => Hc)) as Hp.
  rewrite Hrun in Hp. destruct Hp as (_ & Hgood & Hpt & _).
  assert (sbelow S (rel ++ S)) as Hx by (by apply sbelow_root_app).
  specialize (Hgood _ Hx). unfold copies in Hgood.
  rewrite Hsrc, twin_app in Hgood. destruct Hgood as [e' He'].
  rewrite (Hpt (rel ++ R)), decide_True by (by apply sbelow_root_app).
  rewrite twin_app, Hsrc, He'.
  destruct (files st !! (rel ++ R)) as [[c' r'|]|]; cbn [settle] in He'.
  - destruct (decide (length c = length c' /\ _)) as [[Hl Hd]|_] in He'.
    + injection He' as <-. right. by exists c', r'.
    + destruct r; [|done]. injection He' as <-. by left.
  - done.
  - destruct r; [|done]. injection He' as <-. by left.
Qed.

(** *** A file of the source where the replica has a directory *)




(** *** Relative paths *)

(** X14.  The path of an item relative to the root it is under, joined to
    the other root, has the same relative path under that root, and joined
    to its own root is the item again; an item that is not under the root
    has no relative path: [relative_to] raises [ValueError]. *)
Theorem relative_path_round_trip S R item st :
  (suffix S item ->
   exists rel,
     relative_to item S st = Done rel st /\ rel ++ S = item /\
     relative_to (rel ++ R) R st = Done rel st) /\
  (~ suffix S item -> relative_to item S st = Raised ValueError st).
Proof.
  split.
  - intros [rel ->]. exists rel. by rewrite !relative_to_app.
  - intros Hn. unfold relative_to. case_decide as Hd; [|done].
    destruct Hn. rewrite <- Hd. apply suffix_drop.
Qed.

(** *** When a pass returns *)


(** ** The examples *)

(** A decidable proposition about a given tree, settled by evaluation. *)
Ltac evaluated := apply (bool_decide_unpack _); vm_compute; exact I.

(** An event that is not in a given trace. *)
Ltac absent H :=
  vm_compute in H;
  repeat (apply elem_of_cons in H as [H|H]; [discriminate H|]);
  by apply elem_of_nil in H.

(** The test suite of RFC 1321. *)
Example md5_test_suite :
  MD5.hexdigest (text "") = "d41d8cd98f00b204e9800998ecf8427e"%string /\
  MD5.hexdigest (text "a") = "0cc175b9c0f1b6a831c399e269772661"%string /\
  MD5.hexdigest (text "abc") = "900150983cd24fb0d6963f7d28e17f72"%string /\
  MD5.hexdigest (text "message digest") =
    "f96b697d7cb7938d525a2f31aaf161d0"%string /\
  MD5.hexdigest (text "abcdefghijklmnopqrstuvwxyz") =
    "c3fcd3d76192e4007dfb496cca67e13b"%string /\
  MD5.hexdigest
    (text "12345678901234567890123456789012345678901234567890123456789012345678901234567890") =
    "57edf4a22be3c955ac49da2e2107b67a"%string.
Proof. repeat split; vm_compute; reflexivity. Qed.

Example md5_collision :
  collision_a <> collision_b /\
  length collision_a = length collision_b /\
  MD5.hexdigest collision_a = MD5.hexdigest collision_b.
Proof.
  split; [|split]; [|vm_compute; reflexivity..].
  intros H. vm_compute in H. discriminate H.
Qed.

(** C1 fails on two files of the same size and digest: the pass returns,
    nothing was a type mismatch and no digest failed, and the replica file
    is not the source file. *)
Lemma collision_not_mirrored :
  let st := collision_world in
  let st' := final (sync_directories src rep st) in
  sync_directories src rep st = Done tt st' /\
  compatible (files st) src rep /\
  (forall p e, Logged (ErrorCalculatingMD5 p e) ∉ trace st') /\
  exists c c',
    files st' !! ("f" :: src)%string = Some (File c true) /\
    files st' !! ("f" :: rep)%string = Some (File c' true) /\
    c <> c'.
Proof.
  intros st st'. split; [vm_compute; reflexivity|]. split; [evaluated|].
  split; [intros p e H; absent H|].
  exists collision_a, collision_b.
  split; [vm_compute; reflexivity|]. split; [vm_compute; reflexivity|].
  intros H. vm_compute in H. discriminate H.
Qed.

(** C2 fails where the source has a file and the replica a directory: each
    pass copies the file into the directory and then removes the copy. *)
Lemma second_pass_mutates :
  let st := file_over_directory in
  let st1 := final (sync_directories src rep st) in
  let st2 := final (sync_directories src rep st1) in
  sync_directories src rep st = Done tt st1 /\
  sync_directories src rep st1 = Done tt st2 /\
  trace st2 =
  trace st1 ++
  [Called (Copy ("f" :: src) ("f" :: rep));
   Logged (UpdatedFileSizeChange ("f" :: rep));
   Called (Unlink ("f" :: "f" :: rep));
   Logged (DeletedFile ("f" :: "f" :: rep))]%string.
Proof. repeat split; vm_compute; reflexivity. Qed.



(** C6 fails where the source has a directory and the replica a file: the
    pass does nothing at all, and the file is still there. *)
Lemma mismatch_not_reconciled :
  let st := directory_over_file in
  let st' := final (sync_directories src rep st) in
  sync_directories src rep st = Done tt st' /\
  files st !! ("d" :: src)%string = Some Dir /\
  files st' !! ("d" :: rep)%string = Some (File (text "X") true) /\
  trace st' = [].
Proof. repeat split; vm_compute; reflexivity. Qed.


(** ** The theorems at work on given trees *)

Lemma mirror_up_to_digest_witness :
  let st' := final (sync_directories src rep behind) in
  unrelated src rep /\ wf (files behind) /\ compatible (files behind) src rep /\
  sync_directories src rep behind = Done tt st' /\
  forall rel, rel <> [] ->
    files st' !! (rel ++ src) = files behind !! (rel ++ src) /\
    same_entry (files st' !! (rel ++ src)) (files st' !! (rel ++ rep)).
Proof.
  intros st'.
  assert (unrelated src rep) as Hun by evaluated.
  assert (wf (files behind)) as Hwf by evaluated.
  assert (compatible (files behind) src rep) as Hc by evaluated.
  assert (sync_directories src rep behind = Done tt st') as Hrun
    by (vm_compute; reflexivity).
  repeat (split; [assumption|]).
  apply (mirror_up_to_digest src rep behind st' Hun Hwf Hc Hrun).
  intros p e H. absent H.
Defined.

Lemma second_pass_quiet_witness :
  let st1 := final (sync_directories src rep behind) in
  unrelated src rep /\ wf (files behind) /\ compatible (files behind) src rep /\
  sync_directories src rep behind = Done tt st1 /\
  exists st2,
    sync_directories src rep st1 = Done tt st2 /\
    files st2 = files st1 /\
    exists evs, trace st2 = trace st1 ++ evs /\ Forall quiet evs.
Proof.
  intros st1.
  assert (unrelated src rep) as Hun by evaluated.
  assert (wf (files behind)) as Hwf by evaluated.
  assert (compatible (files behind) src rep) as Hc by evaluated.
  assert (sync_directories src rep behind = Done tt st1) as Hrun
    by (vm_compute; reflexivity).
  repeat (split; [assumption|]).
  exact (second_pass_quiet src rep behind st1 Hun Hwf Hc Hrun).
Defined.




Lemma mismatch_stays_witness :
  unrelated src rep /\ wf (files directory_over_file) /\
  exists e',
    files (final (sync_directories src rep directory_over_file))
      !! ("d" :: rep)%string = Some e' /\
    kind_of e' = KFile.
Proof.
  assert (unrelated src rep) as Hun by evaluated.
  assert (wf (files directory_over_file)) as Hwf by evaluated.
  repeat (split; [assumption|]).
  apply (mismatch_stays src rep directory_over_file ["d"%string] Dir
           (File (text "X") true) Hun Hwf); vm_compute; reflexivity.
Defined.

Lemma pruning_witness :
  unrelated src rep /\ wf (files behind) /\
  exists st',
    remove_loop src rep behind = Done tt st' /\
    files st' !! ("stale" :: rep)%string = None /\
    files st' !! ("x" :: "old" :: rep)%string = None /\
    files st' !! ("a" :: rep)%string = Some (File (text "HELLO") true) /\
    files st' !! ("a" :: src)%string = Some (File (text "hello") true).
Proof.
  assert (unrelated src rep) as Hun by evaluated.
  assert (wf (files behind)) as Hwf by evaluated.
  repeat (split; [assumption|]).
  destruct (pruning src rep behind Hun Hwf)
    as (st' & Hrun & Hgone & Hsub & Hkept & Hout & _).
  exists st'. split; [assumption|]. split; [|split; [|split]].
  - apply Hgone; evaluated.
  - apply (Hsub ("old" :: rep)%string); evaluated.
  - rewrite Hkept by evaluated. vm_compute; reflexivity.
  - rewrite Hout by evaluated. vm_compute; reflexivity.
Defined.


Lemma entry_checks_witness :
  (files no_replica !! rep <> Some Dir /\
   __main__ rep src 60 ["log"%string] [] no_replica =
   Raised ValueError no_replica) /\
  (files no_replica !! src = Some Dir /\ wf (files no_replica) /\
   files no_replica !! far_replica = None /\
   creatable (files no_replica) far_replica /\
   (exists s1, ensure_replica far_replica no_replica = Done tt s1) /\
   files (final (sync_directories src far_replica no_replica))
     !! ["backups"; "mnt"]%string = Some Dir).
Proof.
  split.
  - assert (files no_replica !! rep <> Some Dir) as Hno by evaluated.
    split; [assumption|].
    by apply (entry_checks rep src 60 ["log"%string] [] no_replica).
  - assert (files no_replica !! src = Some Dir) as Hs by (vm_compute; reflexivity).
    assert (wf (files no_replica)) as Hwf by evaluated.
    assert (files no_replica !! far_replica = None) as Hr
      by (vm_compute; reflexivity).
    assert (creatable (files no_replica) far_replica) as Hc by evaluated.
    repeat (split; [assumption|]).
    destruct (entry_checks src far_replica 60 ["log"%string] [] no_replica)
      as (_ & Hgo).
    destruct (Hgo Hs Hwf Hr Hc) as (_ & Hpass).
    destruct (Hpass no_replica eq_refl) as (Hmade & Hdirs).
    split; [assumption|]. apply Hdirs. evaluated.
Defined.

Lemma replica_root_survives_witness :
  let st' := final (sync_directories src far_replica no_replica) in
  sync_directories src far_replica no_replica = Done tt st' /\
  (exists e, files st' !! far_replica = Some e /\
     match files no_replica !! far_replica with
     | Some e0 => kind_of e = kind_of e0
     | None => e = Dir
     end) /\
  exists evs, trace st' = trace no_replica ++ evs /\
              Forall (removes_below far_replica) evs.
Proof.
  intros st'.
  assert (sync_directories src far_replica no_replica = Done tt st') as Hrun
    by (vm_compute; reflexivity).
  split; [assumption|].
  exact (replica_root_survives src far_replica no_replica st' Hrun).
Defined.

Lemma outside_replica_untouched_witness :
  ~ sbelow rep ("a" :: src)%string /\
  files behind !! ("a" :: src)%string = Some (File (text "hello") true) /\
  files (final (sync_directories src rep behind)) !! ("a" :: src)%string =
  Some (File (text "hello") true).
Proof.
  assert (~ sbelow rep ("a" :: src)%string) as Hout by evaluated.
  assert (files behind !! ("a" :: src)%string =
          Some (File (text "hello") true)) as Hx by (vm_compute; reflexivity).
  repeat (split; [assumption|]).
  exact (outside_replica_untouched src rep behind _ _ Hout Hx).
Defined.

Lemma main_stops_on_error_or_interrupt_witness :
  let st' := final (main src rep 60 ["log"%string] [Sleeps id] behind) in
  main src rep 60 ["log"%string] [Sleeps id] behind = Done Looping st' /\
  Forall (fun t => t <> Interrupt) [Sleeps id] /\
  last (trace st') = Some (Logged SynchronizationComplete).
Proof.
  intros st'.
  assert (main src rep 60 ["log"%string] [Sleeps id] behind = Done Looping st')
    as Hrun by (vm_compute; reflexivity).
  split; [assumption|].
  exact (main_stops_on_error_or_interrupt src rep 60 ["log"%string] [Sleeps id]
           behind Looping st' Hrun).
Defined.

Lemma empty_source_empties_replica_witness :
  unrelated src rep /\ wf (files empty_source) /\
  files empty_source !! rep = Some Dir /\ bare (files empty_source) src /\
  exists st',
    sync_directories src rep empty_source = Done tt st' /\
    files st' !! rep = Some Dir /\
    forall y, sbelow rep y -> files st' !! y = None.
Proof.
  assert (unrelated src rep) as Hun by evaluated.
  assert (wf (files empty_source)) as Hwf by evaluated.
  assert (files empty_source !! rep = Some Dir) as HR by (vm_compute; reflexivity).
  assert (bare (files empty_source) src) as Hb by evaluated.
  repeat (split; [assumption|]).
  exact (empty_source_empties_replica src rep empty_source Hun Hwf HR Hb).
Defined.

Lemma first_pass_copies_all_witness :
  unrelated src far_replica /\ wf (files no_replica) /\
  files no_replica !! far_replica = None /\
  creatable (files no_replica) far_replica /\
  all_readable (files no_replica) src /\
  exists st',
    sync_directories src far_replica no_replica = Done tt st' /\
    files st' !! far_replica = Some Dir /\
    forall rel, rel <> [] ->
      files st' !! (rel ++ far_replica) = files no_replica !! (rel ++ src).
Proof.
  assert (unrelated src far_replica) as Hun by evaluated.
  assert (wf (files no_replica)) as Hwf by evaluated.
  assert (files no_replica !! far_replica = None) as HR
    by (vm_compute; reflexivity).
  assert (creatable (files no_replica) far_replica) as Hc by evaluated.
  assert (all_readable (files no_replica) src) as Hr by evaluated.
  repeat (split; [assumption|]).
  exact (first_pass_copies_all src far_replica no_replica Hun Hwf HR Hc Hr).
Defined.

Lemma up_to_date_replica_left_alone_witness :
  unrelated src rep /\ wf (files in_sync) /\
  files in_sync !! rep = Some Dir /\ mirrored (files in_sync) src rep /\
  exists st',
    sync_directories src rep in_sync = Done tt st' /\
    files st' = files in_sync /\
    exists evs, trace st' = trace in_sync ++ evs /\ Forall quiet evs.
Proof.
  assert (unrelated src rep) as Hun by evaluated.
  assert (wf (files in_sync)) as Hwf by evaluated.
  assert (files in_sync !! rep = Some Dir) as HR by (vm_compute; reflexivity).
  assert (mirrored (files in_sync) src rep) as Hm by evaluated.
  repeat (split; [assumption|]).
  exact (up_to_date_replica_left_alone src rep in_sync Hun Hwf HR Hm).
Defined.

Lemma replica_root_under_a_file_witness :
  wf (files blocked) /\ files blocked !! far_replica = None /\
  ~ creatable (files blocked) far_replica /\
  exists st',
    sync_directories src far_replica blocked = Raised NotADirectoryError st' /\
    files st' = files blocked.
Proof.
  assert (wf (files blocked)) as Hwf by evaluated.
  assert (files blocked !! far_replica = None) as HR by (vm_compute; reflexivity).
  assert (~ creatable (files blocked) far_replica) as Hn by evaluated.
  repeat (split; [assumption|]).
  exact (replica_root_under_a_file src far_replica blocked Hwf HR Hn).
Defined.

Lemma rglob_visits_each_entry_once_witness :
  let body := fun x : path => count (Hash x) in
  let out := fun x : path => [Called (Hash x)] in
  wf (files behind) /\ files behind !! src = Some Dir /\
  exists visited,
    rglob (depth (files behind)) src body behind =
    Done tt (update behind (files behind) (visited ≫= out)) /\
    NoDup visited /\
    (forall x, x ∈ visited <-> sbelow src x /\ is_Some (files behind !! x)) /\
    (forall x y, x ∈ visited -> y ∈ visited -> sbelow x y ->
       before visited x y).
Proof.
  intros body out.
  assert (wf (files behind)) as Hwf by evaluated.
  assert (files behind !! src = Some Dir) as HS by (vm_compute; reflexivity).
  repeat (split; [assumption|]).
  apply (rglob_visits_each_entry_once src body out behind Hwf HS).
  intros item s Hs. unfold body, out, count, record, update.
  by rewrite Hs.
Defined.

Lemma sync_onto_itself_witness :
  wf (files behind) /\ is_Some (files behind !! src) /\
  exists st',
    sync_directories src src behind = Done tt st' /\
    files st' = files behind /\
    exists evs, trace st' = trace behind ++ evs /\ Forall quiet evs.
Proof.
  assert (wf (files behind)) as Hwf by evaluated.
  assert (is_Some (files behind !! src)) as HS by evaluated.
  repeat (split; [assumption|]).
  exact (sync_onto_itself src behind Hwf HS).
Defined.

Lemma replica_root_a_file_witness :
  unrelated src rep /\ wf (files replica_is_file) /\
  files replica_is_file !! src = Some Dir /\
  files replica_is_file !! rep = Some (File (text "x") true) /\
  files (final (sync_directories src rep replica_is_file)) =
    files replica_is_file /\
  ((exists st', sync_directories src rep replica_is_file = Done tt st') <->
   bare (files replica_is_file) src).
Proof.
  assert (unrelated src rep) as Hun by evaluated.
  assert (wf (files replica_is_file)) as Hwf by evaluated.
  assert (files replica_is_file !! src = Some Dir) as HS
    by (vm_compute; reflexivity).
  assert (files replica_is_file !! rep = Some (File (text "x") true)) as HR
    by (vm_compute; reflexivity).
  repeat (split; [assumption|]).
  exact (replica_root_a_file src rep replica_is_file _ _ Hun Hwf HS HR).
Defined.

Lemma replica_file_copied_or_kept_witness :
  let st' := final (sync_directories src rep behind) in
  unrelated src rep /\ wf (files behind) /\ compatible (files behind) src rep /\
  sync_directories src rep behind = Done tt st' /\
  files behind !! (["a"%string] ++ src) = Some (File (text "hello") true) /\
  (files st' !! (["a"%string] ++ rep) = Some (File (text "hello") true) \/
   exists c' r',
     files behind !! (["a"%string] ++ rep) = Some (File c' r') /\
     files st' !! (["a"%string] ++ rep) = Some (File c' r') /\
     length (text "hello") = length c' /\
     digest_of (text "hello") true = digest_of c' r').
Proof.
  intros st'.
  assert (unrelated src rep) as Hun by evaluated.
  assert (wf (files behind)) as Hwf by evaluated.
  assert (compatible (files behind) src rep) as Hc by evaluated.
  assert (sync_directories src rep behind = Done tt st') as Hrun
    by (vm_compute; reflexivity).
  assert (files behind !! (["a"%string] ++ src) =
          Some (File (text "hello") true)) as Hs by (vm_compute; reflexivity).
  repeat (split; [assumption|]).
  apply (replica_file_copied_or_kept src rep behind st' ["a"%string] _ _
           Hun Hwf Hc Hrun); [discriminate|assumption].
Defined.


Lemma relative_path_round_trip_witness :
  suffix src ("b" :: "d" :: src)%string /\
  (exists rel,
     relative_to ("b" :: "d" :: src)%string src behind = Done rel behind /\
     rel ++ src = ("b" :: "d" :: src)%string /\
     relative_to (rel ++ rep) rep behind = Done rel behind) /\
  ~ suffix src ("b" :: "d" :: rep)%string /\
  relative_to ("b" :: "d" :: rep)%string src behind = Raised ValueError behind.
Proof.
  assert (suffix src ("b" :: "d" :: src)%string) as Hin by evaluated.
  assert (~ suffix src ("b" :: "d" :: rep)%string) as Hout by evaluated.
  split; [assumption|]. split; [|split; [assumption|]].
  - by apply (relative_path_round_trip src rep ("b" :: "d" :: src)%string behind).
  - by apply (relative_path_round_trip src rep ("b" :: "d" :: rep)%string behind).
Defined.

